(** * Quantity extraction and normalisation

    A shallow embedding of [edsnlp/pipes/misc/quantities/quantities.py]:
    the unit registry, the quantity value objects, the number-to-unit
    linker of [QuantitiesMatcher.extract_quantities], the two merge
    passes over the values that the document stores for its spans, the
    reconciliation with the spans of a span getter, the composition of
    units by [extract_units] and the naming of the measures at
    construction, together with the two generators of
    [edsnlp/utils/batching.py], followed by the properties established
    about them.

    Conventions.  Python [float]s are binary64 numbers and are modelled by
    Rocq's primitive floats; integer literals stand for the floats they
    denote, and so does the Python [int] that [eval] returns for one.
    Where Python's arithmetic meets an [int] beyond the range of the
    floats it raises [OverflowError]: no function below produces it, and
    the properties on the exceptions that escape allow for it.  A Python
    [dict] is an insertion-ordered association list.  Exceptions are
    values of [exn] carried by the [result] type; an exception that no
    handler of the modelled code catches is returned as [Raise e] by the
    enclosing function.  The value of a span is not a field of the span:
    the document keeps it under the span's label and boundaries, so that
    two spans with the same label and boundaries read and write one
    value; the merge passes thread this store.  Token offsets are
    integers, list indices are natural numbers. *)

From Stdlib Require Import ZArith Lia Bool List String Ascii Floats Sorted OrderedTypeEx.
Import ListNotations.

Local Open Scope string_scope.
Local Open Scope list_scope.
Local Open Scope Z_scope.

(* ================================================================= *)
(** * Part I: the embedding                                           *)
(* ================================================================= *)

(** ** Exceptions *)

Inductive exn : Set :=
| KeyError
| AttributeError
| TypeError
| ZeroDivisionError
| OverflowError
| ValueError
| SyntaxError
| NameError.

Inductive result (A : Type) : Type :=
| Ok (a : A)
| Raise (e : exn).

Arguments Ok {A} a.
Arguments Raise {A} e.

Definition bind {A B : Type} (r : result A) (k : A -> result B) : result B :=
  match r with
  | Ok a => k a
  | Raise e => Raise e
  end.

Notation "x <- r ;; k" := (bind r (fun x => k))
  (at level 61, r at next level, right associativity).
Notation "' p <- r ;; k" := (bind r (fun x => match x with p => k end))
  (at level 61, p pattern, r at next level, right associativity).

(** ** Python numbers *)

(** [x / y]: true division raises [ZeroDivisionError] on a zero divisor
    (of either sign). *)
Definition py_div (x y : float) : result float :=
  if (y =? 0)%float then Raise ZeroDivisionError else Ok (x / y)%float.

(** ** Insertion-ordered dictionaries keyed by strings *)

Definition dict (V : Type) : Type := list (string * V).

Fixpoint dict_get {V : Type} (d : dict V) (k : string) : option V :=
  match d with
  | [] => None
  | (k', v) :: rest => if String.eqb k' k then Some v else dict_get rest k
  end.

(** [d[k] = v]: an existing key keeps its position, a new key goes last. *)
Fixpoint dict_set {V : Type} (d : dict V) (k : string) (v : V) : dict V :=
  match d with
  | [] => [(k, v)]
  | (k', v') :: rest =>
      if String.eqb k' k then (k', v) :: rest else (k', v') :: dict_set rest k v
  end.

(** [d[k]], which raises [KeyError] on a missing key. *)
Definition dict_lookup {V : Type} (d : dict V) (k : string) : result V :=
  match dict_get d k with
  | Some v => Ok v
  | None => Raise KeyError
  end.

(** Membership in a list of strings (a Python [set] of labels). *)
Definition str_mem (s : string) (l : list string) : bool :=
  existsb (String.eqb s) l.

(** ** Unit registry *)

Record UnitConfig : Type := {
  dim : string;
  degree : Z;
  scale : float;
  terms : list string;
  followed_by : option string
}.

(** The keys a [UnitConfig] dictionary can hold; [__init__] tests
    ["per_" + unit not in unit_config] against them. *)
Definition unit_config_keys : list string :=
  ["dim"; "degree"; "scale"; "terms"; "followed_by"].

(** [regex.split("(?<!per)_", unit)]: cut at every underscore that the
    three characters ["per"] do not immediately precede.  [before] holds
    the characters already read, last one first; [cur] is the part being
    built. *)
Definition ends_with_per (before : list ascii) : bool :=
  match before with
  | c1 :: c2 :: c3 :: _ =>
      Ascii.eqb c1 "r" && Ascii.eqb c2 "e" && Ascii.eqb c3 "p"
  | _ => false
  end.

Fixpoint split_from (before : list ascii) (cur : string) (s : string)
  : list string :=
  match s with
  | EmptyString => [cur]
  | String c rest =>
      if Ascii.eqb c "_" && negb (ends_with_per before)
      then cur :: split_from (c :: before) EmptyString rest
      else split_from (c :: before) (cur ++ String c EmptyString) rest
  end.

Definition regex_split_unit (unit : string) : list string :=
  split_from [] EmptyString unit.

(** A dimension signature: the items of the degree dictionary sorted by
    dimension name.  The code returns [str(dict(sorted(...)))], a printing
    of this list, and only ever compares two such strings. *)
Definition signature : Type := list (string * Z).

Fixpoint sig_eqb (a b : signature) : bool :=
  match a, b with
  | [], [] => true
  | (k, d) :: a', (k', d') :: b' => String.eqb k k' && (d =? d') && sig_eqb a' b'
  | _, _ => false
  end.

(** Tuple ordering of [(dimension, degree)] items, as [sorted] uses it. *)
Definition item_leb (a b : string * Z) : bool :=
  match String.compare (fst a) (fst b) with
  | Lt => true
  | Eq => snd a <=? snd b
  | Gt => false
  end.

Fixpoint insert_item (x : string * Z) (l : list (string * Z))
  : list (string * Z) :=
  match l with
  | [] => [x]
  | y :: t => if item_leb x y then x :: l else y :: insert_item x t
  end.

Definition sorted_items (l : list (string * Z)) : list (string * Z) :=
  fold_right insert_item [] l.

(** [sum(v)], [len(set(v))] and the dictionary comprehension of
    [parse_unit]. *)
Definition py_sum (v : list Z) : Z := fold_left Z.add v 0.

Definition set_size (v : list Z) : nat := List.length (nodup Z.eq_dec v).

Definition combine_degrees (v : list Z) : Z :=
  if (1 <? set_size v)%nat then py_sum v else hd 0 v.

Definition reduce_degrees (degrees : dict (list Z)) : dict Z :=
  map (fun kv => (fst kv, combine_degrees (snd kv)))
      (filter (fun kv => negb (py_sum (snd kv) =? 0)) degrees).

(** [degrees[dim].append(d)] on a [defaultdict(list)]. *)
Definition degrees_append (degrees : dict (list Z)) (dm : string) (d : Z)
  : dict (list Z) :=
  dict_set degrees dm
    (match dict_get degrees dm with
     | Some v => v ++ [d]
     | None => [d]
     end).

Section Embedding.

(** [unicodedata.normalize("NFKC", _)], a function of the Python
    standard library. *)
Variable normalize : string -> string.

Definition UnitRegistry : Type := dict UnitConfig.

(** The dictionary comprehension [{normalize(k): v for k, v in config.items()}]. *)
Definition normalize_keys (config : dict UnitConfig) : dict UnitConfig :=
  fold_left (fun acc kv => dict_set acc (normalize (fst kv)) (snd kv)) config [].

(** One round of the loop of [UnitRegistry.__init__].  The generated
    entry holds the three keys [dim], [degree] and [scale] only. *)
Definition add_reciprocal (acc : result (dict UnitConfig))
           (kv : string * UnitConfig) : result (dict UnitConfig) :=
  cfg <- acc ;;
  let unit := fst kv in
  let unit_config := snd kv in
  if negb (String.prefix "per_" unit)
     && negb (str_mem ("per_" ++ unit) unit_config_keys)
  then
    s <- py_div 1 (scale unit_config) ;;
    Ok (dict_set cfg ("per_" ++ unit)
          {| dim := dim unit_config;
             degree := - degree unit_config;
             scale := s;
             terms := [];
             followed_by := None |})
  else Ok cfg.

(** [UnitRegistry.__init__]: the loop runs over a snapshot of the items. *)
Definition UnitRegistry_init (config : dict UnitConfig) : result UnitRegistry :=
  let cfg0 := normalize_keys config in
  fold_left add_reciprocal cfg0 (Ok cfg0).

(** The [for part in ...] loop of [parse_unit]. *)
Fixpoint parse_parts (reg : UnitRegistry) (parts : list string)
         (degrees : dict (list Z)) (sc : float)
  : result (dict (list Z) * float) :=
  match parts with
  | [] => Ok (degrees, sc)
  | part :: rest =>
      unit_config <- dict_lookup reg (normalize part) ;;
      parse_parts reg rest
        (degrees_append degrees (dim unit_config) (degree unit_config))
        (sc * scale unit_config)%float
  end.

(** [UnitRegistry.parse_unit].  The [lru_cache] memoises a function of
    the read-only registry and is transparent. *)
Definition parse_unit (reg : UnitRegistry) (unit : string)
  : result (signature * float) :=
  '(degrees, sc) <- parse_parts reg (regex_split_unit unit) [] 1%float ;;
  Ok (sorted_items (reduce_degrees degrees), sc).

(** ** Quantity values *)

(** The payload of a [RangeQuantity] bound: a number, or the pair held by
    a range that was itself used as a bound. *)
Inductive payload : Type :=
| Num (x : float)
| Pair (a b : payload).

(** [==] on payloads (numbers by value, tuples component-wise). *)
Fixpoint payload_eqb (p q : payload) : bool :=
  match p, q with
  | Num x, Num y => (x =? y)%float
  | Pair a b, Pair a' b' => payload_eqb a a' && payload_eqb b b'
  | _, _ => false
  end.

(** [p * ratio] with a float [ratio]: a tuple cannot be multiplied by a float. *)
Definition payload_scale (p : payload) (ratio : float) : result payload :=
  match p with
  | Num x => Ok (Num (x * ratio)%float)
  | Pair _ _ => Raise TypeError
  end.

Record SimpleQuantity : Type := {
  sq_value : float;
  sq_unit : string;
  sq_registry : UnitRegistry
}.

Record RangeQuantity : Type := {
  rq_value : payload * payload;
  rq_unit : string;
  rq_registry : UnitRegistry
}.

Inductive Quantity : Type :=
| QSimple (q : SimpleQuantity)
| QRange (r : RangeQuantity).

Definition q_unit (q : Quantity) : string :=
  match q with
  | QSimple s => sq_unit s
  | QRange r => rq_unit r
  end.

Definition q_registry (q : Quantity) : UnitRegistry :=
  match q with
  | QSimple s => sq_registry s
  | QRange r => rq_registry r
  end.

(** [q.value] as a payload. *)
Definition q_payload (q : Quantity) : payload :=
  match q with
  | QSimple s => Num (sq_value s)
  | QRange r => Pair (fst (rq_value r)) (snd (rq_value r))
  end.

(** The objects [__eq__] may be handed as [other]. *)
Inductive pyobj : Type :=
| PySimple (q : SimpleQuantity)
| PyRange (r : RangeQuantity)
| PyNone
| PyFloat (x : float)
| PyStr (s : string).

(** [SimpleQuantity.convert_to]. *)
Definition SimpleQuantity_convert_to (self : SimpleQuantity) (other_unit : string)
  : result float :=
  '(self_degrees, self_scale) <- parse_unit (sq_registry self) (sq_unit self) ;;
  '(other_degrees, other_scale) <- parse_unit (sq_registry self) other_unit ;;
  if negb (sig_eqb self_degrees other_degrees) then Raise AttributeError
  else
    ratio <- py_div self_scale other_scale ;;
    if negb (ratio =? 1)%float then Ok (sq_value self * ratio)%float
    else Ok (sq_value self).

(** [RangeQuantity.convert_to]. *)
Definition RangeQuantity_convert_to (self : RangeQuantity) (other_unit : string)
  : result (payload * payload) :=
  '(self_degrees, self_scale) <- parse_unit (rq_registry self) (rq_unit self) ;;
  '(other_degrees, other_scale) <- parse_unit (rq_registry self) other_unit ;;
  if negb (sig_eqb self_degrees other_degrees) then Raise AttributeError
  else
    ratio <- py_div self_scale other_scale ;;
    if (ratio =? 1)%float then Ok (rq_value self)
    else
      from_value <- payload_scale (fst (rq_value self)) ratio ;;
      to_value <- payload_scale (snd (rq_value self)) ratio ;;
      Ok (from_value, to_value).

(** [q.convert_to(u)] by dynamic dispatch, the result as a payload. *)
Definition Quantity_convert_to (q : Quantity) (other_unit : string)
  : result payload :=
  match q with
  | QSimple s => v <- SimpleQuantity_convert_to s other_unit ;; Ok (Num v)
  | QRange r => v <- RangeQuantity_convert_to r other_unit ;; Ok (Pair (fst v) (snd v))
  end.

(** [SimpleQuantity.__eq__]. *)
Definition SimpleQuantity_eq (self : SimpleQuantity) (other : pyobj) : result bool :=
  match other with
  | PySimple o =>
      v <- SimpleQuantity_convert_to self (sq_unit o) ;;
      Ok (v =? sq_value o)%float
  | _ => Ok false
  end.

(** [RangeQuantity.__eq__]. *)
Definition RangeQuantity_eq (self : RangeQuantity) (other : pyobj) : result bool :=
  match other with
  | PyRange o =>
      v <- RangeQuantity_convert_to self (rq_unit o) ;;
      Ok (payload_eqb (fst v) (fst (rq_value o)) && payload_eqb (snd v) (snd (rq_value o)))
  | _ => Ok false
  end.

(** [a == b] for a quantity [a]: the left operand's [__eq__] answers
    [True] or [False], so the reflected method is never consulted. *)
Definition py_eq (a : Quantity) (b : pyobj) : result bool :=
  match a with
  | QSimple s => SimpleQuantity_eq s b
  | QRange r => RangeQuantity_eq r b
  end.

(** [SimpleQuantity.__add__]: a float and a tuple cannot be added. *)
Definition SimpleQuantity_add (self : SimpleQuantity) (other : Quantity)
  : result SimpleQuantity :=
  if String.eqb (q_unit other) (sq_unit self) then
    match other with
    | QSimple o =>
        Ok {| sq_value := (sq_value self + sq_value o)%float;
              sq_unit := sq_unit self;
              sq_registry := sq_registry self |}
    | QRange _ => Raise TypeError
    end
  else
    match other with
    | QSimple o =>
        v <- SimpleQuantity_convert_to o (sq_unit self) ;;
        Ok {| sq_value := (sq_value self + v)%float;
              sq_unit := sq_unit self;
              sq_registry := sq_registry self |}
    | QRange o =>
        _ <- RangeQuantity_convert_to o (sq_unit self) ;;
        Raise TypeError
    end.

(** [a + b] on quantity values: [RangeQuantity] defines no addition. *)
Definition Quantity_add (a b : Quantity) : result Quantity :=
  match a with
  | QSimple s => r <- SimpleQuantity_add s b ;; Ok (QSimple r)
  | QRange _ => Raise TypeError
  end.

(** [RangeQuantity.from_quantities]. *)
Definition RangeQuantity_from_quantities (a b : Quantity) : result RangeQuantity :=
  let a_value := q_payload a in
  b_value <- Quantity_convert_to b (q_unit a) ;;
  Ok {| rq_value := (a_value, b_value);
        rq_unit := q_unit a;
        rq_registry := q_registry a |}.

(** ** Ordering and attribute access *)

(** The comparison operators the ordering methods apply to payloads. *)
Inductive cmp_op : Set := OpLt | OpLe | OpGt.

Definition float_cmp (op : cmp_op) (x y : float) : bool :=
  match op with
  | OpLt => (x <? y)%float
  | OpLe => (x <=? y)%float
  | OpGt => (y <? x)%float
  end.

(** [p op q] on payloads.  Two numbers compare by value.  Two tuples
    compare at their first pair of items that are not [==], and as their
    lengths (here equal) when there is none.  A number and a tuple are
    not ordered.  (Python also takes an item for equal to its counterpart
    when the two are one and the same object, be it a NaN; payloads are
    values here, and tuples are compared only between intervals that
    hold intervals.) *)
Fixpoint payload_cmp (op : cmp_op) (p q : payload) : result bool :=
  match p, q with
  | Num x, Num y => Ok (float_cmp op x y)
  | Pair a b, Pair a' b' =>
      if negb (payload_eqb a a') then payload_cmp op a a'
      else if negb (payload_eqb b b') then payload_cmp op b b'
      else Ok (match op with OpLe => true | _ => false end)
  | _, _ => Raise TypeError
  end.

(** The builtins [max] and [min] over a non-empty sequence, given as its
    first item and the rest: a later item replaces the current one when
    it is [>] (for [max]) or [<] (for [min]) than it. *)
Fixpoint py_max (current : payload) (rest : list payload) : result payload :=
  match rest with
  | [] => Ok current
  | item :: rest' =>
      gt <- payload_cmp OpGt item current ;;
      py_max (if gt then item else current) rest'
  end.

Fixpoint py_min (current : payload) (rest : list payload) : result payload :=
  match rest with
  | [] => Ok current
  | item :: rest' =>
      lt <- payload_cmp OpLt item current ;;
      py_min (if lt then item else current) rest'
  end.

(** [part.value for part in other]: a [SimpleQuantity] iterates over
    itself, a [RangeQuantity] over [self[0]] and [self[1]], the scalars
    built from its two bounds.  The sequence is given as its first item
    and the rest. *)
Definition part_values (other : Quantity) : payload * list payload :=
  match other with
  | QSimple o => (Num (sq_value o), [])
  | QRange o => (fst (rq_value o), [snd (rq_value o)])
  end.

(** [SimpleQuantity.__lt__] and [SimpleQuantity.__le__]: both compare
    with the smallest part of [other]. *)
Definition SimpleQuantity_lt (self : SimpleQuantity) (other : Quantity)
  : result bool :=
  v <- SimpleQuantity_convert_to self (q_unit other) ;;
  m <- py_min (fst (part_values other)) (snd (part_values other)) ;;
  payload_cmp OpLt (Num v) m.

Definition SimpleQuantity_le (self : SimpleQuantity) (other : Quantity)
  : result bool :=
  v <- SimpleQuantity_convert_to self (q_unit other) ;;
  m <- py_min (fst (part_values other)) (snd (part_values other)) ;;
  payload_cmp OpLe (Num v) m.

(** [RangeQuantity.__lt__] compares the larger converted bound with the
    smallest part of [other], [RangeQuantity.__le__] with its largest
    part. *)
Definition RangeQuantity_lt (self : RangeQuantity) (other : Quantity)
  : result bool :=
  v <- RangeQuantity_convert_to self (q_unit other) ;;
  top <- py_max (fst v) [snd v] ;;
  m <- py_min (fst (part_values other)) (snd (part_values other)) ;;
  payload_cmp OpLt top m.

Definition RangeQuantity_le (self : RangeQuantity) (other : Quantity)
  : result bool :=
  v <- RangeQuantity_convert_to self (q_unit other) ;;
  top <- py_max (fst v) [snd v] ;;
  m <- py_max (fst (part_values other)) (snd (part_values other)) ;;
  payload_cmp OpLe top m.

(** [a < b] and [a <= b] for a quantity [a]: the left operand's method
    answers, so the reflected one is never consulted. *)
Definition py_lt (a b : Quantity) : result bool :=
  match a with
  | QSimple s => SimpleQuantity_lt s b
  | QRange r => RangeQuantity_lt r b
  end.

Definition py_le (a b : Quantity) : result bool :=
  match a with
  | QSimple s => SimpleQuantity_le s b
  | QRange r => RangeQuantity_le r b
  end.

(** [SimpleQuantity.__getattr__], reached for a name that is no
    attribute of the object: the value in the unit of that name, an
    unknown unit being reported as a missing attribute. *)
Definition SimpleQuantity_getattr (self : SimpleQuantity) (other_unit : string)
  : result float :=
  match SimpleQuantity_convert_to self other_unit with
  | Raise KeyError => Raise AttributeError
  | r => r
  end.

(** [RangeQuantity.__getattr__] has no handler. *)
Definition RangeQuantity_getattr (self : RangeQuantity) (other_unit : string)
  : result (payload * payload) :=
  RangeQuantity_convert_to self other_unit.

(** ** Documents, spans and tables *)

(** A span of the host document: token offsets and a label.  Labels are
    kept as strings; the code compares their hashes. *)
Record Span : Type := {
  start : Z;
  end_ : Z;
  label : string
}.

(** What the matcher reads from the document around its spans. *)
Record Doc : Type := {
  (** [doc[a:b].text.strip() == ""] *)
  gap_blank : Z -> Z -> bool;
  (** [doc[a:b].text] *)
  span_text : Z -> Z -> string;
  (** [doc[i].norm_] *)
  tok_norm : Z -> string;
  (** [get_text(doc[a:b], "NORM", True)] *)
  norm_text : Z -> Z -> string;
  (** bounds of the snippet handed to [extract_quantities] *)
  snippet_start : Z;
  snippet_end : Z
}.

(** [doc[a:b]] as a span: the slice is normalised so that it never ends
    before it starts; its label is empty. *)
Definition doc_slice (a b : Z) : Span :=
  {| start := a; end_ := Z.max a b; label := "" |}.

(** Truth value of a span: its length is positive. *)
Definition span_truthy (s : Span) : bool := start s <? end_ s.

(** A table span with the rows of [to_pd_table(as_spans=True)]. *)
Record Table : Type := {
  t_start : Z;
  t_end : Z;
  t_rows : list (list (option Span))
}.

(** A quantity span as the extraction loop produces it: the entity, and
    the value that the loop sets on it with
    [ent._.set(ent.label_, SimpleQuantity(...))]. *)
Record QSpan : Type := {
  qs_span : Span;
  qs_value : Quantity
}.

(** ** Matcher configuration *)

Record UnitlessRange : Type := {
  range_min : option float;
  range_max : option float;
  range_unit : string
}.

Record UnitlessPattern : Type := {
  up_terms : list string;
  up_ranges : option (list UnitlessRange);
  up_name : string
}.

(** The attributes of a [QuantitiesMatcher] that document processing reads. *)
Record QuantitiesMatcher : Type := {
  unit_registry : UnitRegistry;
  unitless_patterns : dict UnitlessPattern;
  unitless_label_hashes : list string;
  number_label_hashes : list string;
  unit_followers : dict string;
  measure_names : list (signature * string);
  all_quantities : bool;
  use_tables : bool;
  extract_ranges : bool;
  range_patterns : list (option string * option string);
  before_snippet_limit : Z;
  after_snippet_limit : Z
}.

Definition AFTER_SNIPPET_LIMIT : Z := 6.
Definition BEFORE_SNIPPET_LIMIT : Z := 10.

(** [self.measure_names[dims]]: the dictionary is keyed by signatures. *)
Fixpoint measure_lookup (names : list (signature * string)) (dims : signature)
  : option string :=
  match names with
  | [] => None
  | (d, n) :: rest => if sig_eqb d dims then Some n else measure_lookup rest dims
  end.

(** ** Candidate windows *)

(** The body shared by the two generators: yield until a candidate that
    is not a sentence end lies beyond the window. *)
Fixpoint yield_until (too_far : Span -> bool) (l : list (nat * (Span * bool)))
  : list (nat * Span) :=
  match l with
  | [] => []
  | (j, (ent, is_sent_end)) :: rest =>
      if negb is_sent_end && too_far ent then []
      else (j, ent) :: yield_until too_far rest
  end.

(** [enumerate] with the indices the generators yield. *)
Definition indexed {A : Type} (from : nat) (l : list A) : list (nat * A) :=
  combine (seq from (List.length l)) l.

(** [get_matches_after(i)]: the candidates after match [i], nearest first. *)
Definition get_matches_after (matches : list (Span * bool)) (i : nat)
  : list (nat * Span) :=
  match nth_error matches i with
  | None => []
  | Some (anchor, _) =>
      yield_until (fun ent => end_ anchor + AFTER_SNIPPET_LIMIT <? start ent)
                  (indexed (S i) (skipn (S i) matches))
  end.

(** [get_matches_before(i)]: match [i] itself, then the candidates before
    it, nearest first. *)
Definition get_matches_before (matches : list (Span * bool)) (i : nat)
  : list (nat * Span) :=
  match nth_error matches i with
  | None => []
  | Some (anchor, _) =>
      yield_until (fun ent => end_ ent <? start anchor - BEFORE_SNIPPET_LIMIT)
                  (rev (indexed 0 (firstn (S i) matches)))
  end.

(** [next(g for g in gen if test)] consumes the generator up to the first
    hit; these are the candidates it has looked at. *)
Fixpoint inspected {A : Type} (test : A -> bool) (l : list A) : list A :=
  match l with
  | [] => []
  | x :: rest => if test x then [x] else x :: inspected test rest
  end.

(** ** Pseudo sentence *)

Definition pseudo_mapping (unit_label_hashes number_labels : list string)
  : dict ascii :=
  let m0 := dict_set (dict_set (dict_set [] "stopword" ","%char)
                               "unitless_stopword" ":"%char)
                     "number" "n"%char in
  let m1 := fold_left (fun m name => dict_set m name "u"%char) unit_label_hashes m0 in
  fold_left (fun m name => dict_set m name "n"%char) number_labels m1.

Record PseudoState : Type := {
  ps_pseudo : list ascii;
  ps_last : Z;
  ps_offsets : list nat
}.

Definition pseudo_step (doc : Doc) (mapping : dict ascii) (st : PseudoState)
           (m : Span * bool) : PseudoState :=
  let ent := fst m in
  let is_sent_split := snd m in
  let pseudo :=
    if negb (start ent =? ps_last st) && negb (gap_blank doc (ps_last st) (start ent))
    then ps_pseudo st ++ ["w"%char] else ps_pseudo st in
  let code :=
    match dict_get mapping (label ent) with
    | Some c => c
    | None => if is_sent_split then "."%char else "w"%char
    end in
  {| ps_pseudo := pseudo ++ [code];
     ps_last := end_ ent;
     ps_offsets := ps_offsets st ++ [List.length pseudo] |}.

(** [make_pseudo_sentence]. *)
Definition make_pseudo_sentence (doc : Doc) (matches : list (Span * bool))
           (mapping : dict ascii) : list ascii * list nat :=
  let st := fold_left (pseudo_step doc mapping) matches
              {| ps_pseudo := []; ps_last := snippet_start doc; ps_offsets := [] |} in
  let pseudo :=
    if negb (snippet_end doc =? ps_last st) && gap_blank doc (ps_last st) (snippet_end doc)
    then ps_pseudo st ++ ["w"%char] else ps_pseudo st in
  (pseudo, ps_offsets st).

(** [s[a:b]] for non-negative bounds. *)
Definition py_slice {A : Type} (a b : nat) (l : list A) : list A :=
  firstn (b - a) (skipn a l).

(** [re.fullmatch(r"(,n)*", s)]. *)
Fixpoint match_enumeration (s : list ascii) : bool :=
  match s with
  | [] => true
  | c1 :: c2 :: rest => Ascii.eqb c1 "," && Ascii.eqb c2 "n" && match_enumeration rest
  | _ => false
  end.

(** [re.fullmatch(r"[,:n]*", s)]. *)
Definition match_separators (s : list ascii) : bool :=
  forallb (fun c => Ascii.eqb c "," || Ascii.eqb c ":" || Ascii.eqb c "n") s.

(** ** Number literals *)

Fixpoint str_remove (c : ascii) (s : string) : string :=
  match s with
  | EmptyString => EmptyString
  | String x rest =>
      if Ascii.eqb x c then str_remove c rest else String x (str_remove c rest)
  end.

Fixpoint str_replace_char (c d : ascii) (s : string) : string :=
  match s with
  | EmptyString => EmptyString
  | String x rest =>
      String (if Ascii.eqb x c then d else x) (str_replace_char c d rest)
  end.

Fixpoint str_lstrip (c : ascii) (s : string) : string :=
  match s with
  | EmptyString => EmptyString
  | String x rest => if Ascii.eqb x c then str_lstrip c rest else s
  end.

(** Python's builtin [eval] on a number literal or a number label: the
    float it denotes, or the exception it raises. *)
Variable py_eval : string -> result float.

(** The text handed to [eval] for a match labelled ["number"]. *)
Definition number_text (text : string) : string :=
  let t := str_lstrip "0"
             (str_remove " " (str_replace_char "," "." (str_remove " " text))) in
  if String.eqb t "" then "0" else t.

(** The [try] block that detects the value: [None] when [eval] raised a
    [ValueError] or a [SyntaxError], which the handler turns into
    [continue]. *)
Definition detect_value (doc : Doc) (number : Span) : result (option float) :=
  let source :=
    if String.eqb (label number) "number"
    then number_text (span_text doc (start number) (end_ number))
    else label number in
  match py_eval source with
  | Ok v => Ok (Some v)
  | Raise ValueError => Ok None
  | Raise SyntaxError => Ok None
  | Raise e => Raise e
  end.

(** ** Linking a number to its unit *)

(** The three variables [unit_idx], [unit_text] and [unit_norm]. *)
Record Link : Type := {
  unit_idx : option nat;
  unit_text : option Span;
  unit_norm : option string
}.

Definition no_link : Link :=
  {| unit_idx := None; unit_text := None; unit_norm := None |}.

Definition with_norm (lk : Link) (n : option string) : Link :=
  {| unit_idx := unit_idx lk; unit_text := unit_text lk; unit_norm := n |}.

Definition is_unit (unit_label_hashes : list string) (je : nat * Span) : bool :=
  str_mem (label (snd je)) unit_label_hashes.

(** Closest unit after the number. *)
Definition link_after (matches : list (Span * bool))
           (unit_label_hashes : list string) (number_idx : nat) : Link :=
  match find (is_unit unit_label_hashes) (get_matches_after matches number_idx) with
  | Some (j, ent) =>
      {| unit_idx := Some j; unit_text := Some ent; unit_norm := Some (label ent) |}
  | None => no_link
  end.

(** The unit is kept only when numbers and separators alone stand between
    the number and it; without a unit index the slice raises the
    [TypeError] that the handler ignores. *)
Definition check_enumeration (pseudo : list ascii) (offsets : list nat)
           (number_idx : nat) (lk : Link) : Link :=
  match unit_idx lk with
  | None => lk
  | Some u =>
      if match_enumeration
           (py_slice (nth number_idx offsets 0 + 1)%nat (nth u offsets 0%nat) pseudo)
      then lk else with_norm lk None
  end.

Definition first_some_start (row : list (option Span)) : option Z :=
  match find (fun o => match o with Some _ => true | None => false end) row with
  | Some (Some s) => Some (start s)
  | _ => None
  end.

Definition last_some_end (row : list (option Span)) : option Z :=
  match find (fun o => match o with Some _ => true | None => false end) (rev row) with
  | Some (Some s) => Some (end_ s)
  | _ => None
  end.

Definition is_within_row (start_line end_line : Z) (x : Span) : bool :=
  (start_line <=? start x) && (end_ x <=? end_line).

(** Backward search for a unit of the same row. *)
Definition link_row_before (matches : list (Span * bool))
           (unit_label_hashes : list string) (number_idx : nat)
           (start_line end_line : Z) (lk : Link) : Link :=
  match find (is_unit unit_label_hashes) (get_matches_before matches number_idx) with
  | Some (j, ent) =>
      if is_within_row start_line end_line ent
      then {| unit_idx := Some j; unit_text := Some ent; unit_norm := Some (label ent) |}
      else lk
  | None => lk
  end.

(** One row of a table that contains the number. *)
Definition link_row (matches : list (Span * bool)) (unit_label_hashes : list string)
           (number_idx : nat) (number : Span) (lk : Link)
           (row : list (option Span)) : Link :=
  match first_some_start row, last_some_end row with
  | Some start_line, Some end_line =>
      if is_within_row start_line end_line number then
        match unit_text lk with
        | Some ut =>
            if span_truthy ut && is_within_row start_line end_line ut
            then with_norm lk (Some (label ut))
            else link_row_before matches unit_label_hashes number_idx
                                 start_line end_line lk
        | None =>
            link_row_before matches unit_label_hashes number_idx
                            start_line end_line lk
        end
      else lk
  | _, _ => lk
  end.

Definition link_table (matches : list (Span * bool)) (unit_label_hashes : list string)
           (number_idx : nat) (number : Span) (lk : Link) (table : Table) : Link :=
  if (t_start table <=? start number) && (end_ number <=? t_end table)
  then fold_left (link_row matches unit_label_hashes number_idx number) (t_rows table) lk
  else lk.

(** The table fallback, entered only when no unit is linked yet. *)
Definition link_tables (matches : list (Span * bool)) (unit_label_hashes : list string)
           (table_matches : list Table) (number_idx : nat) (number : Span)
           (lk : Link) : Link :=
  match unit_norm lk with
  | None => fold_left (link_table matches unit_label_hashes number_idx number)
                      table_matches lk
  | Some _ => lk
  end.

(** Follower-unit inference from the match just before the number. *)
Definition link_follower (self : QuantitiesMatcher) (matches : list (Span * bool))
           (matched_unit_indices : list nat) (number_idx : nat) (number : Span)
           (lk : Link) : Link :=
  match unit_norm lk, number_idx with
  | None, S prev =>
      if existsb (Nat.eqb prev) matched_unit_indices then
        match nth_error matches prev with
        | Some (unit_before, _) =>
            if end_ unit_before =? start number then
              match dict_get (unit_followers self) (label unit_before) with
              | Some u => with_norm lk (Some u)
              | None => lk
              end
            else lk
        | None => lk
        end
      else lk
  | _, _ => lk
  end.

(** [("min" not in scope or value >= scope["min"]) and
     ("max" not in scope or value < scope["max"])]. *)
Definition in_scope (value : float) (scope : UnitlessRange) : bool :=
  match range_min scope with
  | None => true
  | Some lo => (lo <=? value)%float
  end
  &&
  match range_max scope with
  | None => true
  | Some hi => (value <? hi)%float
  end.

Definition is_unitless (self : QuantitiesMatcher) (je : nat * Span) : bool :=
  str_mem (label (snd je)) (unitless_label_hashes self).

(** Unitless-trigger dispatch: the handler of this block catches
    [StopIteration] only, so a missing pattern or a pattern without
    ranges escapes as [KeyError]. *)
Definition link_unitless (self : QuantitiesMatcher) (matches : list (Span * bool))
           (pseudo : list ascii) (offsets : list nat) (number_idx : nat)
           (value : float) (lk : Link) : result Link :=
  match unit_norm lk with
  | Some _ => Ok lk
  | None =>
      match find (is_unitless self) (get_matches_before matches number_idx) with
      | None => Ok lk
      | Some (unitless_idx, unitless_text) =>
          if match_separators
               (py_slice (nth unitless_idx offsets 0 + 1)%nat
                         (nth number_idx offsets 0%nat) pseudo)
          then
            unitless_pattern <-
              dict_lookup (unitless_patterns self) (label unitless_text) ;;
            ranges <- match up_ranges unitless_pattern with
                      | Some r => Ok r
                      | None => Raise KeyError
                      end ;;
            match find (in_scope value) ranges with
            | Some scope => Ok (with_norm lk (Some (range_unit scope)))
            | None => Ok lk
            end
          else Ok lk
      end
  end.

(** The three strategies tried before the unitless triggers. *)
Definition earlier_strategies (self : QuantitiesMatcher) (matches : list (Span * bool))
           (unit_label_hashes : list string) (table_matches : list Table)
           (pseudo : list ascii) (offsets : list nat)
           (matched_unit_indices : list nat)
           (number_idx : nat) (number : Span) : Link :=
  let lk := link_after matches unit_label_hashes number_idx in
  let lk := check_enumeration pseudo offsets number_idx lk in
  let lk := link_tables matches unit_label_hashes table_matches number_idx number lk in
  link_follower self matches matched_unit_indices number_idx number lk.

(** The four strategies in order. *)
Definition link_number (self : QuantitiesMatcher) (matches : list (Span * bool))
           (unit_label_hashes : list string) (table_matches : list Table)
           (pseudo : list ascii) (offsets : list nat)
           (matched_unit_indices : list nat)
           (number_idx : nat) (number : Span) (value : float) : result Link :=
  link_unitless self matches pseudo offsets number_idx value
    (earlier_strategies self matches unit_label_hashes table_matches pseudo offsets
       matched_unit_indices number_idx number).

(** ** The extraction loop *)

(** The state of the loop over the matches.  A number that becomes a
    quantity without its unit span is relabelled in place, and it is the
    very span object listed in [matches]: the list is part of the state. *)
Record LoopState : Type := {
  st_matches : list (Span * bool);
  st_quantities : list QSpan;
  st_matched_unit_indices : list nat;
  st_matched_number_indices : list nat
}.

Definition relabel (s : Span) (l : string) : Span :=
  {| start := start s; end_ := end_ s; label := l |}.

Fixpoint relabel_at (matches : list (Span * bool)) (i : nat) (l : string)
  : list (Span * bool) :=
  match matches, i with
  | [], _ => []
  | (s, b) :: rest, O => (relabel s l, b) :: rest
  | m :: rest, S k => m :: relabel_at rest k l
  end.

(** The final entity, and whether it is the number span itself rather
    than a fresh slice of the document. *)
Definition final_entity (doc : Doc) (number : Span) (lk : Link) : Span * bool :=
  match unit_text lk with
  | Some ut =>
      if span_truthy ut && (start number <=? end_ ut)
         && gap_blank doc (end_ number) (start ut)
      then (doc_slice (start number) (end_ ut), false)
      else if span_truthy ut && (start ut <=? end_ number)
              && gap_blank doc (end_ ut) (start number)
      then (doc_slice (start ut) (end_ number), false)
      else (number, true)
  | None => (number, true)
  end.

(** One round of the loop over [enumerate(matches)]. *)
Definition extract_step (self : QuantitiesMatcher) (doc : Doc)
           (unit_label_hashes : list string) (table_matches : list Table)
           (pseudo : list ascii) (offsets : list nat)
           (st : LoopState) (number_idx : nat) : result LoopState :=
  match nth_error (st_matches st) number_idx with
  | None => Ok st
  | Some (number, is_sent_split) =>
      if negb is_sent_split
         && negb (str_mem (label number) (number_label_hashes self))
      then Ok st
      else
        detected <- detect_value doc number ;;
        match detected with
        | None => Ok st
        | Some value =>
            lk <- link_number self (st_matches st) unit_label_hashes table_matches
                    pseudo offsets (st_matched_unit_indices st)
                    number_idx number value ;;
            match unit_norm lk with
            | None => Ok st
            | Some u =>
                if String.eqb u "" then Ok st
                else
                  let '(ent, is_number) := final_entity doc number lk in
                  match parse_unit (unit_registry self) u with
                  | Raise KeyError => Ok st
                  | Raise e => Raise e
                  | Ok (dims, _) =>
                      match (if all_quantities self then Some u
                             else measure_lookup (measure_names self) dims) with
                      | None => Ok st
                      | Some name =>
                          Ok {| st_matches :=
                                  if is_number
                                  then relabel_at (st_matches st) number_idx name
                                  else st_matches st;
                                st_quantities :=
                                  st_quantities st ++
                                  [{| qs_span := relabel ent name;
                                      qs_value :=
                                        QSimple {| sq_value := value;
                                                   sq_unit := u;
                                                   sq_registry := unit_registry self |} |}];
                                st_matched_unit_indices :=
                                  match unit_idx lk with
                                  | Some j => j :: st_matched_unit_indices st
                                  | None => st_matched_unit_indices st
                                  end;
                                st_matched_number_indices :=
                                  number_idx :: st_matched_number_indices st |}
                      end
                  end
            end
        end
  end.

(** The list of unmatched numbers and units built after the loop. *)
Definition unmatched_of (self : QuantitiesMatcher) (unit_label_hashes : list string)
           (st : LoopState) : list Span :=
  map (fun im => fst (snd im))
      (filter (fun im =>
                 let idx := fst im in
                 let m := fst (snd im) in
                 str_mem (label m) unit_label_hashes
                 && negb (existsb (Nat.eqb idx) (st_matched_unit_indices st))
                 || str_mem (label m) (number_label_hashes self)
                    && negb (existsb (Nat.eqb idx) (st_matched_number_indices st)))
              (indexed 0 (st_matches st))).

(** The loop over [enumerate(matches)], from a given round on. *)
Fixpoint run_steps (self : QuantitiesMatcher) (doc : Doc)
         (unit_label_hashes : list string) (table_matches : list Table)
         (pseudo : list ascii) (offsets : list nat)
         (indices : list nat) (st : LoopState) : result LoopState :=
  match indices with
  | [] => Ok st
  | number_idx :: rest =>
      st' <- extract_step self doc unit_label_hashes table_matches pseudo offsets
                          st number_idx ;;
      run_steps self doc unit_label_hashes table_matches pseudo offsets rest st'
  end.

Definition initial_state (matches : list (Span * bool)) : LoopState :=
  {| st_matches := matches; st_quantities := [];
     st_matched_unit_indices := []; st_matched_number_indices := [] |}.

(** [extract_quantities], given the output [(matches, unit_label_hashes)]
    of [get_matches] and the tables of the document. *)
Definition extract_quantities (self : QuantitiesMatcher) (doc : Doc)
           (tables : list Table) (matches : list (Span * bool))
           (unit_label_hashes : list string)
  : result (list QSpan * list Span) :=
  let table_matches := if use_tables self then tables else [] in
  let pseudo_offsets :=
    make_pseudo_sentence doc matches
      (pseudo_mapping unit_label_hashes (number_label_hashes self)) in
  st <- run_steps self doc unit_label_hashes table_matches
          (fst pseudo_offsets) (snd pseudo_offsets)
          (seq 0 (List.length matches)) (initial_state matches) ;;
  Ok (st_quantities st, unmatched_of self unit_label_hashes st).

(** ** The values of the spans *)

(** [span._.set(name, value)] stores the value in [doc.user_data] under
    the name of the extension and the character offsets of the span, and
    [span._.value] reads what is stored under the label of the span.
    The character offsets of a span are those of its first and of its
    last token, so that two spans of a document share an entry exactly
    when they have the same label and the same boundaries: the store is
    keyed by spans, which are these three. *)
Definition Store : Type := list (Span * Quantity).

Definition span_eqb (a b : Span) : bool :=
  (start a =? start b) && (end_ a =? end_ b) && String.eqb (label a) (label b).

(** [span._.value], which is [None] when nothing is stored for the span. *)
Fixpoint Span_value (store : Store) (s : Span) : option Quantity :=
  match store with
  | [] => None
  | (k, v) :: rest => if span_eqb k s then Some v else Span_value rest s
  end.

(** [span._.set(span.label_, value)]: an entry is overwritten. *)
Fixpoint Span_set (store : Store) (s : Span) (value : Quantity) : Store :=
  match store with
  | [] => [(s, value)]
  | (k, v) :: rest =>
      if span_eqb k s then (k, value) :: rest else (k, v) :: Span_set rest s value
  end.

(** The store once the extraction loop has set the values of its
    entities, one after the other. *)
Definition stored (store : Store) (quantities : list QSpan) : Store :=
  fold_left (fun st q => Span_set st (qs_span q) (qs_value q)) quantities store.

(** ** Merge passes *)

(** Both passes keep a non-empty list [merged] and only ever touch its
    last element: the list is carried as the pair of its front and of
    [merged[-1]], beside the store that holds the values. *)
Definition PassState : Type := Store * (list Span * Span).

Definition merged_list (st : list Span * Span) : list Span :=
  fst st ++ [snd st].

(** [merged.append(ent)]. *)
Definition keep_apart (st : PassState) (ent : Span) : PassState :=
  (fst st, (merged_list (snd st), ent)).

(** [merged[-1] = last = span; last._.set(last.label_, new_value)]. *)
Definition replace_last (st : PassState) (s : Span) (new_value : Quantity) : PassState :=
  (Span_set (fst st) s new_value, (fst (snd st), s)).

(** The span [last.doc[a:b]] relabelled with the label of [ent]. *)
Definition merged_span (a b : Z) (ent : Span) : Span :=
  relabel (doc_slice a b) (label ent).

(** One round of the loop of [merge_adjacent_quantities].  The test of
    the [if] reads the unit of both values once the spans touch, outside
    the [try]: a span without a value raises [AttributeError] there. *)
Definition adjacent_step (st : PassState) (ent : Span) : result PassState :=
  let store := fst st in
  let last := snd (snd st) in
  if end_ last =? start ent then
    match Span_value store last, Span_value store ent with
    | Some last_value, Some ent_value =>
        if negb (String.eqb (q_unit last_value) (q_unit ent_value)) then
          match Quantity_add last_value ent_value with
          | Ok new_value =>
              Ok (replace_last st (merged_span (start last) (end_ ent) ent) new_value)
          | Raise AttributeError => Ok (keep_apart st ent)
          | Raise TypeError => Ok (keep_apart st ent)
          | Raise e => Raise e
          end
        else Ok (keep_apart st ent)
    | _, _ => Raise AttributeError
    end
  else Ok (keep_apart st ent).

(** Running a step of a pass over the rest of the list. *)
Definition run_pass (step : PassState -> Span -> result PassState)
           (store : Store) (quantities : list Span) : result (Store * list Span) :=
  match quantities with
  | [] => Ok (store, [])
  | first :: rest =>
      st <- fold_left (fun acc ent => st <- acc ;; step st ent) rest
                      (Ok (store, ([], first))) ;;
      Ok (fst st, merged_list (snd st))
  end.

(** [merge_adjacent_quantities]: the spans it returns, and the store as
    it leaves it. *)
Definition merge_adjacent_quantities (store : Store) (quantities : list Span)
  : result (Store * list Span) :=
  run_pass adjacent_step store quantities.

Definition opt_string_eqb (a b : option string) : bool :=
  match a, b with
  | Some x, Some y => String.eqb x y
  | None, None => true
  | _, _ => false
  end.

(** The list [matching_patterns] of [merge_quantities_in_ranges]. *)
Definition matching_patterns (self : QuantitiesMatcher)
           (from_text : option string) (to_text : string)
  : list (option string * option string) :=
  filter (fun ab =>
            opt_string_eqb (snd ab) (Some to_text)
            && match fst ab with
               | None => true
               | Some a => opt_string_eqb (Some a) from_text
               end)
         (range_patterns self).

(** [RangeQuantity.from_quantities(last._.value, ent._.value)]: it reads
    attributes of both values, and raises [AttributeError] on a span
    that has none. *)
Definition range_value (store : Store) (last ent : Span) : result RangeQuantity :=
  match Span_value store last, Span_value store ent with
  | Some last_value, Some ent_value =>
      RangeQuantity_from_quantities last_value ent_value
  | _, _ => Raise AttributeError
  end.

(** One round of the loop of [merge_quantities_in_ranges]. *)
Definition range_step (self : QuantitiesMatcher) (doc : Doc)
           (st : PassState) (ent : Span) : result PassState :=
  let store := fst st in
  let last := snd (snd st) in
  let from_text :=
    if 0 <? start last then Some (tok_norm doc (start last - 1)) else None in
  let to_text := norm_text doc (end_ last) (start ent) in
  match matching_patterns self from_text to_text with
  | [] => Ok (keep_apart st ent)
  | (a, _) :: _ =>
      match range_value store last ent with
      | Ok new_value =>
          Ok (replace_last st
                (merged_span (match a with
                              | None => start last
                              | Some _ => start last - 1
                              end)
                             (end_ ent) ent)
                (QRange new_value))
      | Raise AttributeError => Ok (keep_apart st ent)
      | Raise TypeError => Ok (keep_apart st ent)
      | Raise e => Raise e
      end
  end.

(** [merge_quantities_in_ranges]. *)
Definition merge_quantities_in_ranges (self : QuantitiesMatcher) (doc : Doc)
           (store : Store) (quantities : list Span) : result (Store * list Span) :=
  if negb (extract_ranges self)
     || match range_patterns self with [] => true | _ => false end
  then Ok (store, quantities)
  else run_pass (range_step self doc) store quantities.

(** [__call__] without a span getter: the document is the only snippet.
    [store] holds what the document stores when it comes in; the spans
    returned are those handed to [set_spans]. *)
Definition call_without_getter (self : QuantitiesMatcher) (doc : Doc)
           (tables : list Table) (matches : list (Span * bool))
           (unit_label_hashes : list string) (store : Store)
  : result (Store * list Span) :=
  '(quantities, _) <- extract_quantities self doc tables matches unit_label_hashes ;;
  '(store, quantities) <-
    merge_adjacent_quantities (stored store quantities) (map qs_span quantities) ;;
  merge_quantities_in_ranges self doc store quantities.

(** ** Spans of interest *)












(** ** Composing units *)

(** [Span(doc, start, end, label)], which raises [IndexError] unless
    [0 <= start <= end <= len(doc)]; [None] stands for that error. *)
Definition Span_new (doc_len s e : Z) (l : string) : option Span :=
  if (0 <=? s) && (s <=? e) && (e <=? doc_len)
  then Some {| start := s; end_ := e; label := l |}
  else None.

(** ["_".join(labels)]. *)
Fixpoint join_labels (labels : list string) : string :=
  match labels with
  | [] => ""
  | [l] => l
  | l :: rest => l ++ "_" ++ join_labels rest
  end.

(** [next((i for i, e in list(enumerate(current))[::-1] if e.label_ != "per"), None)]:
    the index of the last part that is not a divisor. *)
Definition last_non_per (current : list Span) : option nat :=
  match find (fun ie => negb (String.eqb (label (snd ie)) "per"))
             (rev (indexed 0 current)) with
  | Some (i, _) => Some i
  | None => None
  end.

(** The lines that turn the parts of [current], up to the last one that
    is not a divisor, into a unit span appended to [units]. *)
Definition close_run (doc_len : Z) (current units : list Span) : option (list Span) :=
  match last_non_per current, current with
  | Some e, first :: _ =>
      match Span_new doc_len (start first) (end_ (nth e current first))
                     (join_labels (map label (firstn (S e) current))) with
      | Some unit => Some (units ++ [unit])
      | None => None
      end
  | _, _ => Some units
  end.

Record UnitsState : Type := {
  us_last : option Span;
  us_units : list Span;
  us_current : list Span
}.

(** One round of the loop of [extract_units], which reads the attributes
    [unit_part_label_hashes] and [compose_units] of the matcher. *)
Definition units_step (unit_part_label_hashes : list string) (compose_units : bool)
           (doc : Doc) (doc_len : Z) (acc : option UnitsState) (unit_part : Span)
  : option UnitsState :=
  match acc with
  | None => None
  | Some st =>
      if negb (str_mem (label unit_part) unit_part_label_hashes) then Some st
      else
        let current := us_current st in
        let break :=
          match us_last st with
          | None => false
          | Some last =>
              negb (gap_blank doc (end_ last) (start unit_part))
              && negb (Nat.eqb (List.length current) 0)
              || negb compose_units
                 && negb (Nat.eqb (List.length current) 0)
                 && negb (String.eqb (label (List.last current unit_part)) "per")
          end in
        if break then
          match close_run doc_len current (us_units st) with
          | Some units =>
              Some {| us_last := Some unit_part; us_units := units;
                      us_current := [unit_part] |}
          | None => None
          end
        else
          Some {| us_last := Some unit_part; us_units := us_units st;
                  us_current := current ++ [unit_part] |}
  end.

(** [extract_units], over the spans that [filter_spans(term_matches)]
    yields; [doc_len] is the number of tokens of their document. *)
Definition extract_units (unit_part_label_hashes : list string) (compose_units : bool)
           (doc : Doc) (doc_len : Z) (filtered : list Span) : option (list Span) :=
  match fold_left (units_step unit_part_label_hashes compose_units doc doc_len) filtered
                  (Some {| us_last := None; us_units := []; us_current := [] |}) with
  | Some st => close_run doc_len (us_current st) (us_units st)
  | None => None
  end.

(** ** Batching ([edsnlp/utils/batching.py]) *)

Section Batching.

(** The items and their [len]. *)
Variable T : Type.
Variable len : T -> nat.

(** The state of the two generators: the batches yielded so far, the
    batch being filled, and the running count ([total], [max_words]). *)
Definition BatchState : Type := list (list T) * list T * Z.

(** One round of the loop of [batchify_by_words]. *)
Definition words_step (batch_size : Z) (st : BatchState) (item : T) : BatchState :=
  let '(yielded, batch, total) := st in
  let count := Z.of_nat (len item) in
  if (batch_size <? total + count) && (0 <? List.length batch)%nat
  then (yielded ++ [batch], [] ++ [item], 0 + count)
  else (yielded, batch ++ [item], total + count).

(** [batchify_by_words], the batches listed in the order they are
    yielded. *)
Definition batchify_by_words (iterable : list T) (batch_size : Z) (drop_last : bool)
  : list (list T) :=
  let '(yielded, batch, _) := fold_left (words_step batch_size) iterable ([], [], 0) in
  if (0 <? List.length batch)%nat && negb drop_last then yielded ++ [batch] else yielded.

(** One round of the loop of [batchify_by_padded_words]. *)
Definition padded_step (batch_size : Z) (st : BatchState) (item : T) : BatchState :=
  let '(yielded, batch, max_words) := st in
  let count := Z.of_nat (len item) in
  if (batch_size <? (1 + Z.of_nat (List.length batch)) * Z.max max_words count)
     && (0 <? List.length batch)%nat
  then (yielded ++ [batch], [] ++ [item], Z.max 0 count)
  else (yielded, batch ++ [item], Z.max max_words count).

(** [batchify_by_padded_words]. *)
Definition batchify_by_padded_words (iterable : list T) (batch_size : Z)
           (drop_last : bool) : list (list T) :=
  let '(yielded, batch, _) := fold_left (padded_step batch_size) iterable ([], [], 0) in
  if (0 <? List.length batch)%nat && negb drop_last then yielded ++ [batch] else yielded.

End Batching.

Arguments batchify_by_words {T} len iterable batch_size drop_last.
Arguments batchify_by_padded_words {T} len iterable batch_size drop_last.
Arguments words_step {T} len batch_size st item.
Arguments padded_step {T} len batch_size st item.

(** ** Naming the measures at construction *)

(** A measure of the configuration once it is normalised into a
    dictionary: ["unit"], and ["name"] when it has one. *)
Record MsrConfig : Type := {
  msr_unit : string;
  msr_name : option string
}.

(** [self.measure_names[dims] = name]. *)
Fixpoint names_set (names : list (signature * string)) (dims : signature)
         (name : string) : list (signature * string) :=
  match names with
  | [] => [(dims, name)]
  | (d, n) :: rest =>
      if sig_eqb d dims then (d, name) :: rest
      else (d, n) :: names_set rest dims name
  end.

(** One round of the loops of [QuantitiesMatcher.__init__] that fill
    [measure_names]:
    [self.measure_names[self.unit_registry.parse_unit(m["unit"])[0]] = m["name"]]. *)
Definition name_measure (reg : UnitRegistry)
           (acc : result (list (signature * string))) (m : MsrConfig)
  : result (list (signature * string)) :=
  names <- acc ;;
  name <- match msr_name m with
          | Some n => Ok n
          | None => Raise KeyError
          end ;;
  '(dims, _) <- parse_unit reg (msr_unit m) ;;
  Ok (names_set names dims name).

(** [measure_names] after the two loops of [__init__], the first over
    [quantities] and the second over [measure_configs]: the same list,
    unless all quantities are captured, in which case the first is empty
    and the second lists the common quantities. *)
Definition init_measure_names (reg : UnitRegistry)
           (quantities measure_configs : list MsrConfig)
  : result (list (signature * string)) :=
  fold_left (name_measure reg) measure_configs
            (fold_left (name_measure reg) quantities (Ok [])).

(* ================================================================= *)
(** * Part II: properties                                             *)
(* ================================================================= *)

(** ** Binary64 facts *)

Definition shift52 (m : positive) : positive :=
  (m~0~0~0~0~0~0~0~0~0~0~0~0~0~0~0~0~0~0~0~0~0~0~0~0~0~0
    ~0~0~0~0~0~0~0~0~0~0~0~0~0~0~0~0~0~0~0~0~0~0~0~0~0~0)%positive.

Lemma mul_pow52 (m : positive) : Pos.mul 4503599627370496 m = shift52 m.
Proof. reflexivity. Qed.

Lemma digits_shift52 (m : positive) :
  Zpos (digits2_pos (shift52 m)) = Zpos (digits2_pos m) + 52.
Proof. unfold shift52. cbn [digits2_pos]. lia. Qed.

Lemma shr_shift52 (m : positive) :
  iter_pos shr_1 52 {| shr_m := Zpos (shift52 m); shr_r := false; shr_s := false |}
  = {| shr_m := Zpos m; shr_r := false; shr_s := false |}.
Proof. reflexivity. Qed.

(** Multiplying a valid binary64 number by one is exact. *)
Lemma SFmul_one_l (y : spec_float) :
  valid_binary y = true ->
  SF64mul (S754_finite false 4503599627370496 (-52)) y = y.
Proof.
  destruct y as [s | s | | s m e]; intros Hv; try reflexivity.
  unfold SF64mul, SFmul.
  change (xorb false s) with s.
  rewrite mul_pow52.
  cbn [SpecFloat.valid_binary] in Hv.
  unfold bounded, canonical_mantissa in Hv.
  apply andb_prop in Hv. destruct Hv as [Hc Hb].
  apply Z.eqb_eq in Hc.
  unfold binary_round_aux, shr_fexp.
  cbn [Zdigits2 shr_record_of_loc].
  rewrite digits_shift52.
  replace (Z.pos (digits2_pos m) + 52 + (-52 + e)) with (Z.pos (digits2_pos m) + e) by lia.
  rewrite Hc.
  replace (e - (-52 + e)) with 52 by lia.
  cbn [shr]. rewrite shr_shift52.
  cbn [shr_m loc_of_shr_record round_nearest_even Zdigits2 shr_record_of_loc].
  replace (-52 + e + 52) with e by lia.
  rewrite Hc, Z.sub_diag. cbn [shr shr_m].
  rewrite Hb. reflexivity.
Qed.

Lemma float_mul_1_l (x : float) : (1 * x)%float = x.
Proof.
  apply Prim2SF_inj. rewrite mul_spec.
  change (Prim2SF 1) with (S754_finite false 4503599627370496 (-52)).
  apply SFmul_one_l. apply Prim2SF_valid.
Qed.

(** ** Equality of quantity values *)

Definition same_variant (a : Quantity) (x : pyobj) : bool :=
  match a, x with
  | QSimple _, PySimple _ => true
  | QRange _, PyRange _ => true
  | _, _ => false
  end.

(** C10.  Comparing a quantity with a value of another type (any [x] that
    is not an instance of the quantity's own class) evaluates to [False]
    and raises nothing; in particular a [SimpleQuantity] and a
    [RangeQuantity] are never equal, whichever stands on the left and
    whatever their bounds and unit. *)
Theorem eq_other_variant_is_false (a : Quantity) (x : pyobj) :
  same_variant a x = false ->
  py_eq a x = Ok false
  /\ (forall (s : SimpleQuantity) (r : RangeQuantity),
         py_eq (QSimple s) (PyRange r) = Ok false
         /\ py_eq (QRange r) (PySimple s) = Ok false).
Proof.
  intros Hv. split.
  - destruct a as [s | r], x; simpl in *; try reflexivity; discriminate.
  - intros s r. split; reflexivity.
Qed.

(** C1 (amended).  [a == b] between two values of one variant is [True]
    exactly when converting the left operand [a] into the unit of the
    right operand [b] succeeds and yields a payload that [==] the payload
    of [b]. *)
Theorem eq_converts_left_operand :
  (forall a b : SimpleQuantity,
      py_eq (QSimple a) (PySimple b) = Ok true
      <-> exists v, SimpleQuantity_convert_to a (sq_unit b) = Ok v
                    /\ (v =? sq_value b)%float = true)
  /\ (forall a b : RangeQuantity,
         py_eq (QRange a) (PyRange b) = Ok true
         <-> exists v, RangeQuantity_convert_to a (rq_unit b) = Ok v
                       /\ payload_eqb (Pair (fst v) (snd v))
                                      (Pair (fst (rq_value b)) (snd (rq_value b))) = true).
Proof.
  split; intros a b; simpl.
  - destruct (SimpleQuantity_convert_to a (sq_unit b)) as [v | e]; simpl; split.
    + intros H. exists v. split; [reflexivity | congruence].
    + intros [v' [Hv Heq]]. congruence.
    + discriminate.
    + intros [v' [Hv _]]. discriminate.
  - destruct (RangeQuantity_convert_to a (rq_unit b)) as [v | e]; simpl; split.
    + intros H. exists v. split; [reflexivity | congruence].
    + intros [v' [Hv Heq]]. congruence.
    + discriminate.
    + intros [v' [Hv _]]. discriminate.
Qed.

(** ** Strings and dictionaries *)

Lemma string_app_assoc (a b c : string) : ((a ++ b) ++ c = a ++ (b ++ c))%string.
Proof. induction a as [| x a IH]; simpl; [reflexivity | now rewrite IH]. Qed.

Lemma string_app_nil_r (a : string) : (a ++ "")%string = a.
Proof. induction a as [| x a IH]; simpl; [reflexivity | now rewrite IH]. Qed.

Lemma dict_get_set_same {V : Type} (d : dict V) (k : string) (v : V) :
  dict_get (dict_set d k v) k = Some v.
Proof.
  induction d as [| [k' v'] d IH]; simpl.
  - now rewrite String.eqb_refl.
  - destruct (String.eqb k' k) eqn:E; simpl; rewrite E; [reflexivity | exact IH].
Qed.

Lemma dict_get_set_other {V : Type} (d : dict V) (k k' : string) (v : V) :
  k <> k' -> dict_get (dict_set d k v) k' = dict_get d k'.
Proof.
  intros Hne. induction d as [| [k0 v0] d IH]; simpl.
  - destruct (String.eqb k k') eqn:E; [| reflexivity].
    apply String.eqb_eq in E. contradiction.
  - destruct (String.eqb k0 k) eqn:E; simpl.
    + apply String.eqb_eq in E. subst k0.
      destruct (String.eqb k k') eqn:E'; [| reflexivity].
      apply String.eqb_eq in E'. contradiction.
    + destruct (String.eqb k0 k'); [reflexivity | exact IH].
Qed.

Lemma dict_set_keys_in {V : Type} (d : dict V) (k x : string) (v : V) :
  In x (map fst (dict_set d k v)) -> x = k \/ In x (map fst d).
Proof.
  induction d as [| [k0 v0] d IH]; simpl.
  - intros [H | []]. now left.
  - destruct (String.eqb k0 k) eqn:E; simpl.
    + intros [H | H]; right; [now left | now right].
    + intros [H | H]; [right; now left |].
      destruct (IH H) as [H' | H']; [now left | right; now right].
Qed.

(** ** Splitting a unit key *)

(** No underscore of [s] is a cutting point, [before] having been read. *)
Fixpoint no_cut (before : list ascii) (s : string) : bool :=
  match s with
  | EmptyString => true
  | String c rest =>
      negb (Ascii.eqb c "_" && negb (ends_with_per before)) && no_cut (c :: before) rest
  end.

Lemma split_from_not_nil (before : list ascii) (cur s : string) :
  split_from before cur s <> [].
Proof.
  revert before cur. induction s as [| c s IH]; intros before cur; simpl.
  - discriminate.
  - destruct (Ascii.eqb c "_" && negb (ends_with_per before)); [discriminate | apply IH].
Qed.

Lemma split_from_no_cut (before : list ascii) (cur s : string) :
  no_cut before s = true -> split_from before cur s = [(cur ++ s)%string].
Proof.
  revert before cur. induction s as [| c s IH]; intros before cur; simpl.
  - intros _. now rewrite string_app_nil_r.
  - destruct (Ascii.eqb c "_" && negb (ends_with_per before)); simpl; [discriminate |].
    intros H. rewrite (IH _ _ H). now rewrite string_app_assoc.
Qed.

Lemma split_from_single (before : list ascii) (cur s x : string) :
  split_from before cur s = [x] -> no_cut before s = true.
Proof.
  revert before cur. induction s as [| c s IH]; intros before cur; simpl.
  - reflexivity.
  - destruct (Ascii.eqb c "_" && negb (ends_with_per before)); simpl.
    + intros H. injection H as _ H. now apply split_from_not_nil in H.
    + apply IH.
Qed.

Lemma ends_with_per_context (b b' : list ascii) :
  ends_with_per b = true -> ends_with_per (b ++ b') = true.
Proof.
  destruct b as [| c1 [| c2 [| c3 b]]]; simpl; try discriminate. exact (fun H => H).
Qed.

Lemma no_cut_context (b b' : list ascii) (s : string) :
  no_cut b s = true -> no_cut (b ++ b') s = true.
Proof.
  revert b. induction s as [| c s IH]; intros b; simpl; [reflexivity |].
  intros H. apply andb_prop in H. destruct H as [H1 H2].
  apply andb_true_intro. split.
  - destruct (Ascii.eqb c "_"); [| reflexivity]. simpl in *.
    apply negb_true_iff in H1. apply negb_false_iff in H1.
    now rewrite (ends_with_per_context _ _ H1).
  - exact (IH (c :: b) H2).
Qed.

(** An atom stays one atom behind the reciprocal marker. *)
Lemma split_per_atom (u : string) :
  regex_split_unit u = [u] -> regex_split_unit ("per_" ++ u) = [("per_" ++ u)%string].
Proof.
  unfold regex_split_unit. intros H.
  apply split_from_single in H.
  change (split_from [] "" ("per_" ++ u))
    with (split_from ["_"; "r"; "e"; "p"]%char "per_" u).
  apply split_from_no_cut.
  exact (no_cut_context [] _ u H).
Qed.

(** ** Registry construction *)

Definition reciprocal_entry (uc : UnitConfig) (s : float) : UnitConfig :=
  {| dim := dim uc; degree := - degree uc; scale := s;
     terms := []; followed_by := None |}.

Definition negate_signature (sg : signature) : signature :=
  map (fun kd => (fst kd, - snd kd)) sg.

Lemma prefix_nil (s : string) : String.prefix "" s = true.
Proof. destruct s; reflexivity. Qed.

Lemma prefix_per (u : string) : String.prefix "per_" ("per_" ++ u) = true.
Proof. simpl. apply prefix_nil. Qed.

Lemma per_key_not_config_key (u : string) :
  str_mem ("per_" ++ u) unit_config_keys = false.
Proof. reflexivity. Qed.

Lemma per_injective (u v : string) : ("per_" ++ u)%string = ("per_" ++ v)%string -> u = v.
Proof. simpl. intros H. now injection H. Qed.

Lemma dict_get_some_in {V : Type} (d : dict V) (k : string) (v : V) :
  dict_get d k = Some v -> In (k, v) d.
Proof.
  induction d as [| [k0 v0] d IH]; simpl; [discriminate |].
  destruct (String.eqb k0 k) eqn:E.
  - apply String.eqb_eq in E. intros H. injection H as ->. subst. now left.
  - intros H. right. now apply IH.
Qed.

Lemma dict_set_nodup {V : Type} (d : dict V) (k : string) (v : V) :
  NoDup (map fst d) -> NoDup (map fst (dict_set d k v)).
Proof.
  induction d as [| [k0 v0] d IH]; simpl; intros Hnd.
  - constructor; [intros [] | constructor].
  - inversion Hnd as [| x l Hnin Hnd']; subst.
    destruct (String.eqb k0 k) eqn:E; simpl.
    + constructor; assumption.
    + constructor; [| now apply IH].
      intros Hin. apply dict_set_keys_in in Hin. destruct Hin as [-> | Hin].
      * now rewrite String.eqb_refl in E.
      * contradiction.
Qed.

Lemma dict_get_unique {V : Type} (d : dict V) (k : string) (v v' : V) :
  NoDup (map fst d) -> dict_get d k = Some v -> In (k, v') d -> v' = v.
Proof.
  induction d as [| [k0 v0] d IH]; simpl; intros Hnd Hget Hin; [contradiction |].
  inversion Hnd as [| x l Hnin Hnd']; subst.
  destruct (String.eqb k0 k) eqn:E.
  - apply String.eqb_eq in E. subst k0. injection Hget as ->.
    destruct Hin as [Heq | Hin]; [congruence |].
    exfalso. apply Hnin. change k with (fst (k, v')). now apply in_map.
  - destruct Hin as [Heq | Hin].
    + injection Heq as -> _. now rewrite String.eqb_refl in E.
    + now apply IH.
Qed.

Lemma normalize_keys_facts (config acc : dict UnitConfig) :
  NoDup (map fst acc) ->
  (forall k, In k (map fst acc) -> exists k0, k = normalize k0) ->
  let d := fold_left (fun acc kv => dict_set acc (normalize (fst kv)) (snd kv)) config acc in
  NoDup (map fst d) /\ (forall k, In k (map fst d) -> exists k0, k = normalize k0).
Proof.
  revert acc. induction config as [| [k v] config IH]; intros acc Hnd Himg; simpl.
  - split; assumption.
  - apply IH.
    + now apply dict_set_nodup.
    + intros x Hin. apply dict_set_keys_in in Hin. destruct Hin as [-> | Hin].
      * now exists k.
      * now apply Himg.
Qed.

Lemma add_reciprocal_step (cfg : dict UnitConfig) (v : string) (vc : UnitConfig) :
  add_reciprocal (Ok cfg) (v, vc)
  = if String.prefix "per_" v then Ok cfg
    else s <- py_div 1 (scale vc) ;;
         Ok (dict_set cfg ("per_" ++ v) (reciprocal_entry vc s)).
Proof.
  unfold add_reciprocal. cbn [bind fst snd].
  rewrite per_key_not_config_key.
  destruct (String.prefix "per_" v); reflexivity.
Qed.

Lemma add_reciprocal_raise (items : list (string * UnitConfig)) (e : exn) :
  fold_left add_reciprocal items (Raise e) = Raise e.
Proof. induction items as [| kv items IH]; simpl; [reflexivity | exact IH]. Qed.

(** Keys without the reciprocal marker keep the entry they were given. *)
Lemma init_keeps_plain_keys (items : list (string * UnitConfig))
      (cfg reg : dict UnitConfig) (k : string) :
  fold_left add_reciprocal items (Ok cfg) = Ok reg ->
  String.prefix "per_" k = false ->
  dict_get reg k = dict_get cfg k.
Proof.
  revert cfg. induction items as [| [v vc] items IH]; intros cfg Hfold Hk;
    cbn [fold_left] in Hfold.
  - now injection Hfold as ->.
  - rewrite add_reciprocal_step in Hfold.
    destruct (String.prefix "per_" v).
    + now apply IH.
    + destruct (py_div 1 (scale vc)) as [s | e]; cbn [bind] in Hfold.
      * rewrite (IH _ Hfold Hk). apply dict_get_set_other.
        intros Heq. subst k. now rewrite prefix_per in Hk.
      * now rewrite add_reciprocal_raise in Hfold.
Qed.

(** The reciprocal of a plain key is the entry generated from it. *)
Lemma init_generates_reciprocal (items : list (string * UnitConfig))
      (cfg reg : dict UnitConfig) (u : string) (uc : UnitConfig) :
  fold_left add_reciprocal items (Ok cfg) = Ok reg ->
  (forall vc, In (u, vc) items -> vc = uc) ->
  String.prefix "per_" u = false ->
  (In u (map fst items) ->
   exists s, py_div 1 (scale uc) = Ok s
             /\ dict_get reg ("per_" ++ u) = Some (reciprocal_entry uc s))
  /\ (~ In u (map fst items) ->
      dict_get reg ("per_" ++ u) = dict_get cfg ("per_" ++ u)).
Proof.
  revert cfg. induction items as [| [v vc] items IH]; intros cfg Hfold Hcons Hu.
  - cbn [fold_left] in Hfold. injection Hfold as ->. split; [intros [] | reflexivity].
  - cbn [fold_left] in Hfold. rewrite add_reciprocal_step in Hfold.
    assert (Hcons' : forall vc0, In (u, vc0) items -> vc0 = uc)
      by (intros vc0 Hin; apply Hcons; now right).
    destruct (string_dec v u) as [-> | Hne].
    + assert (vc = uc) by (apply Hcons; now left). subst vc.
      rewrite Hu in Hfold.
      destruct (py_div 1 (scale uc)) as [s | e] eqn:Hdiv; cbn [bind] in Hfold;
        [| now rewrite add_reciprocal_raise in Hfold].
      destruct (IH _ Hfold Hcons' Hu) as [IHin IHout].
      split; [| intros Hnin; exfalso; apply Hnin; now left].
      intros _. destruct (in_dec string_dec u (map fst items)) as [Hin | Hnin].
      * exact (IHin Hin).
      * exists s. split; [reflexivity |].
        rewrite (IHout Hnin). apply dict_get_set_same.
    + assert (Hstep : exists cfg', fold_left add_reciprocal items (Ok cfg') = Ok reg
                                   /\ dict_get cfg' ("per_" ++ u) = dict_get cfg ("per_" ++ u)).
      { destruct (String.prefix "per_" v).
        - exists cfg. split; [exact Hfold | reflexivity].
        - destruct (py_div 1 (scale vc)) as [s | e]; cbn [bind] in Hfold;
            [| now rewrite add_reciprocal_raise in Hfold].
          eexists. split; [exact Hfold |].
          apply dict_get_set_other. intros Heq. apply per_injective in Heq. contradiction. }
      destruct Hstep as [cfg' [Hfold' Hsame]].
      destruct (IH _ Hfold' Hcons' Hu) as [IHin IHout].
      split.
      * intros [Heq | Hin]; [simpl in Heq; contradiction | exact (IHin Hin)].
      * intros Hnin. rewrite IHout, Hsame; [reflexivity |].
        intros Hin. apply Hnin. now right.
Qed.

(** ** Dimensional closure *)

Section Closure.

(** Two facts of NFKC normalisation: it is idempotent, and the ASCII
    prefix ["per_"] neither changes nor combines with what follows. *)
Hypothesis normalize_idempotent :
  forall s, normalize (normalize s) = normalize s.
Hypothesis normalize_per :
  forall s, normalize ("per_" ++ s) = ("per_" ++ normalize s)%string.

Lemma parse_single_atom (reg : UnitRegistry) (key : string) (uc : UnitConfig) :
  regex_split_unit key = [key] ->
  dict_get reg (normalize key) = Some uc ->
  degree uc <> 0 ->
  parse_unit reg key = Ok ([(dim uc, degree uc)], (1 * scale uc)%float).
Proof.
  intros Hsplit Hget Hdeg.
  unfold parse_unit. rewrite Hsplit.
  cbn [parse_parts]. unfold dict_lookup. rewrite Hget. cbn [bind].
  unfold degrees_append. cbn [dict_get dict_set].
  unfold reduce_degrees. cbn [filter snd fst].
  assert (Hs : py_sum [degree uc] = degree uc) by (unfold py_sum; simpl; reflexivity).
  rewrite Hs.
  destruct (Z.eqb_spec (degree uc) 0) as [H0 | _]; [contradiction |].
  cbn [negb map fst snd].
  assert (Hc : combine_degrees [degree uc] = degree uc) by reflexivity.
  rewrite Hc. reflexivity.
Qed.

(** C3.  Let [u] be a key of the registry as given at construction
    (after key normalisation) that is one atom, does not start with the
    reciprocal marker and has a non-zero degree.  Once the registry is
    built, [parse_unit(u)] returns the signature [{dim: degree}] with the
    scale of [u], and [parse_unit("per_" + u)] returns the negated
    signature with the reciprocal [1 / scale] of that scale. *)
Theorem reciprocal_closure (config : dict UnitConfig) (reg : UnitRegistry)
        (u : string) (uc : UnitConfig) :
  UnitRegistry_init config = Ok reg ->
  dict_get (normalize_keys config) u = Some uc ->
  String.prefix "per_" u = false ->
  degree uc <> 0 ->
  regex_split_unit u = [u] ->
  exists sg sc sc',
    parse_unit reg u = Ok (sg, sc)
    /\ parse_unit reg ("per_" ++ u) = Ok (negate_signature sg, sc')
    /\ py_div 1 sc = Ok sc'
    /\ sg = [(dim uc, degree uc)]
    /\ sc = scale uc.
Proof.
  intros Hinit Hget Hplain Hdeg Hatom.
  unfold UnitRegistry_init in Hinit.
  destruct (normalize_keys_facts config [] (NoDup_nil _)
              (fun k (H : In k []) => match H with end)) as [Hnd Himg].
  fold (normalize_keys config) in Hnd, Himg.
  assert (Hin : In (u, uc) (normalize_keys config)) by now apply dict_get_some_in.
  assert (Hkey : In u (map fst (normalize_keys config)))
    by (change u with (fst (u, uc)); now apply in_map).
  assert (Hnorm : normalize u = u).
  { destruct (Himg u Hkey) as [k0 ->]. apply normalize_idempotent. }
  destruct (init_generates_reciprocal _ _ _ u uc Hinit) as [Hgen _];
    [intros vc Hvc; now apply (dict_get_unique _ u uc vc Hnd) | assumption |].
  destruct (Hgen Hkey) as [s [Hdiv Hrec]].
  exists [(dim uc, degree uc)], (scale uc), s.
  split; [| split; [| split; [| split]]]; try reflexivity.
  - rewrite (parse_single_atom reg u uc); try assumption.
    + now rewrite float_mul_1_l.
    + rewrite Hnorm, (init_keeps_plain_keys _ _ _ u Hinit Hplain). exact Hget.
  - rewrite (parse_single_atom reg ("per_" ++ u) (reciprocal_entry uc s)).
    + cbn [reciprocal_entry dim degree scale negate_signature map fst snd].
      now rewrite float_mul_1_l.
    + now apply split_per_atom.
    + rewrite normalize_per, Hnorm. exact Hrec.
    + simpl. lia.
  - exact Hdiv.
Qed.

End Closure.

(** ** [parse_unit] against its description *)

(** The description of [parse_unit], in its own words: split the key
    into atoms on the underscores that ["per"] does not precede, look
    every atom up, multiply the scales, and for each dimension keep the
    single recorded degree when all the degrees of that dimension are
    equal and their sum otherwise, dropping the dimensions whose degrees
    sum to zero. *)

(** The atoms of a key, in the words of the description: the key is cut
    at every underscore that the three characters ["per"] do not
    precede, and the atoms are the pieces between the cuts. *)
Definition preceded_by_per (key : string) (i : nat) : bool :=
  (3 <=? i)%nat && String.eqb (String.substring (i - 3) 3 key) "per".

Definition is_cut (key : string) (i : nat) : bool :=
  match String.get i key with
  | Some c => Ascii.eqb c "_" && negb (preceded_by_per key i)
  | None => false
  end.

Definition cuts (key : string) : list nat :=
  filter (is_cut key) (seq 0 (String.length key)).

Fixpoint pieces (key : string) (from : nat) (cuts : list nat) : list string :=
  match cuts with
  | [] => [String.substring from (String.length key - from) key]
  | c :: rest => String.substring from (c - from) key :: pieces key (S c) rest
  end.

Definition described_atoms (key : string) : list string :=
  pieces key 0 (cuts key).

Fixpoint lookup_atoms (reg : UnitRegistry) (atoms : list string)
  : result (list UnitConfig) :=
  match atoms with
  | [] => Ok []
  | a :: rest =>
      uc <- dict_lookup reg (normalize a) ;;
      ucs <- lookup_atoms reg rest ;;
      Ok (uc :: ucs)
  end.

Definition product_of_scales (l : list float) : float :=
  match l with
  | [] => 1%float
  | s :: rest => fold_left PrimFloat.mul rest s
  end.

Definition degrees_of (d : string) (descs : list UnitConfig) : list Z :=
  map degree (filter (fun uc => String.eqb (dim uc) d) descs).

Definition all_equal (v : list Z) : bool :=
  match v with
  | [] => true
  | x :: t => forallb (Z.eqb x) t
  end.

Definition total (v : list Z) : Z := fold_right Z.add 0 v.

Definition recorded_degree (v : list Z) : Z :=
  if all_equal v then hd 0 v else total v.

(** The dimensions of the atoms, each once, in order of first appearance. *)
Definition dimensions (descs : list UnitConfig) : list string :=
  fold_left (fun seen uc => if str_mem (dim uc) seen then seen else seen ++ [dim uc])
            descs [].

Definition described_signature (descs : list UnitConfig) : signature :=
  sorted_items
    (map (fun d => (d, recorded_degree (degrees_of d descs)))
         (filter (fun d => negb (total (degrees_of d descs) =? 0)) (dimensions descs))).

Definition described_parse_unit (reg : UnitRegistry) (key : string)
  : result (signature * float) :=
  descs <- lookup_atoms reg (described_atoms key) ;;
  Ok (described_signature descs, product_of_scales (map scale descs)).

Lemma string_length_app (a b : string) :
  String.length (a ++ b) = (String.length a + String.length b)%nat.
Proof. induction a as [| x a IH]; cbn; [reflexivity | now rewrite IH]. Qed.

Lemma substring_zero (n : nat) (s : string) : substring n 0 s = "".
Proof.
  revert n. induction s as [| c s IH]; intros [| n]; cbn; try reflexivity. apply IH.
Qed.

Lemma substring_app_l (n m : nat) (p s : string) :
  (n + m <= String.length p)%nat -> substring n m (p ++ s) = substring n m p.
Proof.
  revert n m. induction p as [| c p IH]; intros n m H; cbn [String.length] in H.
  - assert (n = 0 /\ m = 0)%nat as [-> ->] by lia. cbn. now rewrite substring_zero.
  - destruct n as [| n]; cbn.
    + destruct m as [| m]; [reflexivity |]. f_equal. apply (IH 0%nat). lia.
    + apply IH. lia.
Qed.

Lemma substring_app_r (m : nat) (p s : string) :
  substring (String.length p) m (p ++ s) = substring 0 m s.
Proof. induction p as [| c p IH]; cbn; [reflexivity | exact IH]. Qed.

Lemma substring_snoc (n : nat) (p : string) (c : ascii) :
  (n <= String.length p)%nat ->
  substring n (S (String.length p) - n) (p ++ String c "")
  = (substring n (String.length p - n) p ++ String c "")%string.
Proof.
  revert n. induction p as [| x p IH]; intros n H; cbn [String.length] in *.
  - assert (n = 0)%nat as -> by lia. reflexivity.
  - destruct n as [| n].
    + cbn. f_equal. specialize (IH 0%nat ltac:(lia)).
      rewrite !Nat.sub_0_r in IH. exact IH.
    + cbn [substring append]. replace (S (S (String.length p)) - S n)%nat
        with (S (String.length p) - n)%nat by lia.
      cbn [Nat.sub]. apply IH. lia.
Qed.

Lemma get_app_at (p s : string) (c : ascii) :
  String.get (String.length p) (p ++ String c s) = Some c.
Proof. induction p as [| x p IH]; cbn; [reflexivity | exact IH]. Qed.

Lemma length_list (s : string) :
  String.length s = List.length (list_ascii_of_string s).
Proof. induction s as [| c s IH]; cbn; [reflexivity | now rewrite IH]. Qed.

Lemma list_of_app (a b : string) :
  list_ascii_of_string (a ++ b) = list_ascii_of_string a ++ list_ascii_of_string b.
Proof. induction a as [| c a IH]; cbn; [reflexivity | now rewrite IH]. Qed.

(** The test of the scanner, on the characters read so far, is the test
    of the description at the position reached. *)
Lemma preceded_by_per_read (p s : string) :
  preceded_by_per (p ++ s) (String.length p)
  = ends_with_per (rev (list_ascii_of_string p)).
Proof.
  unfold preceded_by_per.
  destruct (rev (list_ascii_of_string p)) as [| c1 [| c2 [| c3 r]]] eqn:Hrev.
  - apply (f_equal (@List.length ascii)) in Hrev. rewrite length_rev, <- length_list in Hrev.
    rewrite Hrev. reflexivity.
  - apply (f_equal (@List.length ascii)) in Hrev. rewrite length_rev, <- length_list in Hrev.
    rewrite Hrev. reflexivity.
  - apply (f_equal (@List.length ascii)) in Hrev. rewrite length_rev, <- length_list in Hrev.
    rewrite Hrev. reflexivity.
  - apply (f_equal (@rev ascii)) in Hrev. rewrite rev_involutive in Hrev.
    cbn [rev] in Hrev. rewrite <- !app_assoc in Hrev. cbn [app] in Hrev.
    assert (Hp : p = (string_of_list_ascii (rev r)
                      ++ String c3 (String c2 (String c1 "")))%string).
    { rewrite <- (string_of_list_ascii_of_string p), Hrev.
      generalize (rev r). intros q. induction q as [| x q IH]; cbn; [reflexivity |].
      now rewrite IH. }
    set (q := string_of_list_ascii (rev r)) in *.
    assert (Hlen : String.length p = (String.length q + 3)%nat).
    { rewrite Hp, string_length_app. reflexivity. }
    rewrite Hlen. replace (String.length q + 3 - 3)%nat with (String.length q) by lia.
    replace (3 <=? String.length q + 3)%nat with true
      by (symmetry; apply Nat.leb_le; lia).
    rewrite Hp, string_app_assoc, substring_app_r.
    cbn [substring append]. rewrite substring_zero. cbn [String.eqb ends_with_per andb].
    destruct (Ascii.eqb c3 "p"), (Ascii.eqb c2 "e"), (Ascii.eqb c1 "r"); reflexivity.
Qed.

Lemma is_cut_read (p s : string) (c : ascii) :
  is_cut (p ++ String c s) (String.length p)
  = Ascii.eqb c "_" && negb (ends_with_per (rev (list_ascii_of_string p))).
Proof. unfold is_cut. now rewrite get_app_at, preceded_by_per_read. Qed.

(** The scanner, having read [p] and holding in [cur] what it read since
    position [from], cuts the rest of the key as the description does. *)
Lemma split_from_pieces (s p cur : string) (from : nat) :
  (from <= String.length p)%nat ->
  cur = substring from (String.length p - from) p ->
  split_from (rev (list_ascii_of_string p)) cur s
  = pieces (p ++ s) from
           (filter (is_cut (p ++ s)) (seq (String.length p) (String.length s))).
Proof.
  revert p cur from. induction s as [| c s IH]; intros p cur from Hfrom Hcur.
  - cbn [split_from String.length seq filter pieces]. now rewrite string_app_nil_r, Hcur.
  - cbn [split_from String.length seq filter]. rewrite is_cut_read.
    assert (Hkey : (p ++ String c s)%string = ((p ++ String c "") ++ s)%string)
      by now rewrite string_app_assoc.
    assert (Hlen : String.length (p ++ String c "") = S (String.length p))
      by (rewrite string_length_app; cbn; lia).
    assert (Hrev : rev (list_ascii_of_string (p ++ String c ""))
                   = c :: rev (list_ascii_of_string p))
      by (rewrite list_of_app, rev_app_distr; reflexivity).
    destruct (Ascii.eqb c "_" && negb (ends_with_per (rev (list_ascii_of_string p)))).
    + cbn [pieces]. f_equal.
      * rewrite Hcur. symmetry. apply substring_app_l. lia.
      * rewrite Hkey, <- Hrev, <- Hlen. apply IH; [lia |].
        now rewrite Nat.sub_diag, substring_zero.
    + rewrite Hkey, <- Hrev, <- Hlen. apply IH; [lia |].
      rewrite Hlen, Hcur. symmetry. now apply substring_snoc.
Qed.

(** The atoms that [regex.split] returns are those of the description. *)
Lemma regex_split_as_described (key : string) :
  regex_split_unit key = described_atoms key.
Proof.
  unfold regex_split_unit, described_atoms, cuts.
  exact (split_from_pieces key "" "" 0 (Nat.le_refl 0) eq_refl).
Qed.

Lemma py_sum_total (v : list Z) : py_sum v = total v.
Proof.
  unfold py_sum, total. apply fold_symmetric; intros; lia.
Qed.

Lemma nodup_constant (x : Z) (t : list Z) :
  (forall y, In y t -> y = x) -> nodup Z.eq_dec (x :: t) = [x].
Proof.
  induction t as [| y t IH]; intros Hall; [reflexivity |].
  assert (y = x) by (apply Hall; now left). subst y.
  change (nodup Z.eq_dec (x :: x :: t))
    with (if in_dec Z.eq_dec x (x :: t) then nodup Z.eq_dec (x :: t)
          else x :: nodup Z.eq_dec (x :: t)).
  destruct (in_dec Z.eq_dec x (x :: t)) as [_ | Hn].
  - apply IH. intros y Hy. apply Hall. now right.
  - exfalso. apply Hn. now left.
Qed.

Lemma two_distinct_members (l : list Z) (a b : Z) :
  In a l -> In b l -> a <> b -> (2 <= List.length l)%nat.
Proof.
  destruct l as [| c [| d l]]; simpl; intros Ha Hb Hne; lia.
Qed.

Lemma set_size_all_equal (v : list Z) :
  (1 <? set_size v)%nat = negb (all_equal v).
Proof.
  destruct v as [| x t]; [reflexivity |].
  unfold set_size, all_equal.
  destruct (forallb (Z.eqb x) t) eqn:Hall.
  - rewrite nodup_constant; [reflexivity |].
    intros y Hy. rewrite forallb_forall in Hall.
    symmetry. apply Z.eqb_eq. now apply Hall.
  - simpl negb. apply Nat.ltb_lt.
    assert (Hex : exists y, In y t /\ y <> x).
    { clear -Hall. induction t as [| y t IH]; simpl in Hall; [discriminate |].
      destruct (Z.eqb_spec x y) as [-> | Hne]; simpl in Hall.
      - destruct (IH Hall) as [z [Hz Hzx]]. exists z. split; [now right | exact Hzx].
      - exists y. split; [now left | congruence]. }
    destruct Hex as [y [Hy Hyx]].
    apply (two_distinct_members _ x y).
    + apply nodup_In. now left.
    + apply nodup_In. now right.
    + congruence.
Qed.

Lemma combine_recorded (v : list Z) : combine_degrees v = recorded_degree v.
Proof.
  unfold combine_degrees, recorded_degree.
  rewrite set_size_all_equal, py_sum_total.
  now destruct (all_equal v).
Qed.

Lemma str_mem_in (s : string) (l : list string) : str_mem s l = true <-> In s l.
Proof.
  unfold str_mem. rewrite existsb_exists. split.
  - intros [x [Hin Heq]]. apply String.eqb_eq in Heq. now subst.
  - intros Hin. exists s. split; [exact Hin | apply String.eqb_refl].
Qed.

Lemma str_mem_not_in (s : string) (l : list string) : str_mem s l = false <-> ~ In s l.
Proof.
  rewrite <- str_mem_in. destruct (str_mem s l); split; congruence.
Qed.

Lemma dimensions_snoc (p : list UnitConfig) (x : UnitConfig) :
  dimensions (p ++ [x])
  = if str_mem (dim x) (dimensions p) then dimensions p else dimensions p ++ [dim x].
Proof. unfold dimensions. now rewrite fold_left_app. Qed.

Lemma dimensions_nodup (p : list UnitConfig) : NoDup (dimensions p).
Proof.
  induction p as [| x p IH] using rev_ind; [constructor |].
  rewrite dimensions_snoc. destruct (str_mem (dim x) (dimensions p)) eqn:E; [exact IH |].
  apply str_mem_not_in in E.
  apply NoDup_app; [exact IH | constructor; [intros [] | constructor] |].
  intros a Ha [<- | []]. contradiction.
Qed.

Lemma degrees_of_snoc (d : string) (p : list UnitConfig) (x : UnitConfig) :
  degrees_of d (p ++ [x])
  = degrees_of d p ++ (if String.eqb (dim x) d then [degree x] else []).
Proof.
  unfold degrees_of. rewrite filter_app, map_app. simpl.
  now destruct (String.eqb (dim x) d).
Qed.

Lemma degrees_of_absent (d : string) (p : list UnitConfig) :
  ~ In d (dimensions p) -> degrees_of d p = [].
Proof.
  induction p as [| x p IH] using rev_ind; [reflexivity |].
  rewrite dimensions_snoc, degrees_of_snoc. intros Hnin.
  assert (Hp : ~ In d (dimensions p)).
  { intros Hin. apply Hnin. destruct (str_mem (dim x) (dimensions p)); [exact Hin |].
    apply in_or_app. now left. }
  rewrite (IH Hp).
  destruct (String.eqb_spec (dim x) d) as [Heq | _]; [| reflexivity].
  exfalso. apply Hnin. subst d.
  destruct (str_mem (dim x) (dimensions p)) eqn:E.
  - now apply str_mem_in.
  - apply in_or_app. right. now left.
Qed.

(** The degree dictionary after the atoms [p] have been recorded. *)
Definition grouped (p : list UnitConfig) : dict (list Z) :=
  map (fun d => (d, degrees_of d p)) (dimensions p).

Lemma dict_get_tabulated {V : Type} (g : string -> V) (ks : list string) (k : string) :
  dict_get (map (fun d => (d, g d)) ks) k = if str_mem k ks then Some (g k) else None.
Proof.
  induction ks as [| d ks IH]; [reflexivity |].
  cbn [map dict_get]. unfold str_mem in *. cbn [existsb].
  rewrite (String.eqb_sym k d).
  destruct (String.eqb_spec d k) as [-> | _]; [reflexivity | exact IH].
Qed.

Lemma dict_set_tabulated_in {V : Type} (g : string -> V) (ks : list string)
      (k : string) (v : V) :
  NoDup ks -> In k ks ->
  dict_set (map (fun d => (d, g d)) ks) k v
  = map (fun d => (d, if String.eqb d k then v else g d)) ks.
Proof.
  induction ks as [| d ks IH]; intros Hnd Hin; [contradiction |].
  inversion Hnd as [| x l Hnin Hnd']; subst.
  cbn [map dict_set].
  destruct (String.eqb_spec d k) as [-> | Hne].
  - f_equal. apply map_ext_in. intros a Ha.
    destruct (String.eqb_spec a k) as [-> | _]; [contradiction | reflexivity].
  - f_equal. apply IH; [assumption |].
    destruct Hin as [Heq | Hin]; [contradiction | exact Hin].
Qed.

Lemma dict_set_tabulated_out {V : Type} (g : string -> V) (ks : list string)
      (k : string) (v : V) :
  ~ In k ks ->
  dict_set (map (fun d => (d, g d)) ks) k v = map (fun d => (d, g d)) ks ++ [(k, v)].
Proof.
  induction ks as [| d ks IH]; intros Hnin; [reflexivity |].
  cbn [map dict_set app].
  destruct (String.eqb_spec d k) as [-> | Hne].
  - exfalso. apply Hnin. now left.
  - f_equal. apply IH. intros Hin. apply Hnin. now right.
Qed.

Lemma grouped_snoc (p : list UnitConfig) (x : UnitConfig) :
  degrees_append (grouped p) (dim x) (degree x) = grouped (p ++ [x]).
Proof.
  unfold degrees_append, grouped.
  rewrite dict_get_tabulated, dimensions_snoc.
  destruct (str_mem (dim x) (dimensions p)) eqn:E.
  - rewrite dict_set_tabulated_in;
      [| apply dimensions_nodup | now apply str_mem_in].
    apply map_ext. intros d. rewrite degrees_of_snoc.
    rewrite (String.eqb_sym d (dim x)).
    destruct (String.eqb_spec (dim x) d) as [<- | _]; [reflexivity |].
    now rewrite app_nil_r.
  - apply str_mem_not_in in E.
    rewrite dict_set_tabulated_out by exact E.
    rewrite map_app. cbn [map]. f_equal.
    + apply map_ext_in. intros d Hd. rewrite degrees_of_snoc.
      destruct (String.eqb_spec (dim x) d) as [<- | _]; [contradiction |].
      now rewrite app_nil_r.
    + rewrite degrees_of_snoc, (degrees_of_absent _ _ E), String.eqb_refl.
      reflexivity.
Qed.

Lemma parse_parts_grouped (reg : UnitRegistry) (parts : list string)
      (p : list UnitConfig) (sc : float) :
  parse_parts reg parts (grouped p) sc
  = (descs <- lookup_atoms reg parts ;;
     Ok (grouped (p ++ descs), fold_left PrimFloat.mul (map scale descs) sc)).
Proof.
  revert p sc. induction parts as [| a parts IH]; intros p sc; cbn [parse_parts lookup_atoms].
  - cbn [bind map fold_left]. now rewrite app_nil_r.
  - destruct (dict_lookup reg (normalize a)) as [uc | e]; cbn [bind]; [| reflexivity].
    rewrite grouped_snoc, IH.
    destruct (lookup_atoms reg parts) as [ucs | e]; cbn [bind]; [| reflexivity].
    now rewrite <- app_assoc.
Qed.

Lemma reduce_tabulated (g : string -> list Z) (ks : list string) :
  reduce_degrees (map (fun d => (d, g d)) ks)
  = map (fun d => (d, recorded_degree (g d)))
        (filter (fun d => negb (total (g d) =? 0)) ks).
Proof.
  unfold reduce_degrees.
  induction ks as [| d ks IH]; [reflexivity |].
  cbn [map filter fst snd]. rewrite py_sum_total.
  destruct (negb (total (g d) =? 0)); cbn [map fst snd].
  - rewrite combine_recorded. now f_equal.
  - exact IH.
Qed.

Lemma product_from_one (l : list float) :
  fold_left PrimFloat.mul l 1%float = product_of_scales l.
Proof.
  destruct l as [| s l]; [reflexivity |].
  cbn [fold_left product_of_scales]. now rewrite float_mul_1_l.
Qed.

(** C6.  [parse_unit] does what its description says: it splits the key
    on the underscores that ["per"] does not precede, looks the atoms up
    (failing with [KeyError] at an unregistered atom), multiplies their
    scales, and builds the signature dimension by dimension, keeping the
    single recorded degree when all the degrees of the dimension are
    equal, summing them otherwise, and dropping the dimensions whose
    degrees sum to zero. *)
Theorem parse_unit_as_described (reg : UnitRegistry) (key : string) :
  parse_unit reg key = described_parse_unit reg key.
Proof.
  unfold parse_unit, described_parse_unit. rewrite <- regex_split_as_described.
  change (@nil (string * list Z)) with (grouped []).
  rewrite parse_parts_grouped.
  destruct (lookup_atoms reg (regex_split_unit key)) as [descs | e]; cbn [bind app];
    [| reflexivity].
  unfold described_signature, grouped.
  now rewrite reduce_tabulated, product_from_one.
Qed.

(** ** Candidate windows *)

Lemma inspected_incl {A : Type} (test : A -> bool) (l : list A) (x : A) :
  In x (inspected test l) -> In x l.
Proof.
  induction l as [| y l IH]; simpl; [exact (fun H => H) |].
  destruct (test y); simpl; intros [H | H]; auto. contradiction.
Qed.

(** [next] returns the first hit among the candidates it has looked at. *)
Lemma find_inspected {A : Type} (test : A -> bool) (l : list A) :
  find test l = find test (inspected test l).
Proof.
  induction l as [| y l IH]; simpl; [reflexivity |].
  destruct (test y) eqn:E; simpl; rewrite E; [reflexivity | exact IH].
Qed.

Lemma yield_until_in (too_far : Span -> bool) (l : list (nat * (Span * bool)))
      (j : nat) (ent : Span) :
  In (j, ent) (yield_until too_far l) ->
  exists f, In (j, (ent, f)) l /\ (f = true \/ too_far ent = false).
Proof.
  induction l as [| [k [e f]] l IH]; simpl; [intros [] |].
  destruct (negb f && too_far e) eqn:E; simpl; [intros [] |].
  intros [Heq | Hin].
  - injection Heq as -> ->. exists f. split; [now left |].
    destruct f; [now left | right; exact E].
  - destruct (IH Hin) as [f' [Hin' Hor]]. exists f'. split; [now right | exact Hor].
Qed.

Lemma indexed_in {A : Type} (from : nat) (l : list A) (j : nat) (x : A) :
  In (j, x) (indexed from l) -> (from <= j)%nat /\ nth_error l (j - from) = Some x.
Proof.
  unfold indexed. revert from. induction l as [| y l IH]; intros from; simpl; [intros [] |].
  intros [Heq | Hin].
  - injection Heq as -> ->. split; [lia |]. now rewrite Nat.sub_diag.
  - destruct (IH _ Hin) as [Hle Hnth]. split; [lia |].
    replace (j - from)%nat with (S (j - S from)) by lia. exact Hnth.
Qed.

Lemma get_matches_after_in (matches : list (Span * bool)) (i j : nat)
      (anchor ent : Span) (f0 : bool) :
  nth_error matches i = Some (anchor, f0) ->
  In (j, ent) (get_matches_after matches i) ->
  (i < j)%nat
  /\ exists f, nth_error matches j = Some (ent, f)
               /\ (f = true \/ start ent <= end_ anchor + AFTER_SNIPPET_LIMIT).
Proof.
  unfold get_matches_after. intros -> Hin.
  apply yield_until_in in Hin. destruct Hin as [f [Hin Hor]].
  apply indexed_in in Hin. destruct Hin as [Hle Hnth].
  split; [lia |]. exists f. split.
  - rewrite nth_error_skipn in Hnth.
    replace (S i + (j - S i))%nat with j in Hnth by lia. exact Hnth.
  - destruct Hor as [Ht | Hfar]; [now left | right].
    apply Z.ltb_ge in Hfar. exact Hfar.
Qed.

Lemma get_matches_before_in (matches : list (Span * bool)) (i j : nat)
      (anchor ent : Span) (f0 : bool) :
  nth_error matches i = Some (anchor, f0) ->
  In (j, ent) (get_matches_before matches i) ->
  (j <= i)%nat
  /\ exists f, nth_error matches j = Some (ent, f)
               /\ (f = true \/ start anchor - BEFORE_SNIPPET_LIMIT <= end_ ent).
Proof.
  unfold get_matches_before. intros Hanchor Hin. rewrite Hanchor in Hin.
  apply yield_until_in in Hin. destruct Hin as [f [Hin Hor]].
  apply in_rev in Hin. apply indexed_in in Hin. destruct Hin as [_ Hnth].
  rewrite Nat.sub_0_r in Hnth.
  assert (Hlt : (j < S i)%nat).
  { assert (Hsome : nth_error (firstn (S i) matches) j <> None) by congruence.
    apply nth_error_Some in Hsome. rewrite length_firstn in Hsome. lia. }
  split; [lia |]. exists f. split.
  - rewrite nth_error_firstn in Hnth.
    destruct (Nat.ltb_spec j (S i)); [exact Hnth | lia].
  - destruct Hor as [Ht | Hfar]; [now left | right].
    apply Z.ltb_ge in Hfar. exact Hfar.
Qed.

(** C2 (amended).  When the configured limits are the built-in ones (6
    tokens after, 10 tokens before), every candidate that the forward
    search for a unit looks at is a sentence-end marker or starts no more
    than [after_snippet_limit] tokens past the end of the number, and
    every candidate that a backward search (for a unit of the table row,
    or for a unitless trigger) looks at is a sentence-end marker or ends
    no less than [before_snippet_limit] tokens before the start of the
    number. *)
Theorem searches_stay_in_window (self : QuantitiesMatcher)
        (matches : list (Span * bool)) (unit_label_hashes : list string)
        (number_idx : nat) (number : Span) (is_sent_split : bool) :
  after_snippet_limit self = AFTER_SNIPPET_LIMIT ->
  before_snippet_limit self = BEFORE_SNIPPET_LIMIT ->
  nth_error matches number_idx = Some (number, is_sent_split) ->
  (forall j ent,
      In (j, ent) (inspected (is_unit unit_label_hashes)
                             (get_matches_after matches number_idx)) ->
      exists f, nth_error matches j = Some (ent, f)
                /\ (f = true \/ start ent <= end_ number + after_snippet_limit self))
  /\ (forall j ent,
         In (j, ent) (inspected (is_unit unit_label_hashes)
                                (get_matches_before matches number_idx))
         \/ In (j, ent) (inspected (is_unitless self)
                                   (get_matches_before matches number_idx)) ->
         exists f, nth_error matches j = Some (ent, f)
                   /\ (f = true \/ start number - before_snippet_limit self <= end_ ent)).
Proof.
  intros Hafter Hbefore Hnum. rewrite Hafter, Hbefore. split.
  - intros j ent Hin. apply inspected_incl in Hin.
    destruct (get_matches_after_in _ _ _ _ _ _ Hnum Hin) as [_ H]. exact H.
  - intros j ent [Hin | Hin]; apply inspected_incl in Hin;
      destruct (get_matches_before_in _ _ _ _ _ _ Hnum Hin) as [_ H]; exact H.
Qed.

Lemma firstn_succ_snoc {A : Type} (l : list A) (n : nat) (x : A) :
  nth_error l n = Some x -> firstn (S n) l = firstn n l ++ [x].
Proof.
  revert n. induction l as [| y l IH]; intros n H; [now destruct n |].
  destruct n as [| n]; cbn [nth_error] in H.
  - injection H as ->. reflexivity.
  - cbn [firstn app]. f_equal. exact (IH n H).
Qed.

Lemma indexed_snoc {A : Type} (from : nat) (l : list A) (x : A) :
  indexed from (l ++ [x]) = indexed from l ++ [((from + List.length l)%nat, x)].
Proof.
  unfold indexed. revert from. induction l as [| y l IH]; intros from.
  - cbn. now rewrite Nat.add_0_r.
  - cbn [app List.length seq combine]. f_equal. rewrite IH.
    now replace (S from + List.length l)%nat with (from + S (List.length l))%nat by lia.
Qed.

(** The candidates before match [i], nearest first: match [i] heads those
    before match [i - 1]. *)
Lemma backward_candidates_succ (matches : list (Span * bool)) (i : nat)
      (m : Span * bool) :
  nth_error matches (S i) = Some m ->
  rev (indexed 0 (firstn (S (S i)) matches))
  = (S i, m) :: rev (indexed 0 (firstn (S i) matches)).
Proof.
  intros H. rewrite (firstn_succ_snoc _ _ _ H), indexed_snoc, rev_app_distr.
  cbn [rev app]. rewrite length_firstn.
  assert (Hlen : (S i < List.length matches)%nat)
    by (apply nth_error_Some; congruence).
  now replace (0 + Nat.min (S i) (List.length matches))%nat with (S i) by lia.
Qed.

(** The first hit of a backward search is the nearest one: no candidate
    between it and the starting match passes the test. *)
Lemma backward_search_nearest (matches : list (Span * bool))
      (too_far : Span -> bool) (test : nat * Span -> bool) (i : nat) :
  (i < List.length matches)%nat ->
  forall j ent,
    find test (yield_until too_far (rev (indexed 0 (firstn (S i) matches))))
    = Some (j, ent) ->
    (j <= i)%nat
    /\ (forall k m f, (j < k <= i)%nat -> nth_error matches k = Some (m, f) ->
                      test (k, m) = false).
Proof.
  induction i as [| i IH]; intros Hlen j ent Hfind.
  - destruct matches as [| [m f] matches]; [cbn in Hlen; lia |].
    cbn in Hfind.
    destruct (negb f && too_far m); cbn [find] in Hfind; [discriminate |].
    destruct (test (0%nat, m)); [| discriminate].
    injection Hfind as <- <-. split; [lia |]. intros k m' f' Hk. lia.
  - destruct (nth_error matches (S i)) as [[m f] |] eqn:Hm;
      [| apply nth_error_None in Hm; lia].
    rewrite (backward_candidates_succ _ _ _ Hm) in Hfind.
    cbn [yield_until] in Hfind.
    destruct (negb f && too_far m); cbn [find] in Hfind; [discriminate |].
    destruct (test (S i, m)) eqn:Htest.
    + injection Hfind as <- <-. split; [lia |]. intros k m' f' Hk. lia.
    + destruct (IH ltac:(lia) j ent Hfind) as [Hle Hnear].
      split; [lia |]. intros k m' f' Hk Hk'.
      destruct (Nat.eq_dec k (S i)) as [-> | Hne].
      * rewrite Hm in Hk'. injection Hk' as <- _. exact Htest.
      * apply (Hnear k m' f'); [lia | exact Hk'].
Qed.

Lemma get_matches_before_nearest (matches : list (Span * bool))
      (test : nat * Span -> bool) (i j : nat) (ent : Span) :
  find test (get_matches_before matches i) = Some (j, ent) ->
  forall k m f, (j < k <= i)%nat -> nth_error matches k = Some (m, f) ->
                test (k, m) = false.
Proof.
  unfold get_matches_before. intros Hfind.
  destruct (nth_error matches i) as [[anchor f0] |] eqn:Hanchor; [| discriminate].
  assert (Hlen : (i < List.length matches)%nat)
    by (apply nth_error_Some; congruence).
  exact (proj2 (backward_search_nearest _ _ _ _ Hlen _ _ Hfind)).
Qed.

(** ** Unitless-trigger dispatch *)

(** The slice holds comma, colon and number codes only. *)
Definition only_separators (s : list ascii) : Prop :=
  Forall (fun c => c = ","%char \/ c = ":"%char \/ c = "n"%char) s.

(** The half-open interval [[min, max)] of a range contains the value, a
    missing bound leaving its side unbounded. *)
Definition contains (scope : UnitlessRange) (value : float) : Prop :=
  (forall lo, range_min scope = Some lo -> (lo <=? value)%float = true)
  /\ (forall hi, range_max scope = Some hi -> (value <? hi)%float = true).

Lemma match_separators_spec (s : list ascii) :
  match_separators s = true <-> only_separators s.
Proof.
  unfold match_separators, only_separators.
  rewrite forallb_forall, Forall_forall.
  split; intros H c Hc; specialize (H c Hc).
  - apply orb_prop in H. destruct H as [H | H];
      [apply orb_prop in H; destruct H as [H | H] |];
      apply Ascii.eqb_eq in H; auto.
  - destruct H as [-> | [-> | ->]]; reflexivity.
Qed.

Lemma in_scope_spec (value : float) (scope : UnitlessRange) :
  in_scope value scope = true <-> contains scope value.
Proof.
  unfold in_scope, contains.
  destruct (range_min scope) as [lo |], (range_max scope) as [hi |];
    rewrite andb_true_iff; split.
  all: try (intros [H1 H2]; split; intros x Hx; congruence).
  all: intros [H1 H2]; split; auto.
Qed.

Lemma find_first {A : Type} (test : A -> bool) (pre post : list A) (x : A) :
  Forall (fun y => test y = false) pre -> test x = true ->
  find test (pre ++ x :: post) = Some x.
Proof.
  induction pre as [| y pre IH]; intros Hpre Hx; simpl.
  - now rewrite Hx.
  - inversion Hpre as [| ? ? Hy Hpre']; subst. rewrite Hy. now apply IH.
Qed.

Lemma find_none_iff {A : Type} (test : A -> bool) (l : list A) :
  find test l = None <-> Forall (fun y => test y = false) l.
Proof.
  induction l as [| y l IH]; simpl.
  - split; [constructor | reflexivity].
  - destruct (test y) eqn:E; split.
    + discriminate.
    + intros H. inversion H; congruence.
    + intros H. constructor; [exact E | now apply IH].
    + intros H. inversion H. now apply IH.
Qed.

(** The slice between the trigger and the number. *)
Definition trigger_slice (pseudo : list ascii) (offsets : list nat)
           (unitless_idx number_idx : nat) : list ascii :=
  py_slice (nth unitless_idx offsets 0 + 1)%nat (nth number_idx offsets 0%nat) pseudo.

(** C7.  Take a number that the loop processes, whose value was parsed,
    and for which the adjacent-unit, table-row and follower strategies
    left no unit.  The linker takes the unitless trigger that the
    backward search reaches first: it lies at or before the number and,
    unless it is a sentence end, inside the backward window, and no match
    between it and the number is a trigger.  If the slice of
    the pseudo sentence between the trigger and the number holds only
    comma, colon and number codes, the unit is the one of the first range
    of the trigger whose interval [[min, max)] contains the value, a
    missing bound leaving its side open.  If there is no trigger, or the
    slice holds anything else, or no range contains the value, the round
    of the loop leaves the state as it was: the number yields no
    quantity. *)
Theorem unitless_dispatch (self : QuantitiesMatcher) (doc : Doc)
        (unit_label_hashes : list string) (table_matches : list Table)
        (pseudo : list ascii) (offsets : list nat)
        (st : LoopState) (number_idx : nat) (number : Span) (is_sent_split : bool)
        (value : float) :
  let matches := st_matches st in
  let lk := earlier_strategies self matches unit_label_hashes table_matches pseudo
              offsets (st_matched_unit_indices st) number_idx number in
  let trigger := find (is_unitless self) (get_matches_before matches number_idx) in
  nth_error matches number_idx = Some (number, is_sent_split) ->
  negb is_sent_split && negb (str_mem (label number) (number_label_hashes self)) = false ->
  detect_value doc number = Ok (Some value) ->
  unit_norm lk = None ->
  (forall unitless_idx unitless_text,
      trigger = Some (unitless_idx, unitless_text) ->
      (unitless_idx <= number_idx)%nat
      /\ str_mem (label unitless_text) (unitless_label_hashes self) = true
      /\ (exists f, nth_error matches unitless_idx = Some (unitless_text, f)
                    /\ (f = true
                        \/ start number - BEFORE_SNIPPET_LIMIT <= end_ unitless_text))
      /\ (forall k m f, (unitless_idx < k <= number_idx)%nat ->
                        nth_error matches k = Some (m, f) ->
                        str_mem (label m) (unitless_label_hashes self) = false))
  /\ (forall unitless_idx unitless_text pattern ranges pre scope post,
         trigger = Some (unitless_idx, unitless_text) ->
         only_separators (trigger_slice pseudo offsets unitless_idx number_idx) ->
         dict_get (unitless_patterns self) (label unitless_text) = Some pattern ->
         up_ranges pattern = Some ranges ->
         ranges = pre ++ scope :: post ->
         Forall (fun r => ~ contains r value) pre ->
         contains scope value ->
         link_number self matches unit_label_hashes table_matches pseudo offsets
                     (st_matched_unit_indices st) number_idx number value
         = Ok (with_norm lk (Some (range_unit scope))))
  /\ (trigger = None
      \/ (exists unitless_idx unitless_text,
             trigger = Some (unitless_idx, unitless_text)
             /\ ~ only_separators (trigger_slice pseudo offsets unitless_idx number_idx))
      \/ (exists unitless_idx unitless_text pattern ranges,
             trigger = Some (unitless_idx, unitless_text)
             /\ dict_get (unitless_patterns self) (label unitless_text) = Some pattern
             /\ up_ranges pattern = Some ranges
             /\ Forall (fun r => ~ contains r value) ranges) ->
      extract_step self doc unit_label_hashes table_matches pseudo offsets st number_idx
      = Ok st).
Proof.
  intros matches lk trigger Hnum Hguard Hval Hnone.
  split; [| split].
  - intros unitless_idx unitless_text Htrig.
    unfold trigger in Htrig.
    pose proof (get_matches_before_nearest _ _ _ _ _ Htrig) as Hnear.
    apply find_some in Htrig. destruct Htrig as [Hin Htest].
    destruct (get_matches_before_in _ _ _ _ _ _ Hnum Hin) as [Hle Hex].
    split; [exact Hle | split; [exact Htest | split; [exact Hex |]]].
    intros k m f Hk Hm. exact (Hnear k m f Hk Hm).
  - intros unitless_idx unitless_text pattern ranges pre scope post
           Htrig Hslice Hpat Hranges Hsplit Hpre Hscope.
    unfold link_number. fold matches. fold lk.
    unfold link_unitless. rewrite Hnone. fold trigger. rewrite Htrig.
    fold (trigger_slice pseudo offsets unitless_idx number_idx).
    apply match_separators_spec in Hslice. rewrite Hslice.
    unfold dict_lookup. rewrite Hpat. cbn [bind]. rewrite Hranges. cbn [bind].
    rewrite Hsplit, find_first; [reflexivity | | now apply in_scope_spec].
    eapply Forall_impl; [| exact Hpre]. intros r Hr. cbv beta in Hr.
    destruct (in_scope value r) eqn:E; [| reflexivity].
    apply in_scope_spec in E. contradiction.
  - intros Hcase.
    assert (Hlink : link_number self matches unit_label_hashes table_matches pseudo
                      offsets (st_matched_unit_indices st) number_idx number value
                    = Ok lk).
    { unfold link_number. fold matches. fold lk.
      unfold link_unitless. rewrite Hnone. fold trigger.
      destruct Hcase as [Hno | [[ui [ut [Htrig Hslice]]] | [ui [ut [pat [rs [Htrig [Hpat [Hrs Hall]]]]]]]]].
      - now rewrite Hno.
      - rewrite Htrig. fold (trigger_slice pseudo offsets ui number_idx).
        destruct (match_separators (trigger_slice pseudo offsets ui number_idx)) eqn:E;
          [| reflexivity].
        apply match_separators_spec in E. contradiction.
      - rewrite Htrig. fold (trigger_slice pseudo offsets ui number_idx).
        destruct (match_separators (trigger_slice pseudo offsets ui number_idx));
          [| reflexivity].
        unfold dict_lookup. rewrite Hpat. cbn [bind]. rewrite Hrs. cbn [bind].
        assert (Hfind : find (in_scope value) rs = None).
        { apply find_none_iff. eapply Forall_impl; [| exact Hall].
          intros r Hr. cbv beta in Hr.
          destruct (in_scope value r) eqn:E; [| reflexivity].
          apply in_scope_spec in E. contradiction. }
        now rewrite Hfind. }
    unfold extract_step. fold matches. rewrite Hnum, Hguard, Hval. cbn [bind].
    rewrite Hlink. cbn [bind]. now rewrite Hnone.
Qed.

(** ** Unknown units *)

Lemma parse_parts_missing (reg : UnitRegistry) (parts : list string) (atom : string)
      (degrees : dict (list Z)) (sc : float) :
  In atom parts -> dict_get reg (normalize atom) = None ->
  parse_parts reg parts degrees sc = Raise KeyError.
Proof.
  revert degrees sc. induction parts as [| a parts IH]; intros degrees sc Hin Hmiss;
    [contradiction |].
  cbn [parse_parts]. unfold dict_lookup.
  destruct (dict_get reg (normalize a)) as [uc |] eqn:E; cbn [bind]; [| reflexivity].
  destruct Hin as [-> | Hin]; [congruence | now apply IH].
Qed.

Lemma parse_unit_missing (reg : UnitRegistry) (unit atom : string) :
  In atom (regex_split_unit unit) -> dict_get reg (normalize atom) = None ->
  parse_unit reg unit = Raise KeyError.
Proof.
  intros Hin Hmiss. unfold parse_unit.
  now rewrite (parse_parts_missing _ _ atom _ _ Hin Hmiss).
Qed.

Lemma relabel_at_other (matches : list (Span * bool)) (i k : nat) (l : string) :
  k <> i -> nth_error (relabel_at matches i l) k = nth_error matches k.
Proof.
  revert i k. induction matches as [| [s b] matches IH]; intros i k Hne.
  - now destruct i.
  - destruct i as [| i], k as [| k]; simpl; try reflexivity; try congruence.
    apply IH. congruence.
Qed.

(** A round of the loop touches the match of its own index only, and
    marks no other number as matched. *)
Lemma extract_step_frame (self : QuantitiesMatcher) (doc : Doc)
      (unit_label_hashes : list string) (table_matches : list Table)
      (pseudo : list ascii) (offsets : list nat) (st st' : LoopState) (i : nat) :
  extract_step self doc unit_label_hashes table_matches pseudo offsets st i = Ok st' ->
  (forall k, k <> i -> nth_error (st_matches st') k = nth_error (st_matches st) k)
  /\ (forall k, In k (st_matched_number_indices st') ->
                k = i \/ In k (st_matched_number_indices st)).
Proof.
  unfold extract_step. intros H.
  assert (Hsame : st' = st ->
                  (forall k, k <> i -> nth_error (st_matches st') k = nth_error (st_matches st) k)
                  /\ (forall k, In k (st_matched_number_indices st') ->
                                k = i \/ In k (st_matched_number_indices st)))
    by (intros ->; split; [reflexivity | now right]).
  destruct (nth_error (st_matches st) i) as [[number is_sent_split] |];
    [| injection H as <-; now apply Hsame].
  destruct (negb is_sent_split && negb (str_mem (label number) (number_label_hashes self)));
    [injection H as <-; now apply Hsame |].
  destruct (detect_value doc number) as [[value |] | e]; cbn [bind] in H;
    [| injection H as <-; now apply Hsame | discriminate].
  destruct (link_number self (st_matches st) unit_label_hashes table_matches pseudo
              offsets (st_matched_unit_indices st) i number value) as [lk | e];
    cbn [bind] in H; [| discriminate].
  destruct (unit_norm lk) as [u |]; [| injection H as <-; now apply Hsame].
  destruct (String.eqb u ""); [injection H as <-; now apply Hsame |].
  destruct (final_entity doc number lk) as [ent is_number].
  destruct (parse_unit (unit_registry self) u) as [[dims sc] | []];
    try discriminate; [| injection H as <-; now apply Hsame].
  destruct (if all_quantities self then Some u else measure_lookup (measure_names self) dims)
    as [name |]; [| injection H as <-; now apply Hsame].
  injection H as <-. cbn [st_matches st_matched_number_indices]. split.
  - intros k Hk. destruct is_number; [now apply relabel_at_other | reflexivity].
  - intros k [<- | Hin]; [now left | now right].
Qed.

Lemma run_steps_frame (self : QuantitiesMatcher) (doc : Doc)
      (unit_label_hashes : list string) (table_matches : list Table)
      (pseudo : list ascii) (offsets : list nat) (indices : list nat)
      (st st' : LoopState) :
  run_steps self doc unit_label_hashes table_matches pseudo offsets indices st = Ok st' ->
  (forall k, ~ In k indices -> nth_error (st_matches st') k = nth_error (st_matches st) k)
  /\ (forall k, In k (st_matched_number_indices st') ->
                In k indices \/ In k (st_matched_number_indices st)).
Proof.
  revert st. induction indices as [| i indices IH]; intros st H; cbn [run_steps] in H.
  - injection H as <-. split; [reflexivity | now right].
  - destruct (extract_step self doc unit_label_hashes table_matches pseudo offsets st i)
      as [st1 | e] eqn:Hstep; cbn [bind] in H; [| discriminate].
    destruct (extract_step_frame _ _ _ _ _ _ _ _ _ Hstep) as [Hm1 Hn1].
    destruct (IH _ H) as [Hm Hn]. split.
    + intros k Hk. rewrite Hm, Hm1; [reflexivity | |]; intros Hin; apply Hk;
        [now left | now right].
    + intros k Hk. destruct (Hn k Hk) as [Hin | Hin]; [left; now right |].
      destruct (Hn1 k Hin) as [-> | Hin']; [left; now left | now right].
Qed.

Lemma run_steps_app (self : QuantitiesMatcher) (doc : Doc)
      (unit_label_hashes : list string) (table_matches : list Table)
      (pseudo : list ascii) (offsets : list nat) (a b : list nat) (st : LoopState) :
  run_steps self doc unit_label_hashes table_matches pseudo offsets (a ++ b) st
  = (st' <- run_steps self doc unit_label_hashes table_matches pseudo offsets a st ;;
     run_steps self doc unit_label_hashes table_matches pseudo offsets b st').
Proof.
  revert st. induction a as [| i a IH]; intros st; cbn [app run_steps bind]; [reflexivity |].
  destruct (extract_step self doc unit_label_hashes table_matches pseudo offsets st i);
    cbn [bind]; [apply IH | reflexivity].
Qed.

Lemma indexed_nth {A : Type} (from : nat) (l : list A) (k : nat) (x : A) :
  nth_error l k = Some x -> In ((from + k)%nat, x) (indexed from l).
Proof.
  unfold indexed. revert from k. induction l as [| y l IH]; intros from k H.
  - now destruct k.
  - destruct k as [| k]; simpl in *.
    + injection H as ->. left. f_equal. lia.
    + right. replace (from + S k)%nat with (S from + k)%nat by lia. now apply IH.
Qed.

(** C9.  Let the loop reach, without fault, the round of a number whose
    linked unit string has an atom that the registry does not hold.  The
    unit lookup raises [KeyError]; the round catches it and ends with the
    state unchanged, so the number adds no quantity span and no fault
    escapes; and whenever the extraction returns, the number is in its
    list of unmatched spans. *)
Theorem unknown_unit_is_dropped (self : QuantitiesMatcher) (doc : Doc)
        (tables : list Table) (matches : list (Span * bool))
        (unit_label_hashes : list string)
        (number_idx : nat) (st : LoopState) (number : Span) (is_sent_split : bool)
        (value : float) (lk : Link) (u atom : string) :
  let table_matches := if use_tables self then tables else [] in
  let pseudo_offsets :=
    make_pseudo_sentence doc matches
      (pseudo_mapping unit_label_hashes (number_label_hashes self)) in
  let pseudo := fst pseudo_offsets in
  let offsets := snd pseudo_offsets in
  (number_idx < List.length matches)%nat ->
  run_steps self doc unit_label_hashes table_matches pseudo offsets
            (seq 0 number_idx) (initial_state matches) = Ok st ->
  nth_error (st_matches st) number_idx = Some (number, is_sent_split) ->
  str_mem (label number) (number_label_hashes self) = true ->
  detect_value doc number = Ok (Some value) ->
  link_number self (st_matches st) unit_label_hashes table_matches pseudo offsets
              (st_matched_unit_indices st) number_idx number value = Ok lk ->
  unit_norm lk = Some u ->
  u <> "" ->
  In atom (regex_split_unit u) ->
  dict_get (unit_registry self) (normalize atom) = None ->
  parse_unit (unit_registry self) u = Raise KeyError
  /\ extract_step self doc unit_label_hashes table_matches pseudo offsets st number_idx
     = Ok st
  /\ (forall quantities unmatched,
         extract_quantities self doc tables matches unit_label_hashes
         = Ok (quantities, unmatched) ->
         In number unmatched).
Proof.
  intros table_matches pseudo_offsets pseudo offsets
         Hlt Hrun Hnum Hlabel Hval Hlink Hunit Hne Hatom Hmiss.
  assert (Hparse : parse_unit (unit_registry self) u = Raise KeyError)
    by exact (parse_unit_missing _ _ _ Hatom Hmiss).
  assert (Hstep : extract_step self doc unit_label_hashes table_matches pseudo offsets
                    st number_idx = Ok st).
  { unfold extract_step. rewrite Hnum, Hlabel.
    rewrite andb_false_r. rewrite Hval. cbn [bind]. rewrite Hlink. cbn [bind].
    rewrite Hunit. apply String.eqb_neq in Hne. rewrite Hne.
    destruct (final_entity doc number lk). now rewrite Hparse. }
  split; [exact Hparse | split; [exact Hstep |]].
  intros quantities unmatched Hex.
  unfold extract_quantities in Hex.
  fold table_matches pseudo_offsets in Hex. fold pseudo offsets in Hex.
  replace (List.length matches) with (number_idx + S (List.length matches - S number_idx))%nat
    in Hex by lia.
  rewrite seq_app in Hex. cbn [seq Nat.add] in Hex.
  rewrite run_steps_app, Hrun in Hex. cbn [bind run_steps] in Hex.
  rewrite Hstep in Hex. cbn [bind] in Hex.
  destruct (run_steps self doc unit_label_hashes table_matches pseudo offsets
              (seq (S number_idx) (List.length matches - S number_idx)) st)
    as [st' | e] eqn:Hrest; cbn [bind] in Hex; [| discriminate].
  injection Hex as _ <-.
  destruct (run_steps_frame _ _ _ _ _ _ _ _ _ Hrun) as [_ Hbefore].
  destruct (run_steps_frame _ _ _ _ _ _ _ _ _ Hrest) as [Hmatch Hafter].
  assert (Hout : ~ In number_idx (seq (S number_idx) (List.length matches - S number_idx)))
    by (rewrite in_seq; lia).
  assert (Hnum' : nth_error (st_matches st') number_idx = Some (number, is_sent_split))
    by (rewrite (Hmatch _ Hout); exact Hnum).
  assert (Hfree : ~ In number_idx (st_matched_number_indices st')).
  { intros Hin. destruct (Hafter _ Hin) as [H | H]; [contradiction |].
    destruct (Hbefore _ H) as [H' | []]. rewrite in_seq in H'. lia. }
  unfold unmatched_of.
  apply (in_map (fun im : nat * (Span * bool) => fst (snd im)) _
                (number_idx, (number, is_sent_split))).
  apply filter_In. split.
  - exact (indexed_nth 0 _ _ _ Hnum').
  - cbn [fst snd]. rewrite Hlabel.
    assert (Hex : existsb (Nat.eqb number_idx) (st_matched_number_indices st') = false).
    { destruct (existsb (Nat.eqb number_idx) (st_matched_number_indices st')) eqn:E;
        [| reflexivity].
      apply existsb_exists in E. destruct E as [k [Hk Heq]].
      apply Nat.eqb_eq in Heq. subst k. contradiction. }
    rewrite Hex. apply orb_true_r.
Qed.

(** ** The store of values *)

Lemma span_eqb_eq (a b : Span) : span_eqb a b = true <-> a = b.
Proof.
  unfold span_eqb. rewrite !andb_true_iff, !Z.eqb_eq, String.eqb_eq.
  destruct a as [sa ea la], b as [sb eb lb]. cbn [start end_ label]. split.
  - intros [[-> ->] ->]. reflexivity.
  - intros [= -> -> ->]. auto.
Qed.

Lemma span_eqb_refl (a : Span) : span_eqb a a = true.
Proof. now apply span_eqb_eq. Qed.

Lemma span_eqb_neq (a b : Span) : a <> b -> span_eqb a b = false.
Proof.
  intros Hne. destruct (span_eqb a b) eqn:E; [| reflexivity].
  apply span_eqb_eq in E. contradiction.
Qed.

Lemma Span_value_set_same (store : Store) (s : Span) (v : Quantity) :
  Span_value (Span_set store s v) s = Some v.
Proof.
  induction store as [| [k w] store IH]; cbn [Span_set Span_value].
  - now rewrite span_eqb_refl.
  - destruct (span_eqb k s) eqn:E; cbn [Span_value]; rewrite E; [reflexivity | exact IH].
Qed.

Lemma Span_value_set_other (store : Store) (s s' : Span) (v : Quantity) :
  s <> s' -> Span_value (Span_set store s v) s' = Span_value store s'.
Proof.
  intros Hne. induction store as [| [k w] store IH]; cbn [Span_set Span_value].
  - now rewrite (span_eqb_neq _ _ Hne).
  - destruct (span_eqb k s) eqn:E; cbn [Span_value].
    + apply span_eqb_eq in E. subst k. now rewrite (span_eqb_neq _ _ Hne).
    + destruct (span_eqb k s'); [reflexivity | exact IH].
Qed.

(** ** Merge passes as streaming reductions *)

(** A span listed with the value read for it. *)
Definition with_value (s : Span) (v : Quantity) : QSpan :=
  {| qs_span := s; qs_value := v |}.

Lemma with_value_eta (m : QSpan) : with_value (qs_span m) (qs_value m) = m.
Proof. now destruct m. Qed.

(** A round of either pass looks at [merged[-1]] and at the next span and
    decides: merge the two into one span ([Some]), keep them apart
    ([None]), or let an exception escape.  What the rounds decide once
    the values of the two spans are read: *)
Definition adjacent_decide (last ent : QSpan) : result (option QSpan) :=
  if (end_ (qs_span last) =? start (qs_span ent))
     && negb (String.eqb (q_unit (qs_value last)) (q_unit (qs_value ent)))
  then
    match Quantity_add (qs_value last) (qs_value ent) with
    | Ok new_value =>
        Ok (Some (with_value
                    (merged_span (start (qs_span last)) (end_ (qs_span ent)) (qs_span ent))
                    new_value))
    | Raise AttributeError => Ok None
    | Raise TypeError => Ok None
    | Raise e => Raise e
    end
  else Ok None.

Definition range_from_text (doc : Doc) (last : Span) : option string :=
  if 0 <? start last then Some (tok_norm doc (start last - 1)) else None.

Definition range_to_text (doc : Doc) (last ent : Span) : string :=
  norm_text doc (end_ last) (start ent).

Definition range_decide (self : QuantitiesMatcher) (doc : Doc) (last ent : QSpan)
  : result (option QSpan) :=
  match matching_patterns self (range_from_text doc (qs_span last))
                          (range_to_text doc (qs_span last) (qs_span ent)) with
  | [] => Ok None
  | (a, _) :: _ =>
      match RangeQuantity_from_quantities (qs_value last) (qs_value ent) with
      | Ok new_value =>
          Ok (Some (with_value
                      (merged_span (match a with
                                    | None => start (qs_span last)
                                    | Some _ => start (qs_span last) - 1
                                    end)
                                   (end_ (qs_span ent)) (qs_span ent))
                      (QRange new_value)))
      | Raise AttributeError => Ok None
      | Raise TypeError => Ok None
      | Raise e => Raise e
      end
  end.

(** What the rounds decide from the store. *)
Definition adjacent_decide_in (store : Store) (last ent : Span)
  : result (option QSpan) :=
  if end_ last =? start ent then
    match Span_value store last, Span_value store ent with
    | Some a, Some b => adjacent_decide (with_value last a) (with_value ent b)
    | _, _ => Raise AttributeError
    end
  else Ok None.

Definition range_decide_in (self : QuantitiesMatcher) (doc : Doc)
           (store : Store) (last ent : Span) : result (option QSpan) :=
  match Span_value store last, Span_value store ent with
  | Some a, Some b => range_decide self doc (with_value last a) (with_value ent b)
  | _, _ => Ok None
  end.

Definition step_of (decide : Store -> Span -> Span -> result (option QSpan))
           (st : PassState) (ent : Span) : result PassState :=
  match decide (fst st) (snd (snd st)) ent with
  | Ok (Some m) => Ok (replace_last st (qs_span m) (qs_value m))
  | Ok None => Ok (keep_apart st ent)
  | Raise e => Raise e
  end.

Lemma adjacent_step_decide (st : PassState) (ent : Span) :
  adjacent_step st ent = step_of adjacent_decide_in st ent.
Proof.
  unfold adjacent_step, step_of, adjacent_decide_in, adjacent_decide.
  cbn [with_value qs_span qs_value].
  destruct (end_ (snd (snd st)) =? start ent); [| reflexivity].
  destruct (Span_value (fst st) (snd (snd st))) as [a |]; [| reflexivity].
  destruct (Span_value (fst st) ent) as [b |]; [| reflexivity].
  cbn [andb].
  destruct (negb (String.eqb (q_unit a) (q_unit b))); [| reflexivity].
  destruct (Quantity_add a b) as [v | []]; reflexivity.
Qed.

Lemma range_step_decide (self : QuantitiesMatcher) (doc : Doc)
      (st : PassState) (ent : Span) :
  range_step self doc st ent = step_of (range_decide_in self doc) st ent.
Proof.
  unfold range_step, step_of, range_decide_in, range_decide, range_value,
    range_from_text, range_to_text.
  cbn [with_value qs_span qs_value].
  destruct (Span_value (fst st) (snd (snd st))) as [a |].
  - destruct (Span_value (fst st) ent) as [b |].
    + destruct (matching_patterns self _ _) as [| [x y] rest]; [reflexivity |].
      destruct (RangeQuantity_from_quantities a b) as [v | []]; reflexivity.
    + destruct (matching_patterns self _ _) as [| [x y] rest]; reflexivity.
  - destruct (matching_patterns self _ _) as [| [x y] rest]; reflexivity.
Qed.

Definition run_from (step : PassState -> Span -> result PassState)
           (rest : list Span) (st : result PassState) : result PassState :=
  fold_left (fun acc ent => st <- acc ;; step st ent) rest st.

Lemma run_from_raise (step : PassState -> Span -> result PassState)
      (rest : list Span) (e : exn) :
  run_from step rest (Raise e) = Raise e.
Proof. induction rest as [| x rest IH]; [reflexivity | exact IH]. Qed.

Lemma run_from_ext (step1 step2 : PassState -> Span -> result PassState)
      (rest : list Span) (st : result PassState) :
  (forall s e, step1 s e = step2 s e) ->
  run_from step1 rest st = run_from step2 rest st.
Proof.
  intros Hext. revert st. induction rest as [| x rest IH]; intros st; [reflexivity |].
  unfold run_from in *. cbn [fold_left]. rewrite IH.
  destruct st as [s | e]; cbn [bind]; [now rewrite Hext | reflexivity].
Qed.

Lemma run_pass_ext (step1 step2 : PassState -> Span -> result PassState)
      (store : Store) (quantities : list Span) :
  (forall s e, step1 s e = step2 s e) ->
  run_pass step1 store quantities = run_pass step2 store quantities.
Proof.
  intros Hext. destruct quantities as [| q rest]; [reflexivity |].
  unfold run_pass. fold (run_from step1 rest (Ok (store, ([], q)))).
  fold (run_from step2 rest (Ok (store, ([], q)))). now rewrite (run_from_ext _ _ _ _ Hext).
Qed.

Lemma run_from_snoc (step : PassState -> Span -> result PassState)
      (rest : list Span) (ent : Span) (st0 st : PassState) :
  run_from step rest (Ok st0) = Ok st ->
  run_from step (rest ++ [ent]) (Ok st0) = step st ent.
Proof.
  intros H. unfold run_from in *. rewrite fold_left_app, H. reflexivity.
Qed.

(** A pass that returns has gone through the states of its rounds: what
    the rounds keep holds at the end, and what escapes escapes from a
    round. *)
Section Rounds.

Variable step : PassState -> Span -> result PassState.
Variable Inv : PassState -> list Span -> Prop.
Variable E : exn -> Prop.

Hypothesis round :
  forall st ent rest,
    Inv st (ent :: rest) ->
    match step st ent with
    | Ok st' => Inv st' rest
    | Raise e => E e
    end.

Lemma run_from_cases (rest : list Span) (st : PassState) :
  Inv st rest ->
  match run_from step rest (Ok st) with
  | Ok st' => Inv st' []
  | Raise e => E e
  end.
Proof.
  revert st. induction rest as [| ent rest IH]; intros st Hinv; [exact Hinv |].
  change (run_from step (ent :: rest) (Ok st)) with (run_from step rest (step st ent)).
  pose proof (round st ent rest Hinv) as Hround.
  destruct (step st ent) as [st' | e]; [now apply IH | now rewrite run_from_raise].
Qed.

Lemma run_pass_cases (store : Store) (first : Span) (rest : list Span) :
  Inv (store, ([], first)) rest ->
  match run_pass step store (first :: rest) with
  | Ok (store', out) =>
      exists front last, out = front ++ [last] /\ Inv (store', (front, last)) []
  | Raise e => E e
  end.
Proof.
  intros Hinv. pose proof (run_from_cases rest _ Hinv) as H.
  unfold run_pass. unfold run_from in H.
  destruct (fold_left _ rest _) as [[store' [front last]] | e]; cbn [bind]; [| exact H].
  now exists front, last.
Qed.

End Rounds.

(** ** Conversions and their failures *)

(** The part shared by the two [convert_to] methods: the scale ratio, or
    the exception raised on the way to it. *)
Definition conversion_ratio (reg : UnitRegistry) (unit other_unit : string)
  : result float :=
  '(self_degrees, self_scale) <- parse_unit reg unit ;;
  '(other_degrees, other_scale) <- parse_unit reg other_unit ;;
  if negb (sig_eqb self_degrees other_degrees) then Raise AttributeError
  else py_div self_scale other_scale.

Lemma simple_convert_ratio (self : SimpleQuantity) (other_unit : string) :
  SimpleQuantity_convert_to self other_unit
  = (ratio <- conversion_ratio (sq_registry self) (sq_unit self) other_unit ;;
     if negb (ratio =? 1)%float then Ok (sq_value self * ratio)%float
     else Ok (sq_value self)).
Proof.
  unfold SimpleQuantity_convert_to, conversion_ratio.
  destruct (parse_unit (sq_registry self) (sq_unit self)) as [[sd ss] | e]; cbn [bind];
    [| reflexivity].
  destruct (parse_unit (sq_registry self) other_unit) as [[od os] | e]; cbn [bind];
    [| reflexivity].
  destruct (negb (sig_eqb sd od)); reflexivity.
Qed.

Lemma range_convert_ratio (self : RangeQuantity) (other_unit : string) :
  RangeQuantity_convert_to self other_unit
  = (ratio <- conversion_ratio (rq_registry self) (rq_unit self) other_unit ;;
     if (ratio =? 1)%float then Ok (rq_value self)
     else
       from_value <- payload_scale (fst (rq_value self)) ratio ;;
       to_value <- payload_scale (snd (rq_value self)) ratio ;;
       Ok (from_value, to_value)).
Proof.
  unfold RangeQuantity_convert_to, conversion_ratio.
  destruct (parse_unit (rq_registry self) (rq_unit self)) as [[sd ss] | e]; cbn [bind];
    [| reflexivity].
  destruct (parse_unit (rq_registry self) other_unit) as [[od os] | e]; cbn [bind];
    [| reflexivity].
  destruct (negb (sig_eqb sd od)); reflexivity.
Qed.

(** The exceptions that the merge passes catch. *)
Definition caught (e : exn) : Prop := e = AttributeError \/ e = TypeError.

Lemma caught_cases {A : Type} (r : result A)
      (on_ok : A -> result (option QSpan)) :
  (match r with
   | Ok v => on_ok v
   | Raise AttributeError => Ok None
   | Raise TypeError => Ok None
   | Raise e => Raise e
   end) = Ok None ->
  (forall v, on_ok v <> Ok None) ->
  exists e, r = Raise e /\ caught e.
Proof.
  intros H Hok. destruct r as [v | e].
  - now apply Hok in H.
  - exists e. split; [reflexivity |]. unfold caught. destruct e; auto; discriminate.
Qed.

Lemma caught_gives_none {A : Type} (r : result A) (e : exn)
      (on_ok : A -> result (option QSpan)) :
  r = Raise e -> caught e ->
  (match r with
   | Ok v => on_ok v
   | Raise AttributeError => Ok None
   | Raise TypeError => Ok None
   | Raise e => Raise e
   end) = Ok None.
Proof. intros -> [-> | ->]; reflexivity. Qed.

(** A simple conversion fails the same way whatever the payload. *)
Lemma simple_convert_failure (a b : SimpleQuantity) (u : string) (e : exn) :
  sq_unit a = sq_unit b -> sq_registry a = sq_registry b ->
  SimpleQuantity_convert_to a u = Raise e ->
  SimpleQuantity_convert_to b u = Raise e.
Proof.
  intros Hu Hr. rewrite !simple_convert_ratio, Hu, Hr.
  destruct (conversion_ratio (sq_registry b) (sq_unit b) u) as [ratio | e'];
    cbn [bind]; [| exact (fun H => H)].
  destruct (negb (ratio =? 1)%float); discriminate.
Qed.

(** A range built on top of a quantity that failed to convert with a
    caught exception fails to convert with a caught exception too. *)
Lemma range_over_failure (q : Quantity) (b_value : payload) (u : string) (e : exn) :
  Quantity_convert_to q u = Raise e -> caught e ->
  exists e',
    RangeQuantity_convert_to
      {| rq_value := (q_payload q, b_value); rq_unit := q_unit q;
         rq_registry := q_registry q |} u = Raise e'
    /\ caught e'.
Proof.
  intros Hq Hc. rewrite range_convert_ratio. cbn [rq_value rq_unit rq_registry fst snd].
  destruct q as [s | r]; cbn [Quantity_convert_to q_payload q_unit q_registry] in *.
  - rewrite simple_convert_ratio in Hq.
    destruct (conversion_ratio (sq_registry s) (sq_unit s) u) as [ratio | e0];
      cbn [bind] in *.
    + destruct (negb (ratio =? 1)%float); discriminate.
    + injection Hq as ->. now exists e.
  - rewrite range_convert_ratio in Hq.
    destruct (conversion_ratio (rq_registry r) (rq_unit r) u) as [ratio | e0];
      cbn [bind] in *.
    + destruct (ratio =? 1)%float; [discriminate |].
      exists TypeError. split; [reflexivity | now right].
    + injection Hq as ->. now exists e.
Qed.

Lemma add_keeps_unit (s r : SimpleQuantity) (other : Quantity) :
  SimpleQuantity_add s other = Ok r ->
  sq_unit r = sq_unit s /\ sq_registry r = sq_registry s.
Proof.
  unfold SimpleQuantity_add.
  destruct (String.eqb (q_unit other) (sq_unit s)), other as [o | o]; try discriminate.
  - intros H. injection H as <-. split; reflexivity.
  - destruct (SimpleQuantity_convert_to o (sq_unit s)); cbn [bind]; [| discriminate].
    intros H. injection H as <-. split; reflexivity.
  - destruct (RangeQuantity_convert_to o (sq_unit s)); discriminate.
Qed.

Lemma adjacent_keeps_refusals (p last ent m : QSpan) :
  adjacent_decide p last = Ok None ->
  adjacent_decide last ent = Ok (Some m) ->
  adjacent_decide p m = Ok None.
Proof.
  intros Hp Hm. unfold adjacent_decide in Hm.
  destruct ((end_ (qs_span last) =? start (qs_span ent))
            && negb (String.eqb (q_unit (qs_value last)) (q_unit (qs_value ent))));
    [| discriminate].
  destruct (Quantity_add (qs_value last) (qs_value ent)) as [nv | []] eqn:Hadd;
    try discriminate.
  injection Hm as <-.
  unfold Quantity_add in Hadd.
  destruct (qs_value last) as [sl | rl] eqn:Hlast; [| discriminate].
  destruct (SimpleQuantity_add sl (qs_value ent)) as [r | e] eqn:Hsum; cbn [bind] in Hadd;
    [| discriminate].
  injection Hadd as <-.
  destruct (add_keeps_unit _ _ _ Hsum) as [Hu Hr].
  unfold adjacent_decide in *. rewrite Hlast in Hp.
  cbn [with_value qs_span qs_value merged_span relabel doc_slice start q_unit] in *.
  rewrite Hu.
  destruct ((end_ (qs_span p) =? start (qs_span last))
            && negb (String.eqb (q_unit (qs_value p)) (sq_unit sl))) eqn:Hcond;
    [| reflexivity].
  apply caught_cases in Hp; [| intros v; discriminate].
  destruct Hp as [e [Hraise Hc]].
  apply (caught_gives_none _ e); [| exact Hc].
  unfold Quantity_add in *.
  destruct (qs_value p) as [sp | rp]; [| exact Hraise].
  destruct (SimpleQuantity_add sp (QSimple sl)) as [x | e0] eqn:Hpl; cbn [bind] in Hraise;
    [discriminate |].
  injection Hraise as ->.
  apply andb_prop in Hcond. destruct Hcond as [_ Hneq].
  apply negb_true_iff in Hneq. cbn [q_unit] in Hneq.
  unfold SimpleQuantity_add in *. cbn [q_unit] in *.
  rewrite Hu. rewrite String.eqb_sym in Hneq. rewrite Hneq in *.
  destruct (SimpleQuantity_convert_to sl (sq_unit sp)) as [v | e0] eqn:Hconv;
    cbn [bind] in Hpl; [discriminate |].
  injection Hpl as ->.
  now rewrite (simple_convert_failure sl r (sq_unit sp) e (eq_sym Hu) (eq_sym Hr) Hconv).
Qed.

Lemma matching_patterns_in (self : QuantitiesMatcher) (from_text : option string)
      (to_text : string) (a b : option string) (rest : list (option string * option string)) :
  matching_patterns self from_text to_text = (a, b) :: rest ->
  In (a, b) (range_patterns self).
Proof.
  intros H. assert (Hin : In (a, b) (matching_patterns self from_text to_text))
    by (rewrite H; now left).
  unfold matching_patterns in Hin. now apply filter_In in Hin.
Qed.

Lemma range_keeps_refusals (self : QuantitiesMatcher) (doc : Doc) :
  (forall a b, In (a, b) (range_patterns self) -> a = None) ->
  forall p last ent m,
    range_decide self doc p last = Ok None ->
    range_decide self doc last ent = Ok (Some m) ->
    range_decide self doc p m = Ok None.
Proof.
  intros Hnone p last ent m Hp Hm. unfold range_decide in Hm.
  destruct (matching_patterns self (range_from_text doc (qs_span last))
              (range_to_text doc (qs_span last) (qs_span ent)))
    as [| [a b] rest] eqn:Hpat; [discriminate |].
  apply matching_patterns_in in Hpat. apply Hnone in Hpat. subst a.
  destruct (RangeQuantity_from_quantities (qs_value last) (qs_value ent))
    as [nv | []] eqn:Hfrom; try discriminate.
  injection Hm as <-.
  unfold RangeQuantity_from_quantities in Hfrom.
  destruct (Quantity_convert_to (qs_value ent) (q_unit (qs_value last))) as [bv | e];
    cbn [bind] in Hfrom; [| discriminate].
  injection Hfrom as <-.
  unfold range_decide in *. unfold range_to_text in *.
  cbn [with_value qs_span qs_value merged_span relabel doc_slice start] in *.
  destruct (matching_patterns self (range_from_text doc (qs_span p))
              (norm_text doc (end_ (qs_span p)) (start (qs_span last))))
    as [| [a' b'] rest']; [reflexivity |].
  apply caught_cases in Hp; [| intros v; discriminate].
  destruct Hp as [e [Hraise Hc]].
  unfold RangeQuantity_from_quantities in Hraise.
  destruct (Quantity_convert_to (qs_value last) (q_unit (qs_value p))) as [x | e0] eqn:Hconv;
    cbn [bind] in Hraise; [discriminate |].
  injection Hraise as ->.
  destruct (range_over_failure _ bv _ _ Hconv Hc) as [e' [Hfail Hc']].
  apply (caught_gives_none _ e'); [| exact Hc'].
  unfold RangeQuantity_from_quantities. cbn [Quantity_convert_to].
  rewrite Hfail. reflexivity.
Qed.

(** ** Running a pass on its own output *)

(** The spans of the list do not end before they start, and each ends
    after the one before it: so do spans that are not empty and follow
    one another without overlap. *)
Definition rising (l : list Span) : Prop :=
  Forall (fun s => start s <= end_ s) l /\ StronglySorted Z.lt (map end_ l).

Lemma strongly_sorted_remove {A : Type} (R : A -> A -> Prop) (a b : list A) (y : A) :
  StronglySorted R (a ++ y :: b) -> StronglySorted R (a ++ b).
Proof.
  induction a as [| x a IH]; cbn [app]; intros H.
  - now inversion H.
  - inversion H as [| ? ? Hs Hall]; subst. constructor; [now apply IH |].
    apply Forall_app in Hall. destruct Hall as [Ha Hb].
    apply Forall_app. split; [exact Ha | now inversion Hb].
Qed.

Lemma strongly_sorted_app_r {A : Type} (R : A -> A -> Prop) (a b : list A) :
  StronglySorted R (a ++ b) -> StronglySorted R b.
Proof.
  induction a as [| x a IH]; [exact (fun H => H) |].
  cbn [app]. intros H. inversion H; subst. now apply IH.
Qed.

Lemma strongly_sorted_before {A : Type} (R : A -> A -> Prop) (a b : list A) (x y : A) :
  StronglySorted R (a ++ y :: b) -> In x a -> R x y.
Proof.
  induction a as [| z a IH]; cbn [app]; intros H Hin; [contradiction |].
  inversion H as [| ? ? Hs Hall]; subst. destruct Hin as [-> | Hin].
  - apply Forall_app in Hall. destruct Hall as [_ Hy]. now inversion Hy.
  - now apply IH.
Qed.

(** The last span of the pass and the next one, in a rising list. *)
Lemma rising_pair (front rest : list Span) (last ent : Span) :
  rising ((front ++ [last]) ++ ent :: rest) ->
  start last <= end_ last /\ end_ last < end_ ent.
Proof.
  intros [Hwf Hs]. rewrite <- app_assoc in Hwf, Hs. cbn [app] in Hwf, Hs.
  apply Forall_app in Hwf. destruct Hwf as [_ Hwf].
  inversion Hwf as [| ? ? Hlast _]; subst. split; [exact Hlast |].
  rewrite map_app in Hs. apply strongly_sorted_app_r in Hs. cbn [map] in Hs.
  inversion Hs as [| ? ? _ Hall]; subst. now inversion Hall.
Qed.

(** What a round with a merge leaves of a rising list. *)
Lemma rising_merge (front rest : list Span) (last ent m : Span) :
  rising ((front ++ [last]) ++ ent :: rest) ->
  end_ m = end_ ent -> start m <= end_ m ->
  rising ((front ++ [m]) ++ rest) /\ Forall (fun x => x <> m) front.
Proof.
  intros Hr Hend Hm. destruct (rising_pair _ _ _ _ Hr) as [_ Hle].
  destruct Hr as [Hwf Hs]. rewrite <- app_assoc in Hwf, Hs. cbn [app] in Hwf, Hs.
  apply Forall_app in Hwf. destruct Hwf as [Hfront Hwf].
  inversion Hwf as [| ? ? Hlast Hwf']; subst. inversion Hwf' as [| ? ? Hent Hrest]; subst.
  rewrite map_app in Hs. cbn [map] in Hs.
  pose proof (strongly_sorted_remove _ _ _ _ Hs) as Hs'.
  split.
  - rewrite <- app_assoc. cbn [app]. split.
    + apply Forall_app. split; [exact Hfront | now constructor].
    + rewrite map_app. cbn [map]. now rewrite Hend.
  - rewrite Forall_forall. intros x Hx ->.
    assert (Hlt : end_ m < end_ last).
    { apply (strongly_sorted_before Z.lt (map end_ front) (end_ ent :: map end_ rest)).
      - exact Hs.
      - now apply in_map. }
    lia.
Qed.

Section Settling.

Variable decide : Store -> Span -> Span -> result (option QSpan).

(** No two neighbours of the list would be merged. *)
Fixpoint settled (store : Store) (l : list Span) : Prop :=
  match l with
  | x :: (y :: _) as t => decide store x y = Ok None /\ settled store t
  | _ => True
  end.

Lemma settled_snoc (store : Store) (front : list Span) (last ent : Span) :
  settled store (front ++ [last]) -> decide store last ent = Ok None ->
  settled store ((front ++ [last]) ++ [ent]).
Proof.
  induction front as [| x front IH]; intros Hs Hd.
  - simpl. auto.
  - destruct front as [| y front].
    + simpl in *. destruct Hs as [Hxy _]. auto.
    + cbn [app settled] in *. destruct Hs as [Hxy Hs]. split; [exact Hxy |].
      exact (IH Hs Hd).
Qed.

(** A settled list goes through the pass untouched, and so does the
    store. *)
Lemma run_from_settled (store : Store) (rest front : list Span) (last : Span) :
  settled store (last :: rest) ->
  exists st, run_from (step_of decide) rest (Ok (store, (front, last))) = Ok (store, st)
             /\ merged_list st = front ++ last :: rest.
Proof.
  revert front last. induction rest as [| y rest IH]; intros front last Hs.
  - exists (front, last). split; reflexivity.
  - cbn [settled] in Hs. destruct Hs as [Hd Hs].
    change (run_from (step_of decide) (y :: rest) (Ok (store, (front, last))))
      with (run_from (step_of decide) rest (step_of decide (store, (front, last)) y)).
    unfold step_of at 2. cbn [fst snd]. rewrite Hd. unfold keep_apart. cbn [fst snd].
    destruct (IH (merged_list (front, last)) y Hs) as [st [Hrun Hlist]].
    exists st. split; [exact Hrun |].
    rewrite Hlist. unfold merged_list. cbn [fst snd]. now rewrite <- app_assoc.
Qed.

(** The decision reads the store at the two spans only. *)
Hypothesis decide_reads :
  forall store store' a b,
    Span_value store' a = Span_value store a ->
    Span_value store' b = Span_value store b ->
    decide store' a b = decide store a b.

(** A merged span ends where the second of the two spans ends. *)
Hypothesis merge_end :
  forall store last ent m,
    decide store last ent = Ok (Some m) ->
    start last <= end_ last -> end_ last < end_ ent ->
    end_ (qs_span m) = end_ ent /\ start (qs_span m) <= end_ (qs_span m).

(** A span kept apart from [last] is kept apart from what [last] is
    merged into. *)
Hypothesis merge_keeps_refusals :
  forall store p last ent m,
    decide store p last = Ok None -> decide store last ent = Ok (Some m) ->
    p <> qs_span m ->
    decide (Span_set store (qs_span m) (qs_value m)) p (qs_span m) = Ok None.

Lemma settled_replace_last (store : Store) (front : list Span) (last : Span) (m : QSpan) :
  settled store (front ++ [last]) ->
  Forall (fun x => x <> qs_span m) front ->
  (forall p, decide store p last = Ok None -> p <> qs_span m ->
             decide (Span_set store (qs_span m) (qs_value m)) p (qs_span m) = Ok None) ->
  settled (Span_set store (qs_span m) (qs_value m)) (front ++ [qs_span m]).
Proof.
  induction front as [| x front IH]; intros Hs Hne Hm; [exact I |].
  inversion Hne as [| ? ? Hx Hne']; subst.
  destruct front as [| y front].
  - simpl in *. destruct Hs as [Hxl _]. split; [now apply Hm | exact I].
  - cbn [app settled] in *. destruct Hs as [Hxy Hs]. split; [| exact (IH Hs Hne' Hm)].
    inversion Hne' as [| ? ? Hy _]; subst.
    rewrite <- Hxy. apply decide_reads; apply Span_value_set_other; congruence.
Qed.

(** What a round keeps: the list built so far is settled, and it rises
    together with the spans still to come. *)
Definition settling (st : PassState) (rest : list Span) : Prop :=
  settled (fst st) (merged_list (snd st)) /\ rising (merged_list (snd st) ++ rest).

Lemma settling_round (st : PassState) (ent : Span) (rest : list Span) :
  settling st (ent :: rest) ->
  match step_of decide st ent with
  | Ok st' => settling st' rest
  | Raise e => True
  end.
Proof.
  destruct st as [store [front last]]. unfold settling, step_of. cbn [fst snd].
  intros [Hs Hr]. unfold merged_list in Hs, Hr. cbn [fst snd] in Hs, Hr.
  destruct (decide store last ent) as [[m |] | e] eqn:Hd; [| | exact I].
  - unfold replace_last, merged_list. cbn [fst snd].
    destruct (rising_pair _ _ _ _ Hr) as [Hl Hlt].
    destruct (merge_end store last ent m Hd Hl Hlt) as [Hend Hwf].
    destruct (rising_merge front rest last ent (qs_span m) Hr Hend Hwf) as [Hr' Hne].
    split; [| exact Hr'].
    apply (settled_replace_last store front last m Hs Hne).
    intros p Hp Hpm. exact (merge_keeps_refusals store p last ent m Hp Hd Hpm).
  - unfold keep_apart, merged_list. cbn [fst snd].
    split; [now apply settled_snoc |].
    rewrite <- app_assoc. exact Hr.
Qed.

(** The pass settles a rising list. *)
Lemma run_pass_settles (store store' : Store) (quantities out : list Span) :
  rising quantities ->
  run_pass (step_of decide) store quantities = Ok (store', out) ->
  settled store' out.
Proof.
  intros Hrise Hrun. destruct quantities as [| first rest].
  - injection Hrun as <- <-. exact I.
  - assert (H0 : settling (store, ([], first)) rest) by (split; [exact I | exact Hrise]).
    pose proof (run_pass_cases (step_of decide) settling (fun _ => True) settling_round
                  store first rest H0) as H.
    rewrite Hrun in H. destruct H as (front & last & -> & Hs & _). exact Hs.
Qed.

(** A pass run on its own output returns it unchanged. *)
Lemma run_pass_idempotent (store store' : Store) (quantities out : list Span) :
  rising quantities ->
  run_pass (step_of decide) store quantities = Ok (store', out) ->
  run_pass (step_of decide) store' out = Ok (store', out).
Proof.
  intros Hrise Hrun. pose proof (run_pass_settles _ _ _ _ Hrise Hrun) as Hs.
  destruct out as [| q rest]; [reflexivity |].
  destruct (run_from_settled store' rest [] q Hs) as [st [Hrun' Hlist]].
  unfold run_pass. fold (run_from (step_of decide) rest (Ok (store', ([], q)))).
  rewrite Hrun'. cbn [bind fst snd]. now rewrite Hlist.
Qed.

End Settling.

Lemma adjacent_decide_reads (store store' : Store) (a b : Span) :
  Span_value store' a = Span_value store a ->
  Span_value store' b = Span_value store b ->
  adjacent_decide_in store' a b = adjacent_decide_in store a b.
Proof. intros Ha Hb. unfold adjacent_decide_in. now rewrite Ha, Hb. Qed.

Lemma range_decide_reads (self : QuantitiesMatcher) (doc : Doc)
      (store store' : Store) (a b : Span) :
  Span_value store' a = Span_value store a ->
  Span_value store' b = Span_value store b ->
  range_decide_in self doc store' a b = range_decide_in self doc store a b.
Proof. intros Ha Hb. unfold range_decide_in. now rewrite Ha, Hb. Qed.

(** What a merge of the adjacent pass is made of. *)
Lemma adjacent_merge_inv (store : Store) (last ent : Span) (m : QSpan) :
  adjacent_decide_in store last ent = Ok (Some m) ->
  exists a b,
    Span_value store last = Some a /\ Span_value store ent = Some b
    /\ end_ last = start ent
    /\ adjacent_decide (with_value last a) (with_value ent b) = Ok (Some m)
    /\ qs_span m = merged_span (start last) (end_ ent) ent.
Proof.
  unfold adjacent_decide_in.
  destruct (Z.eqb_spec (end_ last) (start ent)) as [Hadj |]; [| discriminate].
  destruct (Span_value store last) as [a |]; [| discriminate].
  destruct (Span_value store ent) as [b |]; [| discriminate].
  intros H. exists a, b. repeat split; try assumption.
  unfold adjacent_decide in H. cbn [with_value qs_span qs_value] in H.
  destruct ((end_ last =? start ent) && negb (String.eqb (q_unit a) (q_unit b)));
    [| discriminate].
  destruct (Quantity_add a b) as [v | []]; try discriminate.
  injection H as <-. reflexivity.
Qed.

(** What a merge of the range pass is made of. *)
Lemma range_merge_inv (self : QuantitiesMatcher) (doc : Doc)
      (store : Store) (last ent : Span) (m : QSpan) :
  range_decide_in self doc store last ent = Ok (Some m) ->
  exists a b from_marker,
    Span_value store last = Some a /\ Span_value store ent = Some b
    /\ range_decide self doc (with_value last a) (with_value ent b) = Ok (Some m)
    /\ In (from_marker, Some (range_to_text doc last ent)) (range_patterns self)
    /\ qs_span m = merged_span (match from_marker with
                                | None => start last
                                | Some _ => start last - 1
                                end) (end_ ent) ent.
Proof.
  unfold range_decide_in.
  destruct (Span_value store last) as [a |]; [| discriminate].
  destruct (Span_value store ent) as [b |]; [| discriminate].
  intros H. exists a, b. unfold range_decide in H. cbn [with_value qs_span qs_value] in H.
  destruct (matching_patterns self (range_from_text doc last) (range_to_text doc last ent))
    as [| [x y] rest] eqn:Hpat; [discriminate |].
  exists x.
  assert (Hin : In (x, y) (matching_patterns self (range_from_text doc last)
                                             (range_to_text doc last ent)))
    by (rewrite Hpat; now left).
  unfold matching_patterns in Hin. apply filter_In in Hin. destruct Hin as [Hin Htest].
  apply andb_prop in Htest. destruct Htest as [Hy _]. cbn [snd] in Hy.
  destruct y as [y |]; [| discriminate]. cbn [opt_string_eqb] in Hy.
  apply String.eqb_eq in Hy. subst y.
  repeat split; try assumption.
  - unfold range_decide. cbn [with_value qs_span qs_value]. now rewrite Hpat.
  - destruct (RangeQuantity_from_quantities a b) as [v | []]; try discriminate.
    injection H as <-. reflexivity.
Qed.

Lemma merged_span_end (a b : Z) (ent : Span) :
  a <= b -> end_ (merged_span a b ent) = b /\ start (merged_span a b ent) = a.
Proof.
  intros Hle. unfold merged_span. cbn [relabel doc_slice start end_]. split; lia.
Qed.

Lemma adjacent_merge_end (store : Store) (last ent : Span) (m : QSpan) :
  adjacent_decide_in store last ent = Ok (Some m) ->
  start last <= end_ last -> end_ last < end_ ent ->
  end_ (qs_span m) = end_ ent /\ start (qs_span m) <= end_ (qs_span m).
Proof.
  intros H Hl Hlt. destruct (adjacent_merge_inv _ _ _ _ H) as (a & b & _ & _ & _ & _ & ->).
  destruct (merged_span_end (start last) (end_ ent) ent) as [-> ->]; lia.
Qed.

Lemma range_merge_end (self : QuantitiesMatcher) (doc : Doc)
      (store : Store) (last ent : Span) (m : QSpan) :
  range_decide_in self doc store last ent = Ok (Some m) ->
  start last <= end_ last -> end_ last < end_ ent ->
  end_ (qs_span m) = end_ ent /\ start (qs_span m) <= end_ (qs_span m).
Proof.
  intros H Hl Hlt.
  destruct (range_merge_inv _ _ _ _ _ _ H) as (a & b & fm & _ & _ & _ & _ & ->).
  destruct fm as [f |].
  - destruct (merged_span_end (start last - 1) (end_ ent) ent) as [-> ->]; lia.
  - destruct (merged_span_end (start last) (end_ ent) ent) as [-> ->]; lia.
Qed.

Lemma adjacent_keeps_refusals_in (store : Store) (p last ent : Span) (m : QSpan) :
  adjacent_decide_in store p last = Ok None ->
  adjacent_decide_in store last ent = Ok (Some m) ->
  p <> qs_span m ->
  adjacent_decide_in (Span_set store (qs_span m) (qs_value m)) p (qs_span m) = Ok None.
Proof.
  intros Hp Hm Hne.
  destruct (adjacent_merge_inv _ _ _ _ Hm) as (a & b & Ha & Hb & Hadj & Hd & Hspan).
  unfold adjacent_decide_in in *.
  assert (Hstart : start (qs_span m) = start last) by now rewrite Hspan.
  rewrite Hstart.
  destruct (end_ p =? start last); [| reflexivity].
  rewrite Span_value_set_same, (Span_value_set_other _ _ _ _ (not_eq_sym Hne)).
  rewrite Ha in Hp.
  destruct (Span_value store p) as [v |]; [| discriminate].
  rewrite with_value_eta.
  exact (adjacent_keeps_refusals _ _ _ _ Hp Hd).
Qed.

Lemma range_keeps_refusals_in (self : QuantitiesMatcher) (doc : Doc) :
  (forall a b, In (a, b) (range_patterns self) -> a = None) ->
  forall store p last ent m,
    range_decide_in self doc store p last = Ok None ->
    range_decide_in self doc store last ent = Ok (Some m) ->
    p <> qs_span m ->
    range_decide_in self doc (Span_set store (qs_span m) (qs_value m)) p (qs_span m)
    = Ok None.
Proof.
  intros Hnone store p last ent m Hp Hm Hne.
  destruct (range_merge_inv _ _ _ _ _ _ Hm) as (a & b & fm & Ha & Hb & Hd & _ & _).
  unfold range_decide_in in *.
  rewrite Span_value_set_same, (Span_value_set_other _ _ _ _ (not_eq_sym Hne)).
  rewrite Ha in Hp.
  destruct (Span_value store p) as [v |]; [| reflexivity].
  rewrite with_value_eta.
  exact (range_keeps_refusals self doc Hnone _ _ _ _ Hp Hd).
Qed.

(** C4 (amended).  Over spans that do not end before they start and of
    which each ends after the one before it, running the adjacent-merge
    pass on its own output, with the store as it left it, returns that
    output and leaves the store unchanged.  So does the range-merge pass
    when range extraction is disabled or no configured pattern carries a
    from-marker. *)
Theorem merge_passes_idempotent :
  (forall store quantities store' out,
      rising quantities ->
      merge_adjacent_quantities store quantities = Ok (store', out) ->
      merge_adjacent_quantities store' out = Ok (store', out))
  /\ (forall (self : QuantitiesMatcher) (doc : Doc) store quantities store' out,
         extract_ranges self = false
         \/ (forall a b, In (a, b) (range_patterns self) -> a = None) ->
         rising quantities ->
         merge_quantities_in_ranges self doc store quantities = Ok (store', out) ->
         merge_quantities_in_ranges self doc store' out = Ok (store', out)).
Proof.
  split.
  - intros store quantities store' out Hrise H. unfold merge_adjacent_quantities in *.
    rewrite (run_pass_ext _ _ store quantities adjacent_step_decide) in H.
    rewrite (run_pass_ext _ _ store' out adjacent_step_decide).
    exact (run_pass_idempotent adjacent_decide_in adjacent_decide_reads adjacent_merge_end
             adjacent_keeps_refusals_in _ _ _ _ Hrise H).
  - intros self doc store quantities store' out Hcfg Hrise H.
    unfold merge_quantities_in_ranges in *.
    destruct (negb (extract_ranges self)
              || match range_patterns self with [] => true | _ :: _ => false end) eqn:E.
    + injection H as <- <-. reflexivity.
    + destruct Hcfg as [Hoff | Hnone]; [now rewrite Hoff in E |].
      rewrite (run_pass_ext _ _ store quantities (range_step_decide self doc)) in H.
      rewrite (run_pass_ext _ _ store' out (range_step_decide self doc)).
      exact (run_pass_idempotent _ (range_decide_reads self doc) (range_merge_end self doc)
               (range_keeps_refusals_in self doc Hnone) _ _ _ _ Hrise H).
Qed.

(** ** Order of the merged spans *)



Lemma strongly_sorted_delete (a b : list Z) (y : Z) :
  StronglySorted Z.le (a ++ y :: b) -> StronglySorted Z.le (a ++ b).
Proof.
  induction a as [| x a IH]; cbn [app]; intros H.
  - now inversion H.
  - inversion H as [| ? ? Hs Hall]; subst. constructor; [now apply IH |].
    apply Forall_app in Hall. destruct Hall as [Ha Hb].
    apply Forall_app. split; [exact Ha | now inversion Hb].
Qed.


Section PassOrder.

Variable decide : Store -> Span -> Span -> result (option QSpan).

Hypothesis merge_keeps_start :
  forall store last ent m,
    decide store last ent = Ok (Some m) -> start (qs_span m) = start last.




End PassOrder.





(** ** Order of the extracted spans *)






















(** ** Range construction *)

(** A configured pattern matches: its to-marker is the text between the
    two spans and its from-marker, when it has one, is the token just
    before the first span. *)
Definition pattern_matches (from_text : option string) (to_text : string)
           (ab : option string * option string) : Prop :=
  snd ab = Some to_text /\ (fst ab = None \/ fst ab = from_text).

Lemma opt_string_eqb_eq (a b : option string) : opt_string_eqb a b = true <-> a = b.
Proof.
  destruct a as [x |], b as [y |]; simpl; try (split; congruence).
  rewrite String.eqb_eq. split; congruence.
Qed.

Lemma pattern_test_spec (from_text : option string) (to_text : string)
      (ab : option string * option string) :
  opt_string_eqb (snd ab) (Some to_text)
  && match fst ab with
     | None => true
     | Some a => opt_string_eqb (Some a) from_text
     end = true
  <-> pattern_matches from_text to_text ab.
Proof.
  unfold pattern_matches. rewrite andb_true_iff, opt_string_eqb_eq.
  destruct (fst ab) as [a |].
  - rewrite opt_string_eqb_eq. split; intros [H1 H2]; split; auto.
    destruct H2 as [H2 | H2]; [discriminate | exact H2].
  - split; intros [H1 H2]; split; auto.
Qed.

(** The first matching pattern in registration order heads the list. *)
Lemma matching_patterns_first (self : QuantitiesMatcher) (from_text : option string)
      (to_text : string) (pre post : list (option string * option string))
      (ab : option string * option string) :
  range_patterns self = pre ++ ab :: post ->
  Forall (fun p => ~ pattern_matches from_text to_text p) pre ->
  pattern_matches from_text to_text ab ->
  exists rest, matching_patterns self from_text to_text = ab :: rest.
Proof.
  intros Hsplit Hpre Hab. unfold matching_patterns. rewrite Hsplit, filter_app.
  cbn [filter]. apply pattern_test_spec in Hab. rewrite Hab.
  assert (Hnil : filter (fun ab0 : option string * option string =>
                           opt_string_eqb (snd ab0) (Some to_text)
                           && match fst ab0 with
                              | None => true
                              | Some a => opt_string_eqb (Some a) from_text
                              end) pre = []).
  { clear Hsplit. induction Hpre as [| p pre Hp Hpre IH]; [reflexivity |]. cbn [filter].
    destruct (opt_string_eqb (snd p) (Some to_text)
              && match fst p with
                 | None => true
                 | Some a => opt_string_eqb (Some a) from_text
                 end) eqn:E; [| exact IH].
    apply pattern_test_spec in E. contradiction. }
  rewrite Hnil. eexists. reflexivity.
Qed.

(** The pass over a list extended by one span: the rounds over the list,
    then one more round. *)
Lemma run_pass_snoc (step : PassState -> Span -> result PassState)
      (store store1 : Store) (before front : list Span) (last ent : Span) :
  run_pass step store before = Ok (store1, front ++ [last]) ->
  run_pass step store (before ++ [ent])
  = (st <- step (store1, (front, last)) ent ;; Ok (fst st, merged_list (snd st))).
Proof.
  intros Hbefore. destruct before as [| q rest].
  - cbn [run_pass] in Hbefore. injection Hbefore as _ Hnil. now destruct front.
  - unfold run_pass in Hbefore. fold (run_from step rest (Ok (store, ([], q)))) in Hbefore.
    destruct (run_from step rest (Ok (store, ([], q)))) as [[store' [front' last']] |] eqn:Hrun;
      cbn [bind] in Hbefore; [| discriminate].
    injection Hbefore as -> Hlist. unfold merged_list in Hlist. cbn [fst snd] in Hlist.
    apply app_inj_tail in Hlist. destruct Hlist as [-> ->].
    cbn [app]. unfold run_pass.
    fold (run_from step (rest ++ [ent]) (Ok (store, ([], q)))).
    now rewrite (run_from_snoc _ _ _ _ _ Hrun).
Qed.

(** C8 (amended).  Let range extraction be enabled and let the pass, run
    over the spans before [ent], end with [last] as its last span; let
    the values it then finds for [last] and for [ent] be scalars.  If
    the text between the two spans is the to-marker of a configured
    pattern whose from-marker, when it has one, is the token just before
    [last], and if the second scalar converts into the unit of the first,
    then the pass run over the spans up to [ent] replaces the pair by one
    span, for which it stores the interval of the first scalar and of the
    converted second one, in the unit of the first.  The pattern that
    decides is the first matching one in registration order, and the new
    span starts one token before [last] exactly when that pattern has a
    from-marker.  If the second scalar does not convert because the
    dimensions of the two units differ, the two spans are kept as they
    are. *)
Theorem range_merge_replaces_pair (self : QuantitiesMatcher) (doc : Doc)
        (store store1 : Store) (before front : list Span) (last ent : Span)
        (first_scalar second_scalar : SimpleQuantity)
        (from_marker : option string) (to_marker : string)
        (pre post : list (option string * option string)) :
  extract_ranges self = true ->
  merge_quantities_in_ranges self doc store before = Ok (store1, front ++ [last]) ->
  Span_value store1 last = Some (QSimple first_scalar) ->
  Span_value store1 ent = Some (QSimple second_scalar) ->
  range_patterns self = pre ++ (from_marker, Some to_marker) :: post ->
  Forall (fun p => ~ pattern_matches (range_from_text doc last)
                                     (range_to_text doc last ent) p) pre ->
  range_to_text doc last ent = to_marker ->
  from_marker = None \/ from_marker = range_from_text doc last ->
  let new_start :=
    match from_marker with
    | None => start last
    | Some _ => start last - 1
    end in
  let merged :=
    {| start := new_start; end_ := Z.max new_start (end_ ent); label := label ent |} in
  (forall converted,
      SimpleQuantity_convert_to second_scalar (sq_unit first_scalar) = Ok converted ->
      merge_quantities_in_ranges self doc store (before ++ [ent])
      = Ok (Span_set store1 merged
              (QRange {| rq_value := (Num (sq_value first_scalar), Num converted);
                         rq_unit := sq_unit first_scalar;
                         rq_registry := sq_registry first_scalar |}),
            front ++ [merged]))
  /\ (SimpleQuantity_convert_to second_scalar (sq_unit first_scalar) = Raise AttributeError ->
      merge_quantities_in_ranges self doc store (before ++ [ent])
      = Ok (store1, front ++ [last; ent])).
Proof.
  intros Hon Hbefore Hlast Hent Hpatterns Hpre Hto Hfrom new_start merged.
  unfold merge_quantities_in_ranges in *. rewrite Hon in *. cbn [negb orb] in *.
  rewrite Hpatterns in *.
  assert (Hne : match pre ++ (from_marker, Some to_marker) :: post with
                | [] => true
                | _ :: _ => false
                end = false) by (destruct pre; reflexivity).
  rewrite Hne in *. rewrite (run_pass_snoc _ _ _ _ _ _ _ Hbefore).
  unfold range_step. cbn [fst snd].
  fold (range_from_text doc last). fold (range_to_text doc last ent).
  destruct (matching_patterns_first self (range_from_text doc last)
              (range_to_text doc last ent) pre post (from_marker, Some to_marker)
              Hpatterns Hpre) as [others Hmatch].
  { split; cbn [fst snd]; [now rewrite Hto | exact Hfrom]. }
  rewrite Hmatch. unfold range_value. rewrite Hlast, Hent.
  unfold RangeQuantity_from_quantities.
  cbn [Quantity_convert_to q_unit q_payload q_registry].
  split.
  - intros converted Hconv. rewrite Hconv. cbn [bind].
    unfold replace_last, merged_list. cbn [fst snd]. reflexivity.
  - intros Hconv. rewrite Hconv. cbn [bind].
    unfold keep_apart, merged_list. cbn [fst snd]. now rewrite <- app_assoc.
Qed.

(* ================================================================= *)
(** * Part II, continued: further properties                          *)
(* ================================================================= *)

(** ** Registry construction: failure and contents *)

(** Some unit without the reciprocal marker has a zero scale. *)
Definition zero_scale_unit (cfg : dict UnitConfig) : Prop :=
  exists k uc,
    In (k, uc) cfg /\ String.prefix "per_" k = false /\ (scale uc =? 0)%float = true.

Lemma add_reciprocal_fold_cases (items : list (string * UnitConfig))
      (cfg : dict UnitConfig) :
  match fold_left add_reciprocal items (Ok cfg) with
  | Ok _ =>
      forall k uc, In (k, uc) items -> String.prefix "per_" k = false ->
                   (scale uc =? 0)%float = false
  | Raise e => e = ZeroDivisionError /\ zero_scale_unit items
  end.
Proof.
  revert cfg. induction items as [| [v vc] items IH]; intros cfg; cbn [fold_left].
  - intros k uc [].
  - rewrite add_reciprocal_step.
    destruct (String.prefix "per_" v) eqn:Hv.
    + specialize (IH cfg).
      destruct (fold_left add_reciprocal items (Ok cfg)) as [reg | e].
      * intros k uc [Heq | Hin] Hk; [| now apply (IH k uc)].
        injection Heq as <- <-. congruence.
      * destruct IH as [He (k & uc & Hin & Hk & Hz)].
        split; [exact He |]. exists k, uc. split; [now right | now split].
    + unfold py_div. destruct (scale vc =? 0)%float eqn:Hz; cbn [bind].
      * rewrite add_reciprocal_raise. split; [reflexivity |].
        exists v, vc. split; [now left | now split].
      * match goal with
        | |- context [fold_left add_reciprocal items (Ok ?c)] => specialize (IH c)
        end.
        destruct (fold_left add_reciprocal items (Ok _)) as [reg | e].
        -- intros k uc [Heq | Hin] Hk; [| now apply (IH k uc)].
           injection Heq as <- <-. exact Hz.
        -- destruct IH as [He (k & uc & Hin & Hk & Hz')].
           split; [exact He |]. exists k, uc. split; [now right | now split].
Qed.

(** X1.  Building a registry either succeeds or raises
    [ZeroDivisionError], and it raises exactly when some unit of the
    configuration (keys normalised) that does not start with ["per_"] has
    a zero scale: its reciprocal [1 / scale] cannot be computed. *)
Theorem init_fails_on_zero_scale (config : dict UnitConfig) :
  (UnitRegistry_init config = Raise ZeroDivisionError
   <-> zero_scale_unit (normalize_keys config))
  /\ (forall e, UnitRegistry_init config = Raise e -> e = ZeroDivisionError).
Proof.
  unfold UnitRegistry_init.
  pose proof (add_reciprocal_fold_cases (normalize_keys config) (normalize_keys config)) as H.
  destruct (fold_left add_reciprocal (normalize_keys config) (Ok (normalize_keys config)))
    as [reg | e].
  - split; [split; [discriminate |] | discriminate].
    intros (k & uc & Hin & Hk & Hz). rewrite (H k uc Hin Hk) in Hz. discriminate.
  - destruct H as [-> Hz]. split; [split; [intros _; exact Hz | reflexivity] |].
    intros e He. now injection He as <-.
Qed.

(** The key [u] such that [k = "per_" + u], if there is one. *)
Definition strip_per (k : string) : option string :=
  match k with
  | String "p" (String "e" (String "r" (String "_" u))) => Some u
  | _ => None
  end.

(** What a lookup of [k] finds in the registry built from the
    configuration [cfg0] (keys normalised). *)
Definition built_entry (cfg0 : dict UnitConfig) (k : string) : option UnitConfig :=
  match strip_per k with
  | Some u =>
      if String.prefix "per_" u then dict_get cfg0 k
      else match dict_get cfg0 u with
           | Some uc => Some (reciprocal_entry uc (1 / scale uc)%float)
           | None => dict_get cfg0 k
           end
  | None => dict_get cfg0 k
  end.

Lemma strip_per_some (k u : string) : strip_per k = Some u -> k = ("per_" ++ u)%string.
Proof.
  unfold strip_per.
  destruct k as [| c1 [| c2 [| c3 [| c4 k]]]]; try discriminate;
    try (destruct c1 as [[] [] [] [] [] [] [] []]; discriminate).
  - destruct c1 as [[] [] [] [] [] [] [] []]; try discriminate;
      destruct c2 as [[] [] [] [] [] [] [] []]; discriminate.
  - destruct c1 as [[] [] [] [] [] [] [] []]; try discriminate;
      destruct c2 as [[] [] [] [] [] [] [] []]; try discriminate;
      destruct c3 as [[] [] [] [] [] [] [] []]; discriminate.
  - destruct c1 as [[] [] [] [] [] [] [] []]; try discriminate;
      destruct c2 as [[] [] [] [] [] [] [] []]; try discriminate;
      destruct c3 as [[] [] [] [] [] [] [] []]; try discriminate;
      destruct c4 as [[] [] [] [] [] [] [] []]; try discriminate.
    intros H. now injection H as <-.
Qed.

Lemma strip_per_none (k : string) : strip_per k = None -> String.prefix "per_" k = false.
Proof.
  unfold strip_per.
  destruct k as [| c1 [| c2 [| c3 [| c4 k]]]]; try reflexivity;
    destruct c1 as [[] [] [] [] [] [] [] []]; try reflexivity;
    try (destruct c2 as [[] [] [] [] [] [] [] []]; try reflexivity);
    try (destruct c3 as [[] [] [] [] [] [] [] []]; try reflexivity);
    try (destruct c4 as [[] [] [] [] [] [] [] []]; try reflexivity);
    discriminate.
Qed.

(** A key that is the reciprocal of no plain configured key is left as
    configured. *)
Lemma init_keeps_other_keys (items : list (string * UnitConfig))
      (cfg reg : dict UnitConfig) (k : string) :
  fold_left add_reciprocal items (Ok cfg) = Ok reg ->
  (forall v, In v (map fst items) -> String.prefix "per_" v = false ->
             k <> ("per_" ++ v)%string) ->
  dict_get reg k = dict_get cfg k.
Proof.
  revert cfg. induction items as [| [v vc] items IH]; intros cfg Hfold Hk;
    cbn [fold_left] in Hfold.
  - now injection Hfold as ->.
  - rewrite add_reciprocal_step in Hfold.
    assert (Hk' : forall v0, In v0 (map fst items) -> String.prefix "per_" v0 = false ->
                             k <> ("per_" ++ v0)%string)
      by (intros v0 Hin; apply Hk; now right).
    destruct (String.prefix "per_" v) eqn:Hv.
    + now apply IH.
    + destruct (py_div 1 (scale vc)) as [s | e]; cbn [bind] in Hfold.
      * rewrite (IH _ Hfold Hk'). apply dict_get_set_other.
        intros Heq. apply (Hk v); [now left | exact Hv | now symmetry].
      * now rewrite add_reciprocal_raise in Hfold.
Qed.

Lemma py_div_ok (x y s : float) : py_div x y = Ok s -> s = (x / y)%float.
Proof. unfold py_div. destruct (y =? 0)%float; [discriminate | now intros [= <-]]. Qed.

Lemma in_keys_dict_get {V : Type} (d : dict V) (k : string) :
  In k (map fst d) <-> dict_get d k <> None.
Proof.
  induction d as [| [k0 v0] d IH]; simpl.
  - split; [intros [] | intros H; now apply H].
  - destruct (String.eqb k0 k) eqn:E.
    + apply String.eqb_eq in E. split; [discriminate | intros _; now left].
    + rewrite <- IH. split; [intros [H | H]; [| exact H] | intros H; now right].
      subst k0. now rewrite String.eqb_refl in E.
Qed.

(** X2.  The contents of a registry that was built: for a key
    ["per_" + u] where [u] is a configured key without the reciprocal
    marker, the entry generated from [u] (same dimension, opposite degree,
    scale [1 / scale]), whatever the configuration holds under
    ["per_" + u] itself; for every other key, the configured entry,
    keys being NFKC-normalised; nothing else. *)
Theorem registry_contents (config : dict UnitConfig) (reg : UnitRegistry) :
  UnitRegistry_init config = Ok reg ->
  forall k, dict_get reg k = built_entry (normalize_keys config) k.
Proof.
  intros Hinit k. unfold UnitRegistry_init in Hinit. unfold built_entry.
  destruct (normalize_keys_facts config [] (NoDup_nil _)
              (fun k (H : In k []) => match H with end)) as [Hnd _].
  fold (normalize_keys config) in Hnd.
  destruct (strip_per k) as [u |] eqn:Hs.
  - apply strip_per_some in Hs. subst k.
    destruct (String.prefix "per_" u) eqn:Hu.
    + apply (init_keeps_other_keys _ _ _ _ Hinit).
      intros v _ Hv Heq. apply per_injective in Heq. congruence.
    + destruct (dict_get (normalize_keys config) u) as [uc |] eqn:Hget.
      * destruct (init_generates_reciprocal _ _ _ u uc Hinit) as [Hgen _];
          [intros vc Hvc; now apply (dict_get_unique _ u uc vc Hnd) | assumption |].
        destruct Hgen as (s & Hdiv & Hrec).
        { apply in_keys_dict_get. congruence. }
        rewrite Hrec. now rewrite (py_div_ok _ _ _ Hdiv).
      * apply (init_keeps_other_keys _ _ _ _ Hinit).
        intros v Hin _ Heq. apply per_injective in Heq. subst v.
        apply in_keys_dict_get in Hin. contradiction.
  - apply strip_per_none in Hs. exact (init_keeps_plain_keys _ _ _ k Hinit Hs).
Qed.

(** ** Binary64 facts: division by itself and order *)

(** A finite number other than zero. *)
Definition finite_nonzero (x : float) : bool :=
  match Prim2SF x with
  | S754_finite _ _ _ => true
  | _ => false
  end.

Definition is_nan (x : float) : Prop := Prim2SF x = S754_nan.

Lemma div_eucl_shift (m : positive) :
  Z.div_eucl (Z.shiftl (Zpos m) 53) (Zpos m) = (9007199254740992, 0).
Proof.
  rewrite Z.shiftl_mul_pow2 by lia.
  pose proof (Z.div_mul (2 ^ 53) (Zpos m) ltac:(lia)) as Hq.
  pose proof (Z.mod_mul (2 ^ 53) (Zpos m) ltac:(lia)) as Hr.
  rewrite (Z.mul_comm (Zpos m)).
  unfold Z.div, Z.modulo in Hq, Hr.
  destruct (Z.div_eucl (2 ^ 53 * Z.pos m) (Z.pos m)) as [q r].
  subst q r. reflexivity.
Qed.

Lemma SFdiv_self (s : bool) (m : positive) (e : Z) :
  SF64div (S754_finite s m e) (S754_finite s m e)
  = S754_finite false 4503599627370496 (-52).
Proof.
  unfold SF64div, SFdiv, SFdiv_core_binary.
  replace (Zdigits2 (Z.pos m) + e - (Zdigits2 (Z.pos m) + e)) with 0 by lia.
  rewrite Z.sub_diag.
  change (Z.min (fexp prec emax 0) 0) with (-53).
  change (0 - -53) with 53.
  cbv beta iota zeta.
  rewrite div_eucl_shift.
  rewrite xorb_nilpotent.
  unfold new_location. destruct (Z.even (Z.pos m)); reflexivity.
Qed.

(** A finite non-zero number divided by itself is exactly one. *)
Lemma float_div_self (x : float) :
  finite_nonzero x = true -> (x / x)%float = 1%float.
Proof.
  unfold finite_nonzero. intros H.
  apply Prim2SF_inj. rewrite div_spec.
  destruct (Prim2SF x) as [| | | s m e]; try discriminate.
  rewrite SFdiv_self. reflexivity.
Qed.

(** Any number that is not zero, divided by itself, is one or not a
    number. *)
Lemma float_div_self_cases (x : float) :
  (x =? 0)%float = false -> (x / x)%float = 1%float \/ is_nan (x / x)%float.
Proof.
  intros Hz. destruct (finite_nonzero x) eqn:Hf.
  - left. now apply float_div_self.
  - right. unfold is_nan. rewrite div_spec.
    unfold finite_nonzero in Hf. rewrite eqb_spec in Hz.
    change (Prim2SF 0) with (S754_zero false) in Hz.
    destruct (Prim2SF x) as [[] | [] | | s m e]; try discriminate; reflexivity.
Qed.

Lemma float_mul_nan (x r : float) : is_nan r -> is_nan (x * r)%float.
Proof.
  unfold is_nan. intros Hr. rewrite mul_spec, Hr.
  destruct (Prim2SF x) as [[] | [] | | s m e]; reflexivity.
Qed.

Lemma float_ltb_nan_l (x y : float) : is_nan x -> (x <? y)%float = false.
Proof. unfold is_nan. intros Hx. rewrite ltb_spec, Hx. reflexivity. Qed.

Lemma float_ltb_nan_r (x y : float) : is_nan y -> (x <? y)%float = false.
Proof.
  unfold is_nan. intros Hy. rewrite ltb_spec, Hy.
  destruct (Prim2SF x) as [[] | [] | | s m e]; reflexivity.
Qed.

Lemma SFcompare_refl (f : spec_float) :
  SFcompare f f = None \/ SFcompare f f = Some Eq.
Proof.
  destruct f as [[] | [] | | [] m e]; simpl; auto;
    rewrite Z.compare_refl, Pos.compare_cont_refl; auto.
Qed.

Lemma float_ltb_irrefl (x : float) : (x <? x)%float = false.
Proof.
  rewrite ltb_spec. unfold SFltb.
  destruct (SFcompare_refl (Prim2SF x)) as [-> | ->]; reflexivity.
Qed.

Lemma float_ltb_leb (x y : float) : (x <? y)%float = true -> (x <=? y)%float = true.
Proof.
  rewrite ltb_spec, leb_spec. unfold SFltb, SFleb.
  destruct (SFcompare (Prim2SF x) (Prim2SF y)) as [[] |]; congruence.
Qed.

Lemma SFcompare_antisym (f g : spec_float) :
  SFcompare g f = match SFcompare f g with
                  | Some c => Some (CompOpp c)
                  | None => None
                  end.
Proof.
  destruct f as [[] | [] | | [] m e], g as [[] | [] | | [] m' e']; simpl; try reflexivity;
    rewrite (Z.compare_antisym e e'); destruct (e ?= e'); simpl; try reflexivity;
    rewrite (ZC4 m' m); destruct (Pos.compare_cont Eq m m'); reflexivity.
Qed.

Lemma float_ltb_asym (x y : float) : (x <? y)%float = true -> (y <? x)%float = false.
Proof.
  rewrite !ltb_spec. unfold SFltb. rewrite (SFcompare_antisym (Prim2SF x) (Prim2SF y)).
  destruct (SFcompare (Prim2SF x) (Prim2SF y)) as [[] |]; simpl; congruence.
Qed.

Lemma float_eqb_sym (x y : float) : (x =? y)%float = (y =? x)%float.
Proof.
  rewrite !eqb_spec. unfold SFeqb. rewrite (SFcompare_antisym (Prim2SF x) (Prim2SF y)).
  destruct (SFcompare (Prim2SF x) (Prim2SF y)) as [[] |]; reflexivity.
Qed.

Lemma SFcompare_lt_trans (x y z : spec_float) :
  SFcompare x y = Some Lt -> SFcompare y z = Some Lt -> SFcompare x z = Some Lt.
Proof.
  destruct x as [[] | [] | | [] m1 e1], y as [[] | [] | | [] m2 e2],
           z as [[] | [] | | [] m3 e3]; simpl; try congruence;
    change (Pos.compare_cont Eq) with Pos.compare;
    destruct (Z.compare_spec e1 e2), (Z.compare_spec e2 e3), (Z.compare_spec e1 e3);
    try congruence; try lia; subst;
    destruct (Pos.compare_spec m1 m2), (Pos.compare_spec m2 m3), (Pos.compare_spec m1 m3);
    simpl; try congruence; try lia.
Qed.

Lemma float_ltb_trans (x y z : float) :
  (x <? y)%float = true -> (y <? z)%float = true -> (x <? z)%float = true.
Proof.
  rewrite !ltb_spec. unfold SFltb.
  destruct (SFcompare (Prim2SF x) (Prim2SF y)) as [[] |] eqn:H1; try discriminate.
  destruct (SFcompare (Prim2SF y) (Prim2SF z)) as [[] |] eqn:H2; try discriminate.
  now rewrite (SFcompare_lt_trans _ _ _ H1 H2).
Qed.

(** ** Conversion into the quantity's own unit *)

Lemma sig_eqb_refl (sg : signature) : sig_eqb sg sg = true.
Proof.
  induction sg as [| [k d] sg IH]; simpl; [reflexivity |].
  now rewrite String.eqb_refl, Z.eqb_refl, IH.
Qed.

Lemma finite_nonzero_not_zero (x : float) :
  finite_nonzero x = true -> (x =? 0)%float = false.
Proof.
  unfold finite_nonzero. rewrite eqb_spec.
  change (Prim2SF 0) with (S754_zero false).
  destruct (Prim2SF x) as [[] | [] | | [] m e]; try discriminate; reflexivity.
Qed.

(** The ratio of a registered unit to itself. *)
Lemma own_ratio (reg : UnitRegistry) (unit : string) (sg : signature) (sc : float) :
  parse_unit reg unit = Ok (sg, sc) ->
  conversion_ratio reg unit unit = py_div sc sc.
Proof.
  intros H. unfold conversion_ratio. rewrite H. cbn [bind].
  now rewrite sig_eqb_refl.
Qed.

Lemma float_eqb_one : (1 =? 1)%float = true.
Proof. reflexivity. Qed.

(** X3.  Converting a quantity into its own unit: when the unit is
    registered with a finite non-zero scale, [q.convert_to(q.unit)]
    returns the value of [q] unchanged (the number of a scalar, the two
    bounds of an interval); when its scale is zero the conversion raises
    [ZeroDivisionError]. *)
Theorem convert_to_own_unit (q : Quantity) (sg : signature) (sc : float) :
  parse_unit (q_registry q) (q_unit q) = Ok (sg, sc) ->
  (finite_nonzero sc = true ->
   Quantity_convert_to q (q_unit q) = Ok (q_payload q))
  /\ ((sc =? 0)%float = true ->
      Quantity_convert_to q (q_unit q) = Raise ZeroDivisionError).
Proof.
  intros Hparse. split.
  - intros Hfin.
    assert (Hr : conversion_ratio (q_registry q) (q_unit q) (q_unit q) = Ok 1%float).
    { rewrite (own_ratio _ _ _ _ Hparse). unfold py_div.
      rewrite (finite_nonzero_not_zero _ Hfin). now rewrite (float_div_self _ Hfin). }
    destruct q as [s | r]; cbn [Quantity_convert_to q_unit q_registry q_payload] in *.
    + rewrite simple_convert_ratio, Hr. cbn [bind]. now rewrite float_eqb_one.
    + rewrite range_convert_ratio, Hr. cbn [bind]. rewrite float_eqb_one.
      cbn [bind]. reflexivity.
  - intros Hz.
    assert (Hr : conversion_ratio (q_registry q) (q_unit q) (q_unit q)
                 = Raise ZeroDivisionError).
    { rewrite (own_ratio _ _ _ _ Hparse). unfold py_div. now rewrite Hz. }
    destruct q as [s | r]; cbn [Quantity_convert_to q_unit q_registry q_payload] in *.
    + now rewrite simple_convert_ratio, Hr.
    + now rewrite range_convert_ratio, Hr.
Qed.

(** ** Comparisons within one unit *)

(** X4.  Two scalars whose unit is spelled the same, this unit being
    registered with a finite non-zero scale, compare as their values do:
    [a == b], [a < b] and [a <= b] are [a.value == b.value],
    [a.value < b.value] and [a.value <= b.value]. *)
Theorem same_unit_comparisons (a b : SimpleQuantity) (sg : signature) (sc : float) :
  sq_unit a = sq_unit b ->
  parse_unit (sq_registry a) (sq_unit a) = Ok (sg, sc) ->
  finite_nonzero sc = true ->
  py_eq (QSimple a) (PySimple b) = Ok (sq_value a =? sq_value b)%float
  /\ py_lt (QSimple a) (QSimple b) = Ok (sq_value a <? sq_value b)%float
  /\ py_le (QSimple a) (QSimple b) = Ok (sq_value a <=? sq_value b)%float.
Proof.
  intros Hu Hparse Hfin.
  assert (Hc : SimpleQuantity_convert_to a (sq_unit b) = Ok (sq_value a)).
  { rewrite <- Hu, simple_convert_ratio, (own_ratio _ _ _ _ Hparse). unfold py_div.
    rewrite (finite_nonzero_not_zero _ Hfin), (float_div_self _ Hfin).
    cbn [bind]. now rewrite float_eqb_one. }
  cbn [py_eq py_lt py_le SimpleQuantity_eq].
  unfold SimpleQuantity_lt, SimpleQuantity_le.
  cbn [q_unit part_values fst snd py_min].
  rewrite Hc. cbn [bind payload_cmp float_cmp]. repeat split; reflexivity.
Qed.

(** ** The strict order never holds between a quantity and itself *)

Lemma payload_eqb_sym (p q : payload) : payload_eqb p q = payload_eqb q p.
Proof.
  revert q. induction p as [x | a IHa b IHb]; intros [y | a' b']; simpl;
    try reflexivity.
  - apply float_eqb_sym.
  - now rewrite IHa, IHb.
Qed.

Lemma payload_lt_irrefl (p : payload) : payload_cmp OpLt p p <> Ok true.
Proof.
  induction p as [x | a IHa b IHb]; simpl.
  - rewrite float_ltb_irrefl. discriminate.
  - destruct (payload_eqb a a); simpl; [| exact IHa].
    destruct (payload_eqb b b); simpl; [discriminate | exact IHb].
Qed.

Lemma payload_gt_lt (a b : payload) : payload_cmp OpGt b a = payload_cmp OpLt a b.
Proof.
  revert b. induction a as [x | a1 IH1 a2 IH2]; intros [y | b1 b2]; simpl;
    try reflexivity.
  rewrite (payload_eqb_sym b1 a1), (payload_eqb_sym b2 a2), IH1, IH2. reflexivity.
Qed.

Lemma payload_lt_asym (a b : payload) :
  payload_cmp OpLt a b = Ok true -> payload_cmp OpLt b a = Ok false.
Proof.
  revert b. induction a as [x | a1 IH1 a2 IH2]; intros [y | b1 b2]; simpl;
    try discriminate.
  - intros H. injection H as H. now rewrite (float_ltb_asym _ _ H).
  - rewrite (payload_eqb_sym b1 a1), (payload_eqb_sym b2 a2).
    destruct (payload_eqb a1 b1); simpl; [| apply IH1].
    destruct (payload_eqb a2 b2); simpl; [discriminate | apply IH2].
Qed.

(** The larger of two items is not below the smaller. *)
Lemma max_not_below_min (a b top m : payload) :
  py_max a [b] = Ok top -> py_min a [b] = Ok m -> payload_cmp OpLt top m <> Ok true.
Proof.
  cbn [py_max py_min]. rewrite payload_gt_lt.
  destruct (payload_cmp OpLt a b) as [[] |] eqn:Hab; cbn [bind]; try discriminate.
  - rewrite (payload_lt_asym _ _ Hab). cbn [bind].
    intros [= <-] [= <-]. rewrite (payload_lt_asym _ _ Hab). discriminate.
  - intros [= <-].
    destruct (payload_cmp OpLt b a) as [[] |]; cbn [bind]; try discriminate.
    + intros [= <-]. rewrite Hab. discriminate.
    + intros [= <-]. apply payload_lt_irrefl.
Qed.

Lemma float_eqb_nan_l (x y : float) : is_nan x -> (x =? y)%float = false.
Proof. unfold is_nan. intros Hx. rewrite eqb_spec, Hx. reflexivity. Qed.

(** The ratio of a unit to itself, when there is one, is one or not a
    number. *)
Lemma own_ratio_cases (reg : UnitRegistry) (unit : string) (ratio : float) :
  conversion_ratio reg unit unit = Ok ratio -> ratio = 1%float \/ is_nan ratio.
Proof.
  unfold conversion_ratio.
  destruct (parse_unit reg unit) as [[sg sc] | e]; cbn [bind]; [| discriminate].
  rewrite sig_eqb_refl. cbn [negb]. unfold py_div.
  destruct (sc =? 0)%float eqn:Hz; [discriminate |].
  intros [= <-]. now apply float_div_self_cases.
Qed.

Lemma lt_self_not_true (q : Quantity) : py_lt q q <> Ok true.
Proof.
  destruct q as [s | r]; cbn [py_lt].
  - unfold SimpleQuantity_lt. cbn [q_unit part_values fst snd py_min].
    rewrite simple_convert_ratio.
    destruct (conversion_ratio (sq_registry s) (sq_unit s) (sq_unit s)) as [ratio | e] eqn:Hr;
      cbn [bind]; [| discriminate].
    destruct (own_ratio_cases _ _ _ Hr) as [-> | Hnan].
    + rewrite float_eqb_one. cbn [negb bind payload_cmp float_cmp].
      rewrite float_ltb_irrefl. discriminate.
    + rewrite (float_eqb_nan_l _ _ Hnan). cbn [negb bind payload_cmp float_cmp].
      rewrite (float_ltb_nan_l _ _ (float_mul_nan _ _ Hnan)). discriminate.
  - unfold RangeQuantity_lt. cbn [q_unit part_values fst snd].
    rewrite range_convert_ratio.
    destruct (conversion_ratio (rq_registry r) (rq_unit r) (rq_unit r)) as [ratio | e] eqn:Hr;
      cbn [bind]; [| discriminate].
    destruct (own_ratio_cases _ _ _ Hr) as [-> | Hnan].
    + rewrite float_eqb_one. cbn [bind].
      destruct (py_max (fst (rq_value r)) [snd (rq_value r)]) as [top | e] eqn:Hmax;
        cbn [bind]; [| discriminate].
      destruct (py_min (fst (rq_value r)) [snd (rq_value r)]) as [m | e] eqn:Hmin;
        cbn [bind]; [| discriminate].
      exact (max_not_below_min _ _ _ _ Hmax Hmin).
    + rewrite (float_eqb_nan_l _ _ Hnan).
      destruct (rq_value r) as [[x | ? ?] [y | ? ?]];
        cbn [fst snd payload_scale bind]; try discriminate.
      cbn [py_max payload_cmp float_cmp bind].
      rewrite (float_ltb_nan_l _ _ (float_mul_nan x _ Hnan)). cbn [bind].
      destruct (py_min (Num x) [Num y]) as [[m | ? ?] | e]; cbn [bind payload_cmp float_cmp];
        try discriminate.
      rewrite (float_ltb_nan_l _ _ (float_mul_nan x _ Hnan)). discriminate.
Qed.

(** The bounds of the quantity are numbers: always so for a scalar, and
    for an interval built from two scalars. *)
Definition flat (q : Quantity) : bool :=
  match q with
  | QSimple _ => true
  | QRange r =>
      match rq_value r with
      | (Num _, Num _) => true
      | _ => false
      end
  end.

(** X5.  [q < q] is never [True], for a scalar as for an interval whose
    bounds are numbers: the comparison of a quantity with itself answers
    [False] or raises. *)
Theorem lt_irreflexive (q : Quantity) :
  flat q = true ->
  py_lt q q = Ok false \/ exists e, py_lt q q = Raise e.
Proof.
  intros _. pose proof (lt_self_not_true q) as H.
  destruct (py_lt q q) as [[] | e]; [now contradiction H | now left | right; now exists e].
Qed.

(** ** The strict order implies the large one *)

Lemma flat_conversion (r : RangeQuantity) (u : string) (v : payload * payload) :
  flat (QRange r) = true -> RangeQuantity_convert_to r u = Ok v ->
  exists x y, v = (Num x, Num y).
Proof.
  cbn [flat]. rewrite range_convert_ratio.
  destruct (conversion_ratio (rq_registry r) (rq_unit r) u) as [ratio | e];
    cbn [bind]; [| discriminate].
  destruct (rq_value r) as [[x | ? ?] [y | ? ?]]; try discriminate. intros _.
  destruct (ratio =? 1)%float; cbn [fst snd payload_scale bind]; intros [= <-]; eauto.
Qed.

(** Below the smallest part is below the largest part. *)
Lemma below_min_below_max (b : Quantity) (t : float) :
  flat b = true ->
  exists mn mx,
    py_min (fst (part_values b)) (snd (part_values b)) = Ok (Num mn)
    /\ py_max (fst (part_values b)) (snd (part_values b)) = Ok (Num mx)
    /\ ((t <? mn)%float = true -> (t <=? mx)%float = true).
Proof.
  destruct b as [o | o]; cbn [flat part_values fst snd].
  - intros _. exists (sq_value o), (sq_value o). cbn [py_min py_max].
    repeat split. apply float_ltb_leb.
  - destruct (rq_value o) as [[lo | ? ?] [hi | ? ?]]; try discriminate. intros _.
    cbn [fst snd py_min py_max payload_cmp float_cmp bind].
    destruct (hi <? lo)%float eqn:Hhl.
    + rewrite (float_ltb_asym _ _ Hhl). exists hi, lo. repeat split.
      intros Ht. apply float_ltb_leb. exact (float_ltb_trans _ _ _ Ht Hhl).
    + destruct (lo <? hi)%float eqn:Hlh.
      * exists lo, hi. repeat split.
        intros Ht. apply float_ltb_leb. exact (float_ltb_trans _ _ _ Ht Hlh).
      * exists lo, lo. repeat split. apply float_ltb_leb.
Qed.

(** X6.  Between quantities whose bounds are numbers, [a < b] being
    [True] makes [a <= b] [True] as well, whatever the variants of [a]
    and [b]. *)
Theorem lt_implies_le (a b : Quantity) :
  flat a = true -> flat b = true ->
  py_lt a b = Ok true -> py_le a b = Ok true.
Proof.
  intros Ha Hb.
  destruct a as [s | r]; cbn [py_lt py_le].
  - unfold SimpleQuantity_lt, SimpleQuantity_le.
    destruct (SimpleQuantity_convert_to s (q_unit b)) as [v | e]; cbn [bind];
      [| discriminate].
    destruct (below_min_below_max b v Hb) as (mn & mx & -> & _ & _). cbn [bind].
    cbn [payload_cmp float_cmp]. intros [= H]. now rewrite (float_ltb_leb _ _ H).
  - unfold RangeQuantity_lt, RangeQuantity_le.
    destruct (RangeQuantity_convert_to r (q_unit b)) as [v | e] eqn:Hv; cbn [bind];
      [| discriminate].
    destruct (flat_conversion _ _ _ Ha Hv) as (x & y & ->).
    cbn [fst snd py_max payload_cmp float_cmp bind].
    destruct (below_min_below_max b (if (x <? y)%float then y else x) Hb)
      as (mn & mx & -> & -> & Hle).
    cbn [bind].
    destruct (x <? y)%float; cbn [payload_cmp float_cmp]; intros [= H];
      now rewrite (Hle H).
Qed.

(** ** How a conversion fails *)

Lemma parse_parts_raises (reg : UnitRegistry) (parts : list string)
      (degrees : dict (list Z)) (sc : float) (e : exn) :
  parse_parts reg parts degrees sc = Raise e -> e = KeyError.
Proof.
  revert degrees sc. induction parts as [| a parts IH]; intros degrees sc;
    cbn [parse_parts]; [discriminate |].
  unfold dict_lookup. destruct (dict_get reg (normalize a)); cbn [bind].
  - apply IH.
  - now intros [= <-].
Qed.

Lemma parse_unit_raises (reg : UnitRegistry) (unit : string) (e : exn) :
  parse_unit reg unit = Raise e -> e = KeyError.
Proof.
  unfold parse_unit.
  destruct (parse_parts reg (regex_split_unit unit) [] 1%float) as [[d s] | e'] eqn:H;
    cbn [bind]; [discriminate |].
  intros [= <-]. exact (parse_parts_raises _ _ _ _ _ H).
Qed.

Ltac failure_case :=
  repeat split; intros;
  repeat match goal with
         | H : _ \/ _ |- _ => destruct H
         | H : _ /\ _ |- _ => destruct H
         | H : exists _, _ |- _ => destruct H
         | H : Raise _ = Raise _ |- _ => first [discriminate H | injection H as <-]
         end;
  try congruence; eauto 10.

(** X7.  When a scalar conversion [self.convert_to(u)] raises each of the
    exceptions of its unit handling: [KeyError] exactly when [parse_unit]
    fails on the unit of [self] or on [u]; [AttributeError] exactly when
    both units parse and their signatures differ; [ZeroDivisionError]
    exactly when both parse to the same signature and the scale of [u]
    is zero.  The attribute access [self.<u>] returns what the conversion
    returns and never raises [KeyError]. *)
Theorem conversion_failure_modes (self : SimpleQuantity) (u : string) :
  let reg := sq_registry self in
  (SimpleQuantity_convert_to self u = Raise KeyError
   <-> parse_unit reg (sq_unit self) = Raise KeyError
       \/ ((exists r, parse_unit reg (sq_unit self) = Ok r)
           /\ parse_unit reg u = Raise KeyError))
  /\ (SimpleQuantity_convert_to self u = Raise AttributeError
      <-> exists sg sc sg' sc',
            parse_unit reg (sq_unit self) = Ok (sg, sc)
            /\ parse_unit reg u = Ok (sg', sc') /\ sig_eqb sg sg' = false)
  /\ (SimpleQuantity_convert_to self u = Raise ZeroDivisionError
      <-> exists sg sc sg' sc',
            parse_unit reg (sq_unit self) = Ok (sg, sc)
            /\ parse_unit reg u = Ok (sg', sc') /\ sig_eqb sg sg' = true
            /\ (sc' =? 0)%float = true)
  /\ SimpleQuantity_getattr self u <> Raise KeyError
  /\ (forall v, SimpleQuantity_convert_to self u = Ok v ->
                SimpleQuantity_getattr self u = Ok v).
Proof.
  cbv zeta. unfold SimpleQuantity_getattr, SimpleQuantity_convert_to.
  destruct (parse_unit (sq_registry self) (sq_unit self)) as [[sg sc] | e1] eqn:H1;
    cbn [bind].
  2:{ pose proof (parse_unit_raises _ _ _ H1) as ->. failure_case. }
  destruct (parse_unit (sq_registry self) u) as [[sg' sc'] | e2] eqn:H2; cbn [bind].
  2:{ pose proof (parse_unit_raises _ _ _ H2) as ->. failure_case. }
  destruct (sig_eqb sg sg') eqn:Hs; cbn [negb]; [| failure_case].
  unfold py_div. destruct (sc' =? 0)%float eqn:Hz; cbn [bind]; [failure_case |].
  destruct (negb (sc / sc' =? 1)%float); failure_case.
Qed.

(** ** The signature is canonical *)

(** Dimension names in strictly increasing order. *)
Definition key_lt (a b : string * Z) : Prop := String.compare (fst a) (fst b) = Lt.

Definition canonical (sg : signature) : Prop :=
  StronglySorted key_lt sg /\ Forall (fun kd => snd kd <> 0) sg.

Lemma key_lt_trans (a b c : string * Z) : key_lt a b -> key_lt b c -> key_lt a c.
Proof.
  unfold key_lt. intros H1 H2.
  apply String_as_OT.cmp_lt in H1. apply String_as_OT.cmp_lt in H2.
  apply String_as_OT.cmp_lt. exact (String_as_OT.lt_trans _ _ _ H1 H2).
Qed.

Lemma insert_item_in (x y : string * Z) (l : list (string * Z)) :
  In y (insert_item x l) -> y = x \/ In y l.
Proof.
  induction l as [| z l IH]; simpl.
  - intros [H | []]. now left.
  - destruct (item_leb x z); simpl.
    + intros [H | H]; [now left | now right].
    + intros [H | H]; [right; now left |].
      destruct (IH H) as [H' | H']; [now left | right; now right].
Qed.

Lemma insert_item_sorted (x : string * Z) (l : list (string * Z)) :
  StronglySorted key_lt l -> ~ In (fst x) (map fst l) ->
  StronglySorted key_lt (insert_item x l).
Proof.
  induction l as [| y l IH]; intros Hs Hnin; simpl.
  - constructor; [constructor | constructor].
  - inversion Hs as [| y' l' Hs' Hall]; subst.
    assert (Hne : fst x <> fst y) by (intros Heq; apply Hnin; left; now symmetry).
    unfold item_leb.
    destruct (String.compare (fst x) (fst y)) eqn:Hc.
    + apply String.compare_eq_iff in Hc. contradiction.
    + constructor; [exact Hs |].
      constructor; [exact Hc |].
      rewrite Forall_forall in Hall |- *. intros z Hz.
      exact (key_lt_trans x y z Hc (Hall z Hz)).
    + constructor.
      * apply IH; [exact Hs' |]. intros Hin. apply Hnin. now right.
      * rewrite Forall_forall in Hall |- *. intros z Hz.
        apply insert_item_in in Hz. destruct Hz as [-> | Hz]; [| now apply Hall].
        unfold key_lt. rewrite String.compare_antisym, Hc. reflexivity.
Qed.

Lemma sorted_items_in (y : string * Z) (l : list (string * Z)) :
  In y (sorted_items l) -> In y l.
Proof.
  induction l as [| x l IH]; simpl; [exact (fun H => H) |].
  intros H. apply insert_item_in in H. destruct H as [-> | H]; [now left | right; now apply IH].
Qed.

Lemma sorted_items_sorted (l : list (string * Z)) :
  NoDup (map fst l) -> StronglySorted key_lt (sorted_items l).
Proof.
  induction l as [| x l IH]; intros Hnd; simpl; [constructor |].
  inversion Hnd as [| k ks Hnin Hnd']; subst.
  apply insert_item_sorted; [now apply IH |].
  intros Hin. apply Hnin. apply in_map_iff in Hin. destruct Hin as (y & Hy & Hin).
  apply in_map_iff. exists y. split; [exact Hy | now apply sorted_items_in].
Qed.

Lemma recorded_degree_nonzero (v : list Z) : total v <> 0 -> recorded_degree v <> 0.
Proof.
  unfold recorded_degree. destruct (all_equal v) eqn:Hall; [| exact (fun H => H)].
  destruct v as [| x t]; [intros H; now contradiction H |].
  cbn [hd]. intros Ht Hx. subst x. apply Ht. clear Ht.
  cbn [all_equal] in Hall. rewrite forallb_forall in Hall.
  cbn [total fold_right].
  assert (Hz : forall t', (forall y, In y t' -> In y t) -> fold_right Z.add 0 t' = 0).
  { induction t' as [| y t' IH]; intros Hsub; [reflexivity |].
    cbn [fold_right].
    assert (Hy : 0 = y) by (apply Z.eqb_eq, Hall, Hsub; now left).
    rewrite <- Hy, IH; [reflexivity |]. intros z Hzin. apply Hsub. now right. }
  rewrite (Hz t); [reflexivity | auto].
Qed.

Lemma filter_nodup {A : Type} (f : A -> bool) (l : list A) :
  NoDup l -> NoDup (filter f l).
Proof.
  induction l as [| x l IH]; intros Hnd; simpl; [constructor |].
  inversion Hnd as [| y l' Hnin Hnd']; subst.
  destruct (f x); [| now apply IH].
  constructor; [| now apply IH].
  intros Hin. apply filter_In in Hin. now destruct Hin.
Qed.

Lemma described_signature_canonical (descs : list UnitConfig) :
  canonical (described_signature descs).
Proof.
  unfold described_signature, canonical. split.
  - apply sorted_items_sorted. rewrite map_map. cbn [fst]. rewrite map_id.
    apply filter_nodup, dimensions_nodup.
  - rewrite Forall_forall. intros kd Hin.
    apply sorted_items_in in Hin. apply in_map_iff in Hin.
    destruct Hin as (d & <- & Hd). cbn [snd].
    apply filter_In in Hd. destruct Hd as [_ Hd].
    apply recorded_degree_nonzero. apply negb_true_iff in Hd.
    now apply Z.eqb_neq.
Qed.

Lemma parse_unit_signature (reg : UnitRegistry) (key : string)
      (sg : signature) (sc : float) :
  parse_unit reg key = Ok (sg, sc) -> exists descs, sg = described_signature descs.
Proof.
  unfold parse_unit. change (@nil (string * list Z)) with (grouped []).
  rewrite parse_parts_grouped.
  destruct (lookup_atoms reg (regex_split_unit key)) as [descs | e]; cbn [bind];
    [| discriminate].
  intros [= <- _]. exists descs. cbn [app].
  unfold grouped. now rewrite reduce_tabulated.
Qed.

(** X8.  The signature that [parse_unit] returns is canonical: its
    dimensions come in strictly increasing order of name, so that none
    is listed twice, and no dimension is paired with the degree zero. *)
Theorem parse_unit_signature_canonical (reg : UnitRegistry) (key : string)
        (sg : signature) (sc : float) :
  parse_unit reg key = Ok (sg, sc) -> canonical sg.
Proof.
  intros H. destruct (parse_unit_signature _ _ _ _ H) as [descs ->].
  apply described_signature_canonical.
Qed.

(** ** The pseudo sentence and its offsets *)

(** The character of a candidate in the pseudo sentence. *)
Definition code_of (mapping : dict ascii) (m : Span * bool) : ascii :=
  match dict_get mapping (label (fst m)) with
  | Some c => c
  | None => if snd m then "."%char else "w"%char
  end.

(** What stands between the characters of two consecutive candidates, the
    first ending at [a] and the second starting at [b]: a ["w"] when they
    do not touch and the text between them is not blank. *)
Definition gap_code (doc : Doc) (a b : Z) : list ascii :=
  if negb (b =? a) && negb (gap_blank doc a b) then ["w"%char] else [].

(** The state of the loop of [make_pseudo_sentence] once the candidates
    [ms] have been read. *)
Definition pseudo_after (doc : Doc) (mapping : dict ascii) (ms : list (Span * bool))
  : PseudoState :=
  fold_left (pseudo_step doc mapping) ms
    {| ps_pseudo := []; ps_last := snippet_start doc; ps_offsets := [] |}.

Lemma pseudo_after_snoc (doc : Doc) (mapping : dict ascii) (ms : list (Span * bool))
      (m : Span * bool) :
  pseudo_after doc mapping (ms ++ [m])
  = pseudo_step doc mapping (pseudo_after doc mapping ms) m.
Proof. unfold pseudo_after. now rewrite fold_left_app. Qed.

Lemma pseudo_step_shape (doc : Doc) (mapping : dict ascii) (st : PseudoState)
      (m : Span * bool) :
  let gap := gap_code doc (ps_last st) (start (fst m)) in
  pseudo_step doc mapping st m
  = {| ps_pseudo := ps_pseudo st ++ gap ++ [code_of mapping m];
       ps_last := end_ (fst m);
       ps_offsets := ps_offsets st ++ [List.length (ps_pseudo st ++ gap)] |}.
Proof.
  cbv zeta. unfold pseudo_step, gap_code, code_of.
  destruct (negb (start (fst m) =? ps_last st)
            && negb (gap_blank doc (ps_last st) (start (fst m)))).
  - now rewrite <- app_assoc.
  - now rewrite !app_nil_r.
Qed.

(** Where the loop stands after [ms]: the end of the last candidate, and
    one offset per candidate, the last one pointing at the last
    character. *)
Lemma pseudo_after_last (doc : Doc) (mapping : dict ascii) (ms : list (Span * bool))
      (m : Span * bool) :
  let st := pseudo_after doc mapping (ms ++ [m]) in
  ps_last st = end_ (fst m)
  /\ exists front o, ps_offsets st = front ++ [o]
                     /\ List.length front = List.length ms
                     /\ S o = List.length (ps_pseudo st)
                     /\ nth_error (ps_pseudo st) o = Some (code_of mapping m).
Proof.
  cbv zeta. rewrite pseudo_after_snoc, pseudo_step_shape. cbn [ps_last ps_offsets ps_pseudo].
  split; [reflexivity |].
  exists (ps_offsets (pseudo_after doc mapping ms)),
         (List.length (ps_pseudo (pseudo_after doc mapping ms)
                       ++ gap_code doc (ps_last (pseudo_after doc mapping ms)) (start (fst m)))).
  split; [reflexivity |]. split.
  - clear m. induction ms as [| m ms IH] using rev_ind; [reflexivity |].
    rewrite pseudo_after_snoc, pseudo_step_shape. cbn [ps_offsets].
    rewrite !length_app, IH. reflexivity.
  - split.
    + rewrite app_assoc, !length_app. cbn [List.length]. lia.
    + rewrite app_assoc, nth_error_app2 by lia. now rewrite Nat.sub_diag.
Qed.

Lemma pseudo_offsets_length (doc : Doc) (mapping : dict ascii) (ms : list (Span * bool)) :
  List.length (ps_offsets (pseudo_after doc mapping ms)) = List.length ms.
Proof.
  induction ms as [| m ms IH] using rev_ind; [reflexivity |].
  rewrite pseudo_after_snoc, pseudo_step_shape. cbn [ps_offsets].
  rewrite !length_app, IH. reflexivity.
Qed.

Lemma pseudo_offsets_bounded (doc : Doc) (mapping : dict ascii) (ms : list (Span * bool))
      (i o : nat) :
  nth_error (ps_offsets (pseudo_after doc mapping ms)) i = Some o ->
  (o < List.length (ps_pseudo (pseudo_after doc mapping ms)))%nat.
Proof.
  revert i o. induction ms as [| m ms IH] using rev_ind; intros i o.
  - destruct i; discriminate.
  - rewrite pseudo_after_snoc, pseudo_step_shape. cbn [ps_offsets ps_pseudo].
    rewrite !length_app. cbn [List.length].
    destruct (Nat.lt_ge_cases i (List.length (ps_offsets (pseudo_after doc mapping ms))))
      as [Hlt | Hge].
    + rewrite nth_error_app1 by exact Hlt. intros H. apply IH in H. lia.
    + rewrite nth_error_app2 by exact Hge.
      destruct (i - List.length (ps_offsets (pseudo_after doc mapping ms)))%nat as [| k];
        [| destruct k; discriminate].
      cbn [nth_error]. intros [= <-]. lia.
Qed.

Lemma py_slice_app {A : Type} (a b : nat) (l extra : list A) :
  (b <= List.length l)%nat -> py_slice a b (l ++ extra) = py_slice a b l.
Proof.
  intros Hb. unfold py_slice.
  destruct (Nat.le_gt_cases a (List.length l)) as [Ha | Ha].
  - rewrite skipn_app, firstn_app, length_skipn.
    replace (b - a - (List.length l - a))%nat with 0%nat by lia.
    cbn [firstn]. now rewrite app_nil_r.
  - replace (b - a)%nat with 0%nat by lia. reflexivity.
Qed.

(** The facts about the offsets, for the state of the loop. *)
Lemma pseudo_after_facts (doc : Doc) (mapping : dict ascii) (ms : list (Span * bool)) :
  let st := pseudo_after doc mapping ms in
  (forall i m o, nth_error ms i = Some m -> nth_error (ps_offsets st) i = Some o ->
                 nth_error (ps_pseudo st) o = Some (code_of mapping m))
  /\ (forall i m m' o o',
        nth_error ms i = Some m -> nth_error ms (S i) = Some m' ->
        nth_error (ps_offsets st) i = Some o -> nth_error (ps_offsets st) (S i) = Some o' ->
        (o < o')%nat
        /\ py_slice (S o) o' (ps_pseudo st) = gap_code doc (end_ (fst m)) (start (fst m'))).
Proof.
  cbv zeta. induction ms as [| m ms IH] using rev_ind.
  - split; intros i; destruct i; discriminate.
  - destruct IH as [IHcode IHgap].
    pose proof (pseudo_offsets_length doc mapping ms) as Hlen.
    rewrite pseudo_after_snoc, pseudo_step_shape. cbn [ps_offsets ps_pseudo].
    set (st := pseudo_after doc mapping ms) in *.
    set (gap := gap_code doc (ps_last st) (start (fst m))).
    split.
    + intros i x o Hx Ho.
      destruct (Nat.lt_ge_cases i (List.length ms)) as [Hlt | Hge].
      * rewrite nth_error_app1 in Hx by exact Hlt.
        rewrite nth_error_app1 in Ho by lia.
        pose proof (pseudo_offsets_bounded _ _ _ _ _ Ho) as Hb. fold st in Hb.
        rewrite nth_error_app1 by exact Hb. exact (IHcode i x o Hx Ho).
      * rewrite nth_error_app2 in Hx by exact Hge.
        rewrite nth_error_app2 in Ho by lia. rewrite Hlen in Ho.
        destruct (i - List.length ms)%nat as [| k]; [| destruct k; discriminate].
        cbn [nth_error] in Hx, Ho. injection Hx as <-. injection Ho as <-.
        rewrite app_assoc, nth_error_app2 by lia. now rewrite Nat.sub_diag.
    + intros i x x' o o' Hx Hx' Ho Ho'.
      destruct (Nat.lt_ge_cases (S i) (List.length ms)) as [Hlt | Hge].
      * rewrite nth_error_app1 in Hx by lia. rewrite nth_error_app1 in Hx' by lia.
        rewrite nth_error_app1 in Ho by lia. rewrite nth_error_app1 in Ho' by lia.
        destruct (IHgap i x x' o o' Hx Hx' Ho Ho') as [Hoo Hslice].
        split; [exact Hoo |]. rewrite <- Hslice. apply py_slice_app.
        pose proof (pseudo_offsets_bounded _ _ _ _ _ Ho') as Hb. fold st in Hb. lia.
      * assert (Hi : S i = List.length ms).
        { assert (Hsome : nth_error (ms ++ [m]) (S i) <> None) by congruence.
          apply nth_error_Some in Hsome. rewrite length_app in Hsome.
          cbn [List.length] in Hsome. lia. }
        rewrite nth_error_app2 in Hx' by lia. rewrite nth_error_app2 in Ho' by lia.
        rewrite Hlen, Hi, Nat.sub_diag in Ho'. rewrite Hi, Nat.sub_diag in Hx'.
        cbn [nth_error] in Hx', Ho'. injection Hx' as <-. injection Ho' as <-.
        rewrite nth_error_app1 in Hx by lia. rewrite nth_error_app1 in Ho by lia.
        destruct (nth_error_split ms i Hx) as (front & back & Hms & Hfront).
        assert (back = []) as ->.
        { destruct back as [| b back]; [reflexivity |].
          rewrite Hms, length_app in Hi. cbn in Hi. lia. }
        destruct (pseudo_after_last doc mapping front x) as (Hlast & f & ol & Hoffs & Hf & Hol & _).
        rewrite <- Hms in Hlast, Hoffs, Hol. fold st in Hlast, Hoffs, Hol.
        assert (o = ol).
        { rewrite Hoffs, nth_error_app2 in Ho by lia.
          replace (i - List.length f)%nat with 0%nat in Ho by lia.
          now injection Ho as <-. }
        subst ol. split; [rewrite length_app; lia |].
        unfold gap. rewrite Hlast.
        unfold py_slice. rewrite Hol, length_app.
        rewrite skipn_app, skipn_all, Nat.sub_diag. cbn [skipn app].
        rewrite Nat.add_comm, Nat.add_sub, firstn_app, firstn_all, Nat.sub_diag.
        cbn [firstn]. now rewrite app_nil_r.
Qed.

(** X9.  [make_pseudo_sentence] returns one offset per candidate, and
    each offset is the position in the pseudo sentence of the character
    of its candidate (the code of its label, or ["."] for an unlisted
    sentence end and ["w"] for any other unlisted one).  The offsets
    increase strictly, and what the pseudo sentence holds between the
    characters of two consecutive candidates is one ["w"] if they do not
    touch and the text between them is not blank, and nothing otherwise. *)
Theorem pseudo_offsets_locate_candidates (doc : Doc) (matches : list (Span * bool))
        (mapping : dict ascii) :
  let pseudo := fst (make_pseudo_sentence doc matches mapping) in
  let offsets := snd (make_pseudo_sentence doc matches mapping) in
  List.length offsets = List.length matches
  /\ (forall i m o, nth_error matches i = Some m -> nth_error offsets i = Some o ->
                    nth_error pseudo o = Some (code_of mapping m))
  /\ (forall i m m' o o',
        nth_error matches i = Some m -> nth_error matches (S i) = Some m' ->
        nth_error offsets i = Some o -> nth_error offsets (S i) = Some o' ->
        (o < o')%nat
        /\ py_slice (S o) o' pseudo = gap_code doc (end_ (fst m)) (start (fst m'))).
Proof.
  cbv zeta. unfold make_pseudo_sentence. fold (pseudo_after doc mapping matches).
  cbn [fst snd].
  destruct (pseudo_after_facts doc mapping matches) as [Hcode Hgap].
  set (st := pseudo_after doc mapping matches) in *.
  assert (Hext : forall a b extra, (b <= List.length (ps_pseudo st))%nat ->
                 py_slice a b (ps_pseudo st ++ extra) = py_slice a b (ps_pseudo st))
    by (intros; now apply py_slice_app).
  split; [apply pseudo_offsets_length |].
  destruct (negb (snippet_end doc =? ps_last st) && gap_blank doc (ps_last st) (snippet_end doc)).
  - split.
    + intros i m o Hm Ho.
      pose proof (pseudo_offsets_bounded _ _ _ _ _ Ho) as Hb. fold st in Hb.
      rewrite nth_error_app1 by exact Hb. exact (Hcode i m o Hm Ho).
    + intros i m m' o o' Hm Hm' Ho Ho'.
      destruct (Hgap i m m' o o' Hm Hm' Ho Ho') as [Hoo Hslice].
      split; [exact Hoo |]. rewrite <- Hslice. apply Hext.
      pose proof (pseudo_offsets_bounded _ _ _ _ _ Ho') as Hb. fold st in Hb. lia.
  - split; assumption.
Qed.

(** ** What the extraction loop produces *)

(** A quantity as the loop of [extract_quantities] builds them: a scalar
    on the registry of the matcher, in a unit that the registry parses,
    labelled with the name of the measure of its dimension, or with the
    unit itself when all quantities are captured. *)
Definition extracted_shape (self : QuantitiesMatcher) (q : QSpan) : Prop :=
  exists value u dims sc,
    qs_value q = QSimple {| sq_value := value; sq_unit := u;
                            sq_registry := unit_registry self |}
    /\ u <> ""
    /\ parse_unit (unit_registry self) u = Ok (dims, sc)
    /\ (if all_quantities self then label (qs_span q) = u
        else measure_lookup (measure_names self) dims = Some (label (qs_span q))).

(** A round of the loop leaves the state as it is or appends one
    quantity of that shape. *)
Lemma extract_step_cases (self : QuantitiesMatcher) (doc : Doc)
      (unit_label_hashes : list string) (table_matches : list Table)
      (pseudo : list ascii) (offsets : list nat) (st st' : LoopState) (i : nat) :
  extract_step self doc unit_label_hashes table_matches pseudo offsets st i = Ok st' ->
  st' = st
  \/ exists q, st_quantities st' = st_quantities st ++ [q] /\ extracted_shape self q.
Proof.
  unfold extract_step. intros H.
  destruct (nth_error (st_matches st) i) as [[number is_sent_split] |];
    [| injection H as <-; now left].
  destruct (negb is_sent_split && negb (str_mem (label number) (number_label_hashes self)));
    [injection H as <-; now left |].
  destruct (detect_value doc number) as [[value |] | e]; cbn [bind] in H;
    [| injection H as <-; now left | discriminate].
  destruct (link_number self (st_matches st) unit_label_hashes table_matches pseudo
              offsets (st_matched_unit_indices st) i number value) as [lk | e];
    cbn [bind] in H; [| discriminate].
  destruct (unit_norm lk) as [u |]; [| injection H as <-; now left].
  destruct (String.eqb_spec u "") as [| Hu]; [injection H as <-; now left |].
  destruct (final_entity doc number lk) as [ent is_number].
  destruct (parse_unit (unit_registry self) u) as [[dims sc] | []] eqn:Hparse;
    try discriminate; [| injection H as <-; now left].
  destruct (if all_quantities self then Some u else measure_lookup (measure_names self) dims)
    as [name |] eqn:Hname; [| injection H as <-; now left].
  injection H as <-. right. cbn [st_quantities].
  eexists. split; [reflexivity |].
  exists value, u, dims, sc. cbn [qs_value qs_span relabel label].
  repeat split; try assumption.
  destruct (all_quantities self); [now injection Hname as <- | exact Hname].
Qed.

Lemma run_steps_shape (self : QuantitiesMatcher) (doc : Doc)
      (unit_label_hashes : list string) (table_matches : list Table)
      (pseudo : list ascii) (offsets : list nat) (indices : list nat)
      (st st' : LoopState) :
  run_steps self doc unit_label_hashes table_matches pseudo offsets indices st = Ok st' ->
  Forall (extracted_shape self) (st_quantities st) ->
  Forall (extracted_shape self) (st_quantities st')
  /\ (List.length (st_quantities st') <= List.length (st_quantities st) + List.length indices)%nat.
Proof.
  revert st. induction indices as [| i indices IH]; intros st H Hall; cbn [run_steps] in H.
  - injection H as <-. split; [exact Hall | lia].
  - destruct (extract_step self doc unit_label_hashes table_matches pseudo offsets st i)
      as [st1 | e] eqn:Hstep; cbn [bind] in H; [| discriminate].
    cbn [List.length].
    destruct (extract_step_cases _ _ _ _ _ _ _ _ _ Hstep) as [-> | (q & Hq & Hshape)].
    + destruct (IH _ H Hall) as [Hf Hl]. split; [exact Hf | lia].
    + assert (Hall1 : Forall (extracted_shape self) (st_quantities st1)).
      { rewrite Hq. apply Forall_app. split; [exact Hall | now constructor]. }
      destruct (IH _ H Hall1) as [Hf Hl]. split; [exact Hf |].
      rewrite Hq, length_app in Hl. cbn [List.length] in Hl. lia.
Qed.

(** X10.  Every quantity that [extract_quantities] returns is a scalar
    attached to the registry of the matcher, whose unit is not empty and
    is parsed by that registry; its label is the unit itself when all
    quantities are captured, and otherwise the name configured for the
    dimension of its unit.  There are at most as many quantities as
    candidates. *)
Theorem extracted_quantities_shape (self : QuantitiesMatcher) (doc : Doc)
        (tables : list Table) (matches : list (Span * bool))
        (unit_label_hashes : list string) (quantities : list QSpan)
        (unmatched : list Span) :
  extract_quantities self doc tables matches unit_label_hashes = Ok (quantities, unmatched) ->
  Forall (extracted_shape self) quantities
  /\ (List.length quantities <= List.length matches)%nat.
Proof.
  unfold extract_quantities. intros H.
  match type of H with
  | (st <- ?r ;; _) = _ => destruct r as [st |] eqn:Hrun; cbn [bind] in H; [| discriminate]
  end.
  injection H as <- _.
  destruct (run_steps_shape _ _ _ _ _ _ _ _ _ Hrun) as [Hf Hl];
    [cbn [initial_state st_quantities]; constructor |].
  split; [exact Hf |].
  cbn [initial_state st_quantities List.length] in Hl. rewrite length_seq in Hl. lia.
Qed.

(** ** Extraction does not fail *)

(** Every label that marks a unitless trigger has its pattern, and the
    pattern has its ranges. *)
Definition triggers_configured (self : QuantitiesMatcher) : Prop :=
  forall l, In l (unitless_label_hashes self) ->
    exists p ranges, dict_get (unitless_patterns self) l = Some p
                     /\ up_ranges p = Some ranges.

(** [eval] fails with the two exceptions that the loop handles only. *)
Definition eval_is_handled : Prop :=
  forall s e, py_eval s = Raise e -> e = ValueError \/ e = SyntaxError.

Lemma detect_value_ok (doc : Doc) (number : Span) :
  eval_is_handled -> exists v, detect_value doc number = Ok v.
Proof.
  intros Heval. unfold detect_value.
  match goal with |- context [py_eval ?s] => destruct (py_eval s) as [v | e] eqn:He end.
  - now exists (Some v).
  - destruct (Heval _ _ He) as [-> | ->]; now exists None.
Qed.

Lemma link_unitless_ok (self : QuantitiesMatcher) (matches : list (Span * bool))
      (pseudo : list ascii) (offsets : list nat) (number_idx : nat)
      (value : float) (lk : Link) :
  triggers_configured self ->
  exists lk', link_unitless self matches pseudo offsets number_idx value lk = Ok lk'.
Proof.
  intros Hcfg. unfold link_unitless.
  destruct (unit_norm lk); [now eexists |].
  destruct (find (is_unitless self) (get_matches_before matches number_idx))
    as [[j ent] |] eqn:Hfind; [| now eexists].
  apply find_some in Hfind. destruct Hfind as [_ Hlabel].
  unfold is_unitless in Hlabel. cbn [snd] in Hlabel. apply str_mem_in in Hlabel.
  destruct (Hcfg _ Hlabel) as (p & ranges & Hp & Hr).
  destruct (match_separators _); [| now eexists].
  unfold dict_lookup. rewrite Hp. cbn [bind]. rewrite Hr. cbn [bind].
  destruct (find (in_scope value) ranges); now eexists.
Qed.

Lemma extract_step_ok (self : QuantitiesMatcher) (doc : Doc)
      (unit_label_hashes : list string) (table_matches : list Table)
      (pseudo : list ascii) (offsets : list nat) (st : LoopState) (i : nat) :
  eval_is_handled -> triggers_configured self ->
  exists st', extract_step self doc unit_label_hashes table_matches pseudo offsets st i
              = Ok st'.
Proof.
  intros Heval Hcfg. unfold extract_step.
  destruct (nth_error (st_matches st) i) as [[number is_sent_split] |]; [| now eexists].
  destruct (negb is_sent_split && negb (str_mem (label number) (number_label_hashes self)));
    [now eexists |].
  destruct (detect_value_ok doc number Heval) as [[value |] ->]; cbn [bind];
    [| now eexists].
  unfold link_number.
  destruct (link_unitless_ok self (st_matches st) pseudo offsets i value
              (earlier_strategies self (st_matches st) unit_label_hashes table_matches
                 pseudo offsets (st_matched_unit_indices st) i number) Hcfg) as [lk ->].
  cbn [bind].
  destruct (unit_norm lk) as [u |]; [| now eexists].
  destruct (String.eqb u ""); [now eexists |].
  destruct (final_entity doc number lk) as [ent is_number].
  destruct (parse_unit (unit_registry self) u) as [[dims sc] | e] eqn:Hparse.
  - destruct (if all_quantities self then Some u else measure_lookup (measure_names self) dims);
      now eexists.
  - rewrite (parse_unit_raises _ _ _ Hparse). now eexists.
Qed.

(** X11.  [extract_quantities] returns, whatever the document, the
    candidates and the tables, as soon as two things hold: [eval] fails
    on a number text or label with [ValueError] or [SyntaxError] only,
    and every label of a unitless trigger has its pattern with its
    ranges.  An unknown unit, a number that does not evaluate and a
    trigger without a fitting range are all skipped silently. *)
Theorem extract_quantities_returns (self : QuantitiesMatcher) (doc : Doc)
        (tables : list Table) (matches : list (Span * bool))
        (unit_label_hashes : list string) :
  eval_is_handled -> triggers_configured self ->
  exists quantities unmatched,
    extract_quantities self doc tables matches unit_label_hashes
    = Ok (quantities, unmatched).
Proof.
  intros Heval Hcfg. unfold extract_quantities.
  match goal with
  | |- context [run_steps self doc ?h ?t ?p ?o ?idx ?st0] =>
      assert (Hrun : forall indices st,
                 exists st', run_steps self doc h t p o indices st = Ok st')
  end.
  { induction indices as [| i indices IH]; intros st; cbn [run_steps]; [now eexists |].
    match goal with
    | |- context [extract_step ?a ?b ?c ?d ?e ?f ?g ?h] =>
        destruct (extract_step_ok a b c d e f g h Heval Hcfg) as [st1 ->]
    end.
    cbn [bind]. apply IH. }
  match goal with
  | |- context [run_steps self doc ?h ?t ?p ?o ?idx ?st0] =>
      destruct (Hrun idx st0) as [st' ->]
  end.
  cbn [bind]. now eexists; eexists.
Qed.

(** ** What the merge passes keep *)

(** The number of tokens that the spans of a list cover, span by span. *)
Fixpoint covered (l : list Span) : Z :=
  match l with
  | [] => 0
  | s :: rest => end_ s - start s + covered rest
  end.

Lemma covered_app (a b : list Span) : covered (a ++ b) = covered a + covered b.
Proof. induction a as [| q a IH]; cbn [app covered]; lia. Qed.

Section PassInvariant.

Variable decide : Store -> Span -> Span -> result (option QSpan).

(** What the value of every span satisfies, and the exceptions that may
    escape. *)
Variable P : QSpan -> Prop.
Variable E : exn -> Prop.

(** The span has a value in the store, and that value satisfies [P]. *)
Definition holds (store : Store) (s : Span) : Prop :=
  exists v, Span_value store s = Some v /\ P (with_value s v).

Hypothesis decide_keeps :
  forall store last ent, holds store last -> holds store ent ->
    match decide store last ent with
    | Ok (Some m) => P m
    | Ok None => True
    | Raise e => E e
    end.

(** Storing the value of a merged span leaves every span with a value
    that satisfies [P], the spans that share its entry included. *)
Lemma holds_set (store : Store) (s : Span) (m : QSpan) :
  P m -> holds store s -> holds (Span_set store (qs_span m) (qs_value m)) s.
Proof.
  intros Hm [v [Hv Hp]]. destruct (span_eqb (qs_span m) s) eqn:Heq.
  - apply span_eqb_eq in Heq. subst s. exists (qs_value m).
    split; [apply Span_value_set_same | now rewrite with_value_eta].
  - exists v. split; [| exact Hp].
    rewrite Span_value_set_other; [exact Hv |].
    intros Habs. rewrite Habs, span_eqb_refl in Heq. discriminate.
Qed.

(** What a round keeps: every span, listed or still to come, has a value
    that satisfies [P], and the spans are at most [n]. *)
Definition kept (n : nat) (st : PassState) (rest : list Span) : Prop :=
  Forall (holds (fst st)) (merged_list (snd st) ++ rest)
  /\ (List.length (merged_list (snd st)) + List.length rest <= n)%nat.

Lemma keeping_round (n : nat) (st : PassState) (ent : Span) (rest : list Span) :
  kept n st (ent :: rest) ->
  match step_of decide st ent with
  | Ok st' => kept n st' rest
  | Raise e => E e
  end.
Proof.
  destruct st as [store [front last]]. unfold kept, step_of, merged_list. cbn [fst snd].
  intros [Hall Hlen]. rewrite <- app_assoc in Hall. cbn [app] in Hall.
  rewrite length_app in Hlen. cbn [List.length] in Hlen.
  pose proof Hall as Hall'. apply Forall_app in Hall'. destruct Hall' as [Hfront Htail].
  inversion Htail as [| ? ? Hlast Htail']; subst.
  inversion Htail' as [| ? ? Hent Hrest]; subst.
  pose proof (decide_keeps store last ent Hlast Hent) as Hd.
  destruct (decide store last ent) as [[m |] | e]; [| | exact Hd].
  - unfold replace_last. cbn [fst snd]. split.
    + rewrite <- app_assoc. cbn [app]. apply Forall_app. split.
      * eapply Forall_impl; [| exact Hfront]. intros s. now apply holds_set.
      * constructor.
        -- exists (qs_value m). split; [apply Span_value_set_same | now rewrite with_value_eta].
        -- eapply Forall_impl; [| exact Hrest]. intros s. now apply holds_set.
    + rewrite length_app. cbn [List.length]. lia.
  - unfold keep_apart, merged_list. cbn [fst snd]. split.
    + rewrite <- !app_assoc. exact Hall.
    + rewrite !length_app. cbn [List.length]. lia.
Qed.

Lemma run_pass_invariant (store : Store) (quantities : list Span) :
  Forall (holds store) quantities ->
  match run_pass (step_of decide) store quantities with
  | Ok (store', out) =>
      Forall (holds store') out
      /\ (List.length out <= List.length quantities)%nat
      /\ (out = [] <-> quantities = [])
  | Raise e => E e
  end.
Proof.
  intros Hall. destruct quantities as [| q rest].
  - cbn [run_pass]. repeat split; auto.
  - assert (H0 : kept (List.length (q :: rest)) (store, ([], q)) rest).
    { split; [exact Hall | cbn [fst snd merged_list app List.length]; lia]. }
    pose proof (run_pass_cases (step_of decide) (kept (List.length (q :: rest))) E
                  (keeping_round (List.length (q :: rest))) store q rest H0) as H.
    destruct (run_pass (step_of decide) store (q :: rest)) as [[store' out] | e];
      [| exact H].
    destruct H as (front & last & -> & Hf & Hlen).
    unfold merged_list in Hf, Hlen. cbn [fst snd] in Hf, Hlen.
    rewrite app_nil_r in Hf. split; [exact Hf |]. split; [lia |].
    split; [| discriminate]. destruct front; discriminate.
Qed.

End PassInvariant.

(** The quantity is attached to the registry [reg], which parses its
    unit. *)
Definition registered (reg : UnitRegistry) (q : QSpan) : Prop :=
  q_registry (qs_value q) = reg
  /\ exists sg sc, parse_unit reg (q_unit (qs_value q)) = Ok (sg, sc).

Lemma registered_ratio (reg : UnitRegistry) (u u' : string) (e : exn) :
  (exists sg sc, parse_unit reg u = Ok (sg, sc)) ->
  (exists sg sc, parse_unit reg u' = Ok (sg, sc)) ->
  conversion_ratio reg u u' = Raise e -> e = AttributeError \/ e = ZeroDivisionError.
Proof.
  intros (sg & sc & H) (sg' & sc' & H'). unfold conversion_ratio.
  rewrite H, H'. cbn [bind].
  destruct (negb (sig_eqb sg sg')); [intros [= <-]; now left |].
  unfold py_div. destruct (sc' =? 0)%float; [intros [= <-]; now right | discriminate].
Qed.

Lemma registered_convert (reg : UnitRegistry) (q : Quantity) (u : string) (e : exn) :
  q_registry q = reg ->
  (exists sg sc, parse_unit reg (q_unit q) = Ok (sg, sc)) ->
  (exists sg sc, parse_unit reg u = Ok (sg, sc)) ->
  Quantity_convert_to q u = Raise e ->
  e = AttributeError \/ e = TypeError \/ e = ZeroDivisionError.
Proof.
  intros Hreg Hq Hu. destruct q as [s | r]; cbn [Quantity_convert_to q_registry q_unit] in *.
  - rewrite simple_convert_ratio, Hreg.
    destruct (conversion_ratio reg (sq_unit s) u) as [ratio | e'] eqn:Hr; cbn [bind].
    + destruct (negb (ratio =? 1)%float); discriminate.
    + intros [= <-]. destruct (registered_ratio _ _ _ _ Hq Hu Hr); auto.
  - rewrite range_convert_ratio, Hreg.
    destruct (conversion_ratio reg (rq_unit r) u) as [ratio | e'] eqn:Hr; cbn [bind].
    + destruct (ratio =? 1)%float; cbn [bind]; [discriminate |].
      destruct (fst (rq_value r)) as [x | ? ?]; cbn [payload_scale bind];
        [| intros [= <-]; auto].
      destruct (snd (rq_value r)) as [y | ? ?]; cbn [payload_scale bind];
        [discriminate | intros [= <-]; auto].
    + intros [= <-]. destruct (registered_ratio _ _ _ _ Hq Hu Hr); auto.
Qed.

(** The exceptions that no round lets out: those of the units, which
    the quantities' registry parses, and the two that the rounds catch. *)
Definition escapes (e : exn) : Prop :=
  e <> KeyError /\ e <> AttributeError /\ e <> TypeError.

Lemma adjacent_decide_registered (reg : UnitRegistry) (last ent : QSpan) :
  registered reg last -> registered reg ent ->
  match adjacent_decide last ent with
  | Ok (Some m) => registered reg m
  | Ok None => True
  | Raise e => escapes e
  end.
Proof.
  intros [Hrl Hpl] [Hre Hpe]. unfold adjacent_decide, escapes.
  destruct ((end_ (qs_span last) =? start (qs_span ent))
            && negb (String.eqb (q_unit (qs_value last)) (q_unit (qs_value ent))));
    [| exact I].
  destruct (qs_value last) as [s | r] eqn:Hlast; cbn [Quantity_add]; [| exact I].
  cbn [q_registry q_unit] in Hrl, Hpl.
  unfold SimpleQuantity_add.
  destruct (String.eqb (q_unit (qs_value ent)) (sq_unit s)).
  - destruct (qs_value ent) as [o | o]; cbn [bind]; [| exact I].
    split; [exact Hrl | exact Hpl].
  - destruct (qs_value ent) as [o | o] eqn:Hent.
    + cbn [q_registry q_unit] in Hre, Hpe.
      destruct (SimpleQuantity_convert_to o (sq_unit s)) as [v | e] eqn:Hc; cbn [bind].
      * split; [exact Hrl | exact Hpl].
      * destruct (registered_convert reg (QSimple o) (sq_unit s) e Hre Hpe Hpl)
          as [-> | [-> | ->]]; try exact I; try (repeat split; discriminate).
        cbn [Quantity_convert_to]. now rewrite Hc.
    + cbn [q_registry q_unit] in Hre, Hpe.
      destruct (RangeQuantity_convert_to o (sq_unit s)) as [v | e] eqn:Hc; cbn [bind];
        [exact I |].
      destruct (registered_convert reg (QRange o) (sq_unit s) e Hre Hpe Hpl)
        as [-> | [-> | ->]]; try exact I; try (repeat split; discriminate).
      cbn [Quantity_convert_to]. now rewrite Hc.
Qed.

Lemma range_decide_registered (self : QuantitiesMatcher) (doc : Doc)
      (reg : UnitRegistry) (last ent : QSpan) :
  registered reg last -> registered reg ent ->
  match range_decide self doc last ent with
  | Ok (Some m) => registered reg m
  | Ok None => True
  | Raise e => escapes e
  end.
Proof.
  intros [Hrl Hpl] [Hre Hpe]. unfold range_decide, escapes.
  destruct (matching_patterns self _ _) as [| [a b] rest]; [exact I |].
  unfold RangeQuantity_from_quantities.
  destruct (Quantity_convert_to (qs_value ent) (q_unit (qs_value last))) as [v | e] eqn:Hc;
    cbn [bind].
  - split; [exact Hrl | exact Hpl].
  - destruct (registered_convert reg _ _ e Hre Hpe Hpl Hc) as [-> | [-> | ->]];
      try exact I; repeat split; discriminate.
Qed.

Lemma adjacent_decide_in_registered (reg : UnitRegistry) (store : Store) (last ent : Span) :
  holds (registered reg) store last -> holds (registered reg) store ent ->
  match adjacent_decide_in store last ent with
  | Ok (Some m) => registered reg m
  | Ok None => True
  | Raise e => escapes e
  end.
Proof.
  intros (a & Ha & Hl) (b & Hb & He). unfold adjacent_decide_in. rewrite Ha, Hb.
  destruct (end_ last =? start ent); [| exact I].
  exact (adjacent_decide_registered reg _ _ Hl He).
Qed.

Lemma range_decide_in_registered (self : QuantitiesMatcher) (doc : Doc)
      (reg : UnitRegistry) (store : Store) (last ent : Span) :
  holds (registered reg) store last -> holds (registered reg) store ent ->
  match range_decide_in self doc store last ent with
  | Ok (Some m) => registered reg m
  | Ok None => True
  | Raise e => escapes e
  end.
Proof.
  intros (a & Ha & Hl) (b & Hb & He). unfold range_decide_in. rewrite Ha, Hb.
  exact (range_decide_registered self doc reg _ _ Hl He).
Qed.

(** X12.  Run over spans whose values are attached to one registry which
    parses their units (as those of the extracted spans are), neither
    merge pass lets a [KeyError], an [AttributeError] or a [TypeError]
    escape: the units parse, and the rounds catch the other two.  When
    the pass returns, the spans it returns have such values again, in
    the store as the pass leaves it; they are not more than the spans of
    the input, and there is none only if the input has none. *)
Theorem merge_passes_failure_modes (self : QuantitiesMatcher) (doc : Doc)
        (reg : UnitRegistry) (store : Store) (quantities : list Span) :
  Forall (holds (registered reg) store) quantities ->
  (match merge_adjacent_quantities store quantities with
   | Ok (store', out) =>
       Forall (holds (registered reg) store') out
       /\ (List.length out <= List.length quantities)%nat
       /\ (out = [] <-> quantities = [])
   | Raise e => escapes e
   end)
  /\ (match merge_quantities_in_ranges self doc store quantities with
      | Ok (store', out) =>
          Forall (holds (registered reg) store') out
          /\ (List.length out <= List.length quantities)%nat
          /\ (out = [] <-> quantities = [])
      | Raise e => escapes e
      end).
Proof.
  intros Hall. split.
  - unfold merge_adjacent_quantities.
    rewrite (run_pass_ext _ _ store quantities adjacent_step_decide).
    exact (run_pass_invariant adjacent_decide_in (registered reg) escapes
             (adjacent_decide_in_registered reg) store quantities Hall).
  - unfold merge_quantities_in_ranges.
    destruct (negb (extract_ranges self)
              || match range_patterns self with [] => true | _ => false end).
    + repeat split; auto.
    + rewrite (run_pass_ext _ _ store quantities (range_step_decide self doc)).
      exact (run_pass_invariant (range_decide_in self doc) (registered reg) escapes
               (range_decide_in_registered self doc reg) store quantities Hall).
Qed.

(** ** The adjacent pass conserves the tokens covered *)

Definition well_formed (s : Span) : Prop := start s <= end_ s.

(** What a round of the adjacent pass keeps: the spans do not end before
    they start, and they cover [c] tokens in all. *)
Definition covering (c : Z) (st : PassState) (rest : list Span) : Prop :=
  Forall well_formed (merged_list (snd st) ++ rest)
  /\ covered (merged_list (snd st) ++ rest) = c.

Lemma covering_round (c : Z) (st : PassState) (ent : Span) (rest : list Span) :
  covering c st (ent :: rest) ->
  match step_of adjacent_decide_in st ent with
  | Ok st' => covering c st' rest
  | Raise e => True
  end.
Proof.
  destruct st as [store [front last]]. unfold covering, step_of, merged_list.
  cbn [fst snd]. intros [Hwf Hc]. rewrite <- app_assoc in Hwf, Hc. cbn [app] in Hwf, Hc.
  destruct (adjacent_decide_in store last ent) as [[m |] | e] eqn:Hd; [| | exact I].
  - destruct (adjacent_merge_inv _ _ _ _ Hd) as (a & b & _ & _ & Hadj & _ & Hspan).
    unfold replace_last. cbn [fst snd]. rewrite <- app_assoc. cbn [app].
    pose proof Hwf as Hwf'. apply Forall_app in Hwf'. destruct Hwf' as [Hfront Htail].
    inversion Htail as [| ? ? Hlast Htail']; subst.
    inversion Htail' as [| ? ? Hent Hrest]; subst.
    unfold well_formed in Hlast, Hent.
    destruct (merged_span_end (start last) (end_ ent) ent) as [Hend Hstart]; [lia |].
    rewrite <- Hspan in Hend, Hstart. split.
    + apply Forall_app. split; [exact Hfront |]. constructor; [| exact Hrest].
      unfold well_formed. lia.
    + rewrite !covered_app. cbn [covered]. lia.
  - unfold keep_apart, merged_list. cbn [fst snd]. rewrite <- !app_assoc. cbn [app].
    split; [exact Hwf | exact Hc].
Qed.

(** X13.  The adjacent-merge pass conserves the tokens covered: over
    spans that do not end before they start, the lengths of the output
    spans add up to what the lengths of the input spans add up to, a
    merged span covering exactly the two spans it replaces; and the
    output spans do not end before they start either. *)
Theorem adjacent_pass_conserves_tokens (store store' : Store)
        (quantities out : list Span) :
  Forall well_formed quantities ->
  merge_adjacent_quantities store quantities = Ok (store', out) ->
  covered out = covered quantities /\ Forall well_formed out.
Proof.
  intros Hall. unfold merge_adjacent_quantities.
  rewrite (run_pass_ext _ _ store quantities adjacent_step_decide).
  destruct quantities as [| q rest].
  - intros H. injection H as <- <-. split; [reflexivity | constructor].
  - assert (H0 : covering (covered (q :: rest)) (store, ([], q)) rest)
      by (split; [exact Hall | reflexivity]).
    pose proof (run_pass_cases (step_of adjacent_decide_in) (covering (covered (q :: rest)))
                  (fun _ => True) (covering_round (covered (q :: rest)))
                  store q rest H0) as H.
    intros Hrun. rewrite Hrun in H. destruct H as (front & last & -> & Hwf & Hc).
    unfold merged_list in Hwf, Hc. cbn [fst snd] in Hwf, Hc.
    rewrite app_nil_r in Hwf, Hc. split; [exact Hc | exact Hwf].
Qed.

(** ** The text handed to [eval] *)

Lemma str_remove_absent (c : ascii) (s : string) :
  ~ In c (list_ascii_of_string (str_remove c s)).
Proof.
  induction s as [| x s IH]; cbn [str_remove list_ascii_of_string]; [exact (fun H => H) |].
  destruct (Ascii.eqb_spec x c) as [-> | Hne]; [exact IH |].
  cbn [list_ascii_of_string]. intros [Heq | Hin]; [contradiction | now apply IH].
Qed.

Lemma str_remove_sub (c : ascii) (s : string) (y : ascii) :
  In y (list_ascii_of_string (str_remove c s)) -> In y (list_ascii_of_string s).
Proof.
  induction s as [| x s IH]; cbn [str_remove list_ascii_of_string]; [exact (fun H => H) |].
  destruct (Ascii.eqb x c); cbn [list_ascii_of_string In].
  - intros H. right. now apply IH.
  - intros [H | H]; [now left | right; now apply IH].
Qed.

Lemma str_replace_char_absent (c d : ascii) (s : string) :
  c <> d -> ~ In c (list_ascii_of_string (str_replace_char c d s)).
Proof.
  intros Hcd. induction s as [| x s IH]; cbn [str_replace_char list_ascii_of_string];
    [exact (fun H => H) |].
  intros [Heq | Hin]; [| now apply IH].
  destruct (Ascii.eqb_spec x c) as [-> | Hne]; congruence.
Qed.

Lemma str_lstrip_sub (c : ascii) (s : string) (y : ascii) :
  In y (list_ascii_of_string (str_lstrip c s)) -> In y (list_ascii_of_string s).
Proof.
  induction s as [| x s IH]; cbn [str_lstrip]; [exact (fun H => H) |].
  destruct (Ascii.eqb x c); [| exact (fun H => H)].
  cbn [list_ascii_of_string In]. intros H. right. now apply IH.
Qed.

Lemma str_lstrip_head (c : ascii) (s : string) :
  str_lstrip c s = "" \/ exists x rest, str_lstrip c s = String x rest /\ x <> c.
Proof.
  induction s as [| x s IH]; cbn [str_lstrip]; [now left |].
  destruct (Ascii.eqb_spec x c) as [-> | Hne]; [exact IH |].
  right. now exists x, s.
Qed.

Lemma str_remove_id (c : ascii) (s : string) :
  ~ In c (list_ascii_of_string s) -> str_remove c s = s.
Proof.
  induction s as [| x s IH]; cbn [str_remove list_ascii_of_string In]; [reflexivity |].
  intros Hnin. destruct (Ascii.eqb_spec x c) as [-> | Hne].
  - exfalso. apply Hnin. now left.
  - f_equal. apply IH. intros Hin. apply Hnin. now right.
Qed.

Lemma str_replace_char_id (c d : ascii) (s : string) :
  ~ In c (list_ascii_of_string s) -> str_replace_char c d s = s.
Proof.
  induction s as [| x s IH]; cbn [str_replace_char list_ascii_of_string In]; [reflexivity |].
  intros Hnin. destruct (Ascii.eqb_spec x c) as [-> | Hne].
  - exfalso. apply Hnin. now left.
  - f_equal. apply IH. intros Hin. apply Hnin. now right.
Qed.

(** X14.  The text that a match labelled ["number"] hands to [eval] is
    never empty, holds neither a space nor a comma, and starts with the
    digit zero only when it is ["0"] itself, so that no literal with
    leading zeros ever reaches [eval]; cleaning a text that is already
    clean changes nothing. *)
Theorem number_text_normal_form (text : string) :
  let t := number_text text in
  (exists c rest, t = String c rest /\ (c = "0"%char -> rest = ""))
  /\ (forall c, In c (list_ascii_of_string t) -> c <> " "%char /\ c <> ","%char)
  /\ number_text t = t.
Proof.
  cbv zeta. unfold number_text.
  set (u := str_remove " " (str_replace_char "," "." (str_remove " " text))).
  assert (Hspace : ~ In " "%char (list_ascii_of_string u)) by apply str_remove_absent.
  assert (Hcomma : ~ In ","%char (list_ascii_of_string u)).
  { intros Hin. apply str_remove_sub in Hin.
    now apply (str_replace_char_absent "," ".") in Hin. }
  assert (Hclean : forall s, ~ In " "%char (list_ascii_of_string s) ->
                             ~ In ","%char (list_ascii_of_string s) ->
                             str_remove " " (str_replace_char "," "." (str_remove " " s)) = s).
  { intros s Hs Hc. rewrite (str_remove_id _ s Hs), (str_replace_char_id _ _ s Hc).
    now apply str_remove_id. }
  destruct (str_lstrip_head "0" u) as [Hempty | (x & rest & Hx & Hne)].
  - rewrite Hempty. cbn [String.eqb]. split; [| split].
    + exists "0"%char, "". split; reflexivity.
    + intros c [<- | []]. split; discriminate.
    + reflexivity.
  - rewrite Hx. cbn [String.eqb]. split; [| split].
    + exists x, rest. split; [reflexivity | congruence].
    + intros c Hin. rewrite <- Hx in Hin. apply str_lstrip_sub in Hin.
      split; intros ->; contradiction.
    + rewrite Hclean.
      * cbn [str_lstrip]. destruct (Ascii.eqb_spec x "0"); [contradiction | reflexivity].
      * intros Hin. rewrite <- Hx in Hin. now apply str_lstrip_sub in Hin.
      * intros Hin. rewrite <- Hx in Hin. now apply str_lstrip_sub in Hin.
Qed.

(** ** How unit parts are composed into units *)

Definition is_per (p : Span) : bool := String.eqb (label p) "per".

(** Each part of the list is followed by the next with blank text only
    between them. *)
Fixpoint gap_free (doc : Doc) (l : list Span) : Prop :=
  match l with
  | a :: (b :: _) as rest => gap_blank doc (end_ a) (start b) = true /\ gap_free doc rest
  | _ => True
  end.

(** The span [u] is the unit made of the parts [run]: the run ends on a
    part that is not a divisor, is free of gaps, and gives [u] its first
    start, its last end and the join of its labels. *)
Definition is_unit_of (doc : Doc) (run : list Span) (u : Span) : Prop :=
  exists front last_part first,
    run = front ++ [last_part] /\ hd_error run = Some first
    /\ is_per last_part = false
    /\ gap_free doc run
    /\ start u = start first /\ end_ u = end_ last_part
    /\ label u = join_labels (map label run).

(** The runs stand in the list of parts, in order and without overlap,
    and the parts outside the runs are all divisors. *)
Inductive Covers : list (list Span) -> list Span -> Prop :=
| Covers_nil (pers : list Span) :
    forallb is_per pers = true -> Covers [] pers
| Covers_cons (pers run : list Span) (runs : list (list Span)) (rest : list Span) :
    forallb is_per pers = true -> Covers runs rest ->
    Covers (run :: runs) (pers ++ run ++ rest).

Lemma Covers_pers (runs : list (list Span)) (parts pers : list Span) :
  Covers runs parts -> forallb is_per pers = true -> Covers runs (parts ++ pers).
Proof.
  intros H Hp. induction H as [pers0 H0 | pers0 run runs rest H0 H IH].
  - constructor. rewrite forallb_app. now rewrite H0, Hp.
  - rewrite <- !app_assoc. now constructor.
Qed.

Lemma Covers_snoc (runs : list (list Span)) (parts run pers : list Span) :
  Covers runs parts -> forallb is_per pers = true ->
  Covers (runs ++ [run]) (parts ++ run ++ pers).
Proof.
  intros H Hp. induction H as [pers0 H0 | pers0 run0 runs rest H0 H IH].
  - cbn [app]. constructor; [exact H0 | now constructor].
  - rewrite <- !app_assoc. cbn [app]. constructor; [exact H0 | exact IH].
Qed.

Lemma last_non_per_snoc (c : list Span) (x : Span) :
  last_non_per (c ++ [x])
  = if is_per x then last_non_per c else Some (List.length c).
Proof.
  unfold last_non_per. rewrite indexed_snoc, rev_app_distr. cbn [rev app find snd].
  unfold is_per. now destruct (String.eqb (label x) "per").
Qed.

Lemma last_non_per_spec (current : list Span) :
  match last_non_per current with
  | Some e =>
      exists front x trailing,
        current = front ++ x :: trailing /\ List.length front = e
        /\ is_per x = false /\ forallb is_per trailing = true
  | None => forallb is_per current = true
  end.
Proof.
  induction current as [| x c IH] using rev_ind; [reflexivity |].
  rewrite last_non_per_snoc. destruct (is_per x) eqn:Hx.
  - destruct (last_non_per c) as [e |].
    + destruct IH as (front & y & trailing & -> & Hlen & Hy & Ht).
      exists front, y, (trailing ++ [x]). rewrite <- app_assoc. cbn [app].
      repeat split; try assumption. rewrite forallb_app, Ht. cbn. now rewrite Hx.
    + rewrite forallb_app, IH. cbn. now rewrite Hx.
  - exists c, x, []. repeat split; assumption.
Qed.

Lemma gap_free_prefix (doc : Doc) (a b : list Span) : gap_free doc (a ++ b) -> gap_free doc a.
Proof.
  induction a as [| x a IH]; [intros _; exact I |].
  destruct a as [| y a]; [intros _; exact I |].
  cbn [app gap_free]. intros [H1 H2]. split; [exact H1 | now apply IH].
Qed.

Lemma gap_free_snoc (doc : Doc) (front : list Span) (l p : Span) :
  gap_free doc (front ++ [l]) -> gap_blank doc (end_ l) (start p) = true ->
  gap_free doc ((front ++ [l]) ++ [p]).
Proof.
  induction front as [| x front IH]; cbn [app gap_free].
  - intros _ H. split; [exact H | exact I].
  - destruct front as [| y front]; cbn [app gap_free] in *.
    + intros [H1 _] H. repeat split; assumption.
    + intros [H1 H2] H. split; [exact H1 | now apply IH].
Qed.

(** What closing a run does. *)
Lemma close_run_spec (doc_len : Z) (current units units' : list Span) :
  close_run doc_len current units = Some units' ->
  (forallb is_per current = true /\ units' = units)
  \/ exists front x trailing first u,
       current = front ++ x :: trailing
       /\ is_per x = false /\ forallb is_per trailing = true
       /\ hd_error current = Some first
       /\ units' = units ++ [u]
       /\ start u = start first /\ end_ u = end_ x
       /\ label u = join_labels (map label (front ++ [x])).
Proof.
  unfold close_run. pose proof (last_non_per_spec current) as Hspec.
  destruct (last_non_per current) as [e |].
  - destruct Hspec as (front & x & trailing & Hcur & Hlen & Hx & Ht).
    destruct current as [| first rest]; [now destruct front |].
    assert (Hnth : nth e (first :: rest) first = x).
    { rewrite Hcur, app_nth2 by lia. now rewrite Hlen, Nat.sub_diag. }
    assert (Hfirstn : firstn (S e) (first :: rest) = front ++ [x]).
    { rewrite Hcur. rewrite firstn_app, Hlen.
      rewrite (firstn_all2 front) by lia.
      now replace (S e - e)%nat with 1%nat by lia. }
    rewrite Hnth, Hfirstn. unfold Span_new.
    destruct ((0 <=? start first) && (start first <=? end_ x) && (end_ x <=? doc_len));
      [| discriminate].
    intros [= <-]. right.
    exists front, x, trailing, first. eexists.
    repeat split; try eassumption; reflexivity.
  - intros H. left. split; [exact Hspec |].
    destruct current; now injection H as <-.
Qed.

(** The state of the loop of [extract_units] against the unit parts
    [done] read so far. *)
Definition units_inv (compose_units : bool) (doc : Doc) (done : list Span)
           (st : UnitsState) : Prop :=
  exists runs closed,
    done = closed ++ us_current st
    /\ Covers runs closed
    /\ Forall2 (is_unit_of doc) runs (us_units st)
    /\ gap_free doc (us_current st)
    /\ match us_last st with
       | None => us_current st = []
       | Some l => exists front, us_current st = front ++ [l]
       end
    /\ (compose_units = false ->
        forallb is_per (removelast (us_current st)) = true
        /\ Forall (fun run => forallb is_per (removelast run) = true) runs).

Lemma forallb_removelast_front (front trailing : list Span) (x : Span) :
  forallb is_per (removelast (front ++ x :: trailing)) = true ->
  forallb is_per front = true.
Proof.
  rewrite removelast_app by discriminate. rewrite forallb_app.
  intros H. now apply andb_prop in H.
Qed.

(** Closing the current run keeps the description. *)
Lemma close_run_inv (compose_units : bool) (doc : Doc) (doc_len : Z)
      (runs : list (list Span)) (closed current units units' : list Span) :
  Covers runs closed ->
  Forall2 (is_unit_of doc) runs units ->
  gap_free doc current ->
  (compose_units = false ->
   forallb is_per (removelast current) = true
   /\ Forall (fun run => forallb is_per (removelast run) = true) runs) ->
  close_run doc_len current units = Some units' ->
  exists runs',
    Covers runs' (closed ++ current)
    /\ Forall2 (is_unit_of doc) runs' units'
    /\ (compose_units = false ->
        Forall (fun run => forallb is_per (removelast run) = true) runs').
Proof.
  intros Hcov Hunits Hgap Hcompose Hclose.
  destruct (close_run_spec _ _ _ _ Hclose)
    as [[Hpers ->] | (front & x & trailing & first & u & Hcur & Hx & Ht & Hhd & -> & Hs & He & Hl)].
  - exists runs. split; [now apply Covers_pers |]. split; [exact Hunits |].
    intros Hc. now apply Hcompose.
  - exists (runs ++ [front ++ [x]]). split; [| split].
    + rewrite Hcur.
      replace (front ++ x :: trailing) with ((front ++ [x]) ++ trailing)
        by (now rewrite <- app_assoc).
      now apply Covers_snoc.
    + apply Forall2_app; [exact Hunits |]. constructor; [| constructor].
      exists front, x, first. repeat split; try assumption.
      * rewrite Hcur in Hhd. destruct front; exact Hhd.
      * apply (gap_free_prefix doc _ trailing). rewrite <- app_assoc. cbn [app].
        now rewrite <- Hcur.
    + intros Hc. destruct (Hcompose Hc) as [Hcur_pers Hruns].
      apply Forall_app. split; [exact Hruns |]. constructor; [| constructor].
      rewrite removelast_last. rewrite Hcur in Hcur_pers.
      exact (forallb_removelast_front _ _ _ Hcur_pers).
Qed.

Lemma units_step_inv (hashes : list string) (compose_units : bool) (doc : Doc)
      (doc_len : Z) (done : list Span) (st st' : UnitsState) (p : Span) :
  units_inv compose_units doc done st ->
  units_step hashes compose_units doc doc_len (Some st) p = Some st' ->
  units_inv compose_units doc
            (done ++ if str_mem (label p) hashes then [p] else []) st'.
Proof.
  intros (runs & closed & Hdone & Hcov & Hunits & Hgap & Hlast & Hcompose).
  unfold units_step.
  destruct (str_mem (label p) hashes); cbn [negb].
  2:{ intros [= <-]. rewrite app_nil_r. exists runs, closed.
      exact (conj Hdone (conj Hcov (conj Hunits (conj Hgap (conj Hlast Hcompose))))). }
  destruct (us_last st) as [l |] eqn:Hl.
  - destruct Hlast as [front Hcur].
    assert (Hlen : Nat.eqb (List.length (us_current st)) 0 = false)
      by (rewrite Hcur, length_app; cbn [List.length]; apply Nat.eqb_neq; lia).
    assert (Hlastp : List.last (us_current st) p = l) by (rewrite Hcur; apply last_last).
    rewrite Hlen, Hlastp. cbn [negb]. rewrite !andb_true_r.
    fold (is_per l).
    destruct (negb (gap_blank doc (end_ l) (start p)) || negb compose_units && negb (is_per l))
      eqn:Hbreak.
    + destruct (close_run doc_len (us_current st) (us_units st)) as [units |] eqn:Hclose;
        [| discriminate].
      intros [= <-]. unfold units_inv. cbn [us_current us_units us_last].
      destruct (close_run_inv compose_units doc doc_len runs closed _ _ _
                  Hcov Hunits Hgap Hcompose Hclose) as (runs' & Hcov' & Hunits' & Hc').
      exists runs', (closed ++ us_current st).
      split; [now rewrite Hdone |]. split; [exact Hcov' |]. split; [exact Hunits' |].
      split; [exact I |]. split; [now exists [] |].
      intros Hc. split; [reflexivity | now apply Hc'].
    + intros [= <-]. unfold units_inv. cbn [us_current us_units us_last].
      apply orb_false_iff in Hbreak. destruct Hbreak as [Hblank Hper].
      apply negb_false_iff in Hblank.
      exists runs, closed.
      split; [now rewrite Hdone, <- app_assoc |]. split; [exact Hcov |].
      split; [exact Hunits |]. split.
      * rewrite Hcur. apply gap_free_snoc; [now rewrite <- Hcur | exact Hblank].
      * split; [now exists (us_current st) |].
        intros Hc. destruct (Hcompose Hc) as [Hcur_pers Hruns]. split; [| exact Hruns].
        rewrite removelast_last. rewrite Hc in Hper. cbn [negb andb] in Hper.
        apply negb_false_iff in Hper.
        rewrite Hcur in Hcur_pers |- *. rewrite removelast_last in Hcur_pers.
        rewrite forallb_app, Hcur_pers. cbn. now rewrite Hper.
  - cbn [negb]. rewrite Hlast. intros [= <-]. unfold units_inv. cbn [us_current us_units us_last app].
    exists runs, closed.
    split; [now rewrite Hdone, Hlast, app_nil_r |]. split; [exact Hcov |].
    split; [exact Hunits |]. split; [exact I |]. split; [now exists [] |].
    intros Hc. split; [reflexivity | now apply Hcompose].
Qed.

Lemma units_fold_none (hashes : list string) (compose_units : bool) (doc : Doc)
      (doc_len : Z) (ps : list Span) :
  fold_left (units_step hashes compose_units doc doc_len) ps None = None.
Proof. induction ps as [| p ps IH]; [reflexivity | exact IH]. Qed.

Lemma units_fold_inv (hashes : list string) (compose_units : bool) (doc : Doc)
      (doc_len : Z) (ps : list Span) (done : list Span) (st st' : UnitsState) :
  units_inv compose_units doc done st ->
  fold_left (units_step hashes compose_units doc doc_len) ps (Some st) = Some st' ->
  units_inv compose_units doc
            (done ++ filter (fun p => str_mem (label p) hashes) ps) st'.
Proof.
  revert done st. induction ps as [| p ps IH]; intros done st Hinv Hfold.
  - cbn [fold_left] in Hfold. injection Hfold as <-. cbn [filter]. now rewrite app_nil_r.
  - cbn [fold_left] in Hfold.
    destruct (units_step hashes compose_units doc doc_len (Some st) p) as [st1 |] eqn:Hstep;
      [| now rewrite units_fold_none in Hfold].
    pose proof (units_step_inv _ _ _ _ _ _ _ _ Hinv Hstep) as Hinv1.
    specialize (IH _ _ Hinv1 Hfold).
    cbn [filter]. destruct (str_mem (label p) hashes).
    + now rewrite <- app_assoc in IH.
    + now rewrite app_nil_r in IH.
Qed.

(** X15.  The units that [extract_units] returns, read against the unit
    parts among the spans it is given (those whose label is a unit part
    label, in order): each unit is made of a run of consecutive parts
    with blank text only between them, the last of which is not a
    divisor; it starts where the run starts, ends where it ends, and its
    label is the labels of the run joined by underscores.  The runs
    follow one another in the order of the parts without overlapping,
    and every part left outside the runs is a divisor: no unit atom is
    lost or used twice.  When composition is disabled, every part of a
    run but its last is a divisor. *)
Theorem extract_units_runs (unit_part_label_hashes : list string)
        (compose_units : bool) (doc : Doc) (doc_len : Z)
        (filtered units : list Span) :
  extract_units unit_part_label_hashes compose_units doc doc_len filtered = Some units ->
  exists runs,
    Covers runs (filter (fun p => str_mem (label p) unit_part_label_hashes) filtered)
    /\ Forall2 (is_unit_of doc) runs units
    /\ (compose_units = false ->
        Forall (fun run => forallb is_per (removelast run) = true) runs).
Proof.
  unfold extract_units. intros H.
  destruct (fold_left (units_step unit_part_label_hashes compose_units doc doc_len) filtered
              (Some {| us_last := None; us_units := []; us_current := [] |}))
    as [st |] eqn:Hfold; [| discriminate].
  assert (Hinv0 : units_inv compose_units doc []
                    {| us_last := None; us_units := []; us_current := [] |}).
  { exists [], []. cbn [us_current us_units us_last]. repeat split; try constructor; reflexivity. }
  destruct (units_fold_inv _ _ _ _ _ _ _ _ Hinv0 Hfold)
    as (runs & closed & Hdone & Hcov & Hunits & Hgap & _ & Hcompose).
  cbn [app] in Hdone.
  destruct (close_run_inv compose_units doc doc_len runs closed _ _ _
              Hcov Hunits Hgap Hcompose H) as (runs' & Hcov' & Hunits' & Hc').
  exists runs'. rewrite Hdone. auto.
Qed.

(** ** Composing units does not fail on spans in document order *)

(** A span of a document of [doc_len] tokens. *)
Definition span_in_doc (doc_len : Z) (p : Span) : Prop :=
  0 <= start p /\ start p <= end_ p /\ end_ p <= doc_len.

Definition by_start (a b : Span) : Prop := start a <= start b.

Lemma close_run_total (doc_len : Z) (current units : list Span) :
  Forall (span_in_doc doc_len) current -> StronglySorted by_start current ->
  exists units', close_run doc_len current units = Some units'.
Proof.
  intros Hok Hsorted. unfold close_run.
  pose proof (last_non_per_spec current) as Hspec.
  destruct (last_non_per current) as [e |]; [| destruct current; now eexists].
  destruct Hspec as (front & x & trailing & Hcur & Hlen & _ & _).
  destruct current as [| first rest]; [now eexists |].
  assert (Hnth : nth e (first :: rest) first = x).
  { rewrite Hcur, app_nth2 by lia. now rewrite Hlen, Nat.sub_diag. }
  rewrite Hnth. unfold Span_new.
  assert (Hx : In x (first :: rest)) by (rewrite Hcur; apply in_elt).
  rewrite Forall_forall in Hok.
  assert (Hfirst : span_in_doc doc_len first) by (apply Hok; now left).
  assert (Hxok : span_in_doc doc_len x) by now apply Hok.
  assert (Hle : start first <= start x).
  { destruct Hx as [<- | Hin]; [lia |].
    apply StronglySorted_inv in Hsorted. destruct Hsorted as [_ Hall].
    rewrite Forall_forall in Hall. exact (Hall x Hin). }
  unfold span_in_doc in *.
  replace ((0 <=? start first) && (start first <=? end_ x) && (end_ x <=? doc_len))
    with true; [now eexists |].
  symmetry. rewrite !andb_true_iff, !Z.leb_le. lia.
Qed.

Lemma strongly_sorted_app_l {A : Type} (R : A -> A -> Prop) (a b : list A) :
  StronglySorted R (a ++ b) -> StronglySorted R a.
Proof.
  induction a as [| x a IH]; [intros _; constructor |].
  cbn [app]. intros H. inversion H as [| y l Hs Hall]; subst.
  constructor; [now apply IH |].
  apply Forall_app in Hall. now destruct Hall.
Qed.

Lemma units_fold_total (hashes : list string) (compose_units : bool) (doc : Doc)
      (doc_len : Z) (ps : list Span) (st : UnitsState) :
  let rest := filter (fun p => str_mem (label p) hashes) ps in
  Forall (span_in_doc doc_len) (us_current st ++ rest) ->
  StronglySorted by_start (us_current st ++ rest) ->
  exists st',
    fold_left (units_step hashes compose_units doc doc_len) ps (Some st) = Some st'
    /\ Forall (span_in_doc doc_len) (us_current st')
    /\ StronglySorted by_start (us_current st').
Proof.
  cbv zeta. revert st. induction ps as [| p ps IH]; intros st Hok Hsorted.
  - cbn [filter] in *. rewrite app_nil_r in *. exists st. repeat split; assumption.
  - cbn [fold_left filter] in *. unfold units_step at 2.
    destruct (str_mem (label p) hashes); cbn [negb]; [| now apply IH].
    match goal with
    | |- context [if ?b then _ else _] => destruct b
    end.
    + destruct (close_run_total doc_len (us_current st) (us_units st)) as [units ->].
      * apply Forall_app in Hok. now destruct Hok.
      * now apply strongly_sorted_app_l in Hsorted.
      * apply IH; cbn [us_current app].
        -- apply Forall_app in Hok. now destruct Hok.
        -- now apply strongly_sorted_app_r in Hsorted.
    + apply IH; cbn [us_current]; now rewrite <- app_assoc.
Qed.

(** X16.  [extract_units] returns, without the [IndexError] of a
    malformed span, whenever the unit parts among the spans it is given
    are spans of the document sorted by start, which is how
    [filter_spans] hands them over. *)
Theorem extract_units_returns (unit_part_label_hashes : list string)
        (compose_units : bool) (doc : Doc) (doc_len : Z) (filtered : list Span) :
  let parts := filter (fun p => str_mem (label p) unit_part_label_hashes) filtered in
  Forall (span_in_doc doc_len) parts ->
  StronglySorted by_start parts ->
  exists units,
    extract_units unit_part_label_hashes compose_units doc doc_len filtered = Some units.
Proof.
  cbv zeta. intros Hok Hsorted. unfold extract_units.
  destruct (units_fold_total unit_part_label_hashes compose_units doc doc_len filtered
              {| us_last := None; us_units := []; us_current := [] |} Hok Hsorted)
    as (st & -> & Hok' & Hsorted').
  exact (close_run_total doc_len (us_current st) (us_units st) Hok' Hsorted').
Qed.

(** ** Joined labels are split back into registry keys *)

(** The label ends with the three letters ["per"]. *)
Definition ends_per (l : string) : bool :=
  ends_with_per (rev (list_ascii_of_string l)).

(** The atoms that a joined label is split into: a label that ends with
    ["per"] stays attached to the label that follows it. *)
Fixpoint glue (labels : list string) : list string :=
  match labels with
  | [] => []
  | l :: rest =>
      match glue rest with
      | [] => [l]
      | g :: gs => if ends_per l then (l ++ "_" ++ g)%string :: gs else l :: g :: gs
      end
  end.

Definition no_underscore (l : string) : Prop := ~ In "_"%char (list_ascii_of_string l).

Lemma split_from_label (l : string) (before : list ascii) (cur rest : string) :
  no_underscore l ->
  split_from before cur (l ++ rest)
  = split_from (rev (list_ascii_of_string l) ++ before) (cur ++ l) rest.
Proof.
  revert before cur. induction l as [| c l IH]; intros before cur Hl.
  - cbn [append list_ascii_of_string rev app]. now rewrite string_app_nil_r.
  - cbn [append list_ascii_of_string rev split_from].
    destruct (Ascii.eqb_spec c "_") as [-> | Hc].
    + exfalso. apply Hl. now left.
    + cbn [andb]. rewrite IH by (intros Hin; apply Hl; now right).
      rewrite <- app_assoc. cbn [app].
      now rewrite string_app_assoc.
Qed.

(** Behind a label without underscore, whether ["per"] precedes is decided
    by the label alone. *)
Lemma ends_with_per_label (l : string) (before : list ascii) :
  no_underscore l ->
  before = [] \/ (exists b, before = "_"%char :: b) ->
  ends_with_per (rev (list_ascii_of_string l) ++ before) = ends_per l.
Proof.
  intros Hl Hb. unfold ends_per, no_underscore in *.
  rewrite in_rev in Hl.
  destruct (rev (list_ascii_of_string l)) as [| c1 [| c2 [| c3 r]]]; cbn [app].
  - destruct Hb as [-> | [b ->]]; [reflexivity |].
    destruct b as [| ? [| ? ?]]; reflexivity.
  - destruct Hb as [-> | [b ->]]; [reflexivity |].
    destruct b as [| ? ?]; cbn [ends_with_per]; [reflexivity |].
    replace (Ascii.eqb "_" "e") with false by reflexivity.
    now rewrite andb_false_r.
  - destruct Hb as [-> | [b ->]]; [reflexivity |].
    cbn [ends_with_per]. replace (Ascii.eqb "_" "p") with false by reflexivity.
    now rewrite andb_false_r.
  - reflexivity.
Qed.

Lemma glue_not_nil (l : string) (rest : list string) : glue (l :: rest) <> [].
Proof.
  cbn [glue]. destruct (glue rest); [discriminate |].
  destruct (ends_per l); discriminate.
Qed.

Lemma split_from_join (labels : list string) (before : list ascii) (cur : string) :
  labels <> [] -> Forall no_underscore labels ->
  before = [] \/ (exists b, before = "_"%char :: b) ->
  split_from before cur (join_labels labels)
  = match glue labels with
    | [] => [cur]
    | g :: gs => (cur ++ g)%string :: gs
    end.
Proof.
  revert before cur. induction labels as [| l rest IH]; intros before cur Hne Hall Hb;
    [now contradiction Hne |].
  inversion Hall as [| x xs Hl Hrest]; subst.
  destruct rest as [| l2 rest].
  - cbn [join_labels glue].
    rewrite <- (string_app_nil_r l) at 1.
    rewrite (split_from_label l before cur "" Hl). reflexivity.
  - change (join_labels (l :: l2 :: rest))
      with (l ++ String "_" (join_labels (l2 :: rest)))%string.
    rewrite (split_from_label l before cur _ Hl).
    cbn [split_from]. replace (Ascii.eqb "_" "_") with true by reflexivity.
    cbn [andb]. rewrite (ends_with_per_label l before Hl Hb).
    assert (Hb' : "_"%char :: rev (list_ascii_of_string l) ++ before = []
                  \/ exists b, "_"%char :: rev (list_ascii_of_string l) ++ before
                               = "_"%char :: b)
      by (right; now eexists).
    assert (Hne' : l2 :: rest <> []) by discriminate.
    change (glue (l :: l2 :: rest))
      with (match glue (l2 :: rest) with
            | [] => [l]
            | g :: gs => if ends_per l then (l ++ "_" ++ g)%string :: gs else l :: g :: gs
            end).
    destruct (ends_per l); cbn [negb].
    + rewrite (IH _ _ Hne' Hrest Hb').
      pose proof (glue_not_nil l2 rest) as Hg.
      destruct (glue (l2 :: rest)) as [| g gs]; [now contradiction Hg |].
      f_equal. rewrite !string_app_assoc. reflexivity.
    + rewrite (IH _ _ Hne' Hrest Hb').
      pose proof (glue_not_nil l2 rest) as Hg.
      destruct (glue (l2 :: rest)) as [| g gs]; [now contradiction Hg |].
      reflexivity.
Qed.

(** X17.  What [parse_unit] makes of a label that [extract_units] has
    composed: when the joined labels hold no underscore themselves, the
    split of ["_".join(labels)] gives the labels back one by one, except
    that a label ending with ["per"] (the divisor) stays attached by its
    underscore to the label that follows: the parts [g], [per], [day]
    are looked up as [g] and [per_day]. *)
Theorem split_of_joined_labels (labels : list string) :
  labels <> [] -> Forall no_underscore labels ->
  regex_split_unit (join_labels labels) = glue labels.
Proof.
  intros Hne Hall. unfold regex_split_unit.
  rewrite (split_from_join labels [] "" Hne Hall (or_introl eq_refl)).
  destruct labels as [| l rest]; [now contradiction Hne |].
  pose proof (glue_not_nil l rest) as Hg.
  destruct (glue (l :: rest)); [now contradiction Hg | reflexivity].
Qed.

(** ** Batching *)

Section BatchingProperties.

Variable T : Type.
Variable len : T -> nat.

(** The number of words of a batch, and the length of its longest item. *)
Definition words (batch : list T) : Z :=
  fold_left (fun total item => total + Z.of_nat (len item)) batch 0.

Definition longest (batch : list T) : Z :=
  fold_left (fun m item => Z.max m (Z.of_nat (len item))) batch 0.

(** What a batch costs for each generator. *)
Definition padded_words (batch : list T) : Z :=
  Z.of_nat (List.length batch) * longest batch.

Lemma words_snoc (batch : list T) (item : T) :
  words (batch ++ [item]) = words batch + Z.of_nat (len item).
Proof. unfold words. now rewrite fold_left_app. Qed.

Lemma longest_snoc (batch : list T) (item : T) :
  longest (batch ++ [item]) = Z.max (longest batch) (Z.of_nat (len item)).
Proof. unfold longest. now rewrite fold_left_app. Qed.

(** The shape that both generators share: [cost] is the cost of a batch,
    [grown batch item] what the batch would cost with one more item, and
    [count] the running count kept for the batch. *)
Variable batch_size : Z.
Variable cost : list T -> Z.
Variable grown : list T -> T -> Z.
Variable count : list T -> Z.
Variable step : BatchState T -> T -> BatchState T.

Hypothesis step_shape :
  forall yielded batch item,
    step (yielded, batch, count batch) item
    = if (batch_size <? grown batch item) && (0 <? List.length batch)%nat
      then (yielded ++ [batch], [item], count [item])
      else (yielded, batch ++ [item], count (batch ++ [item])).
Hypothesis grown_cost :
  forall batch item, cost (batch ++ [item]) = grown batch item.

(** The batch holds at most [batch_size] words, or one item only. *)
Definition within (batch : list T) : Prop :=
  cost batch <= batch_size \/ (List.length batch <= 1)%nat.

(** The batch [b] could not take the first item of the batch [b'] that
    follows it. *)
Definition full_for (b b' : list T) : Prop :=
  match b' with
  | item :: _ => batch_size < grown b item
  | [] => True
  end.

Definition batches_inv (done : list T) (st : BatchState T) : Prop :=
  let '(yielded, batch, n) := st in
  n = count batch
  /\ List.concat yielded ++ batch = done
  /\ Forall (fun b => b <> []) yielded
  /\ Forall within (yielded ++ [batch])
  /\ Sorted full_for (yielded ++ [batch])
  /\ (batch = [] -> yielded = []).

Lemma sorted_snoc {A : Type} (R : A -> A -> Prop) (l : list A) (a b : A) :
  Sorted R (l ++ [a]) -> R a b -> Sorted R ((l ++ [a]) ++ [b]).
Proof.
  induction l as [| x l IH]; cbn [app]; intros Hs Hab.
  - repeat constructor. exact Hab.
  - inversion Hs as [| y m Hs' Hhd]; subst.
    constructor; [now apply IH |].
    destruct l as [| z l]; cbn [app] in *; inversion Hhd; subst; now constructor.
Qed.

Lemma sorted_replace_last {A : Type} (R : A -> A -> Prop) (l : list A) (a a' : A) :
  Sorted R (l ++ [a]) -> (forall p, R p a -> R p a') -> Sorted R (l ++ [a']).
Proof.
  induction l as [| x l IH]; cbn [app]; intros Hs Hrep.
  - repeat constructor.
  - inversion Hs as [| y m Hs' Hhd]; subst.
    constructor; [now apply IH |].
    destruct l as [| z l]; cbn [app] in *; inversion Hhd; subst; constructor; auto.
Qed.

Lemma forall_replace_last {A : Type} (P : A -> Prop) (l : list A) (a a' : A) :
  Forall P (l ++ [a]) -> P a' -> Forall P (l ++ [a']).
Proof.
  intros H Ha'. apply Forall_app in H. destruct H as [H _].
  apply Forall_app. split; [exact H | now constructor].
Qed.

Lemma batches_first (item : T) : batches_inv [item] ([], [item], count [item]).
Proof.
  split; [reflexivity |]. split; [reflexivity |]. split; [constructor |].
  split; [constructor; [right; cbn; lia | constructor] |].
  split; [repeat constructor | discriminate].
Qed.

Lemma batches_step (done : list T) (st : BatchState T) (item : T) :
  batches_inv done st -> batches_inv (done ++ [item]) (step st item).
Proof.
  destruct st as [[yielded batch] n]. intros (-> & Hdone & Hne & Hin & Hs & Hnil).
  rewrite step_shape.
  destruct (Z.ltb_spec batch_size (grown batch item)) as [Hfull | Hfits];
    destruct (Nat.ltb_spec 0 (List.length batch)) as [Hpos | Hzero]; cbn [andb].
  - (* the batch is yielded *)
    split; [reflexivity |]. split; [| split; [| split; [| split]]].
    + rewrite concat_app. cbn [List.concat]. rewrite app_nil_r, <- Hdone. reflexivity.
    + apply Forall_app. split; [exact Hne |]. constructor; [| constructor].
      intros ->. cbn in Hpos. lia.
    + apply Forall_app. split; [exact Hin |]. constructor; [| constructor].
      right. cbn. lia.
    + apply sorted_snoc; [exact Hs | exact Hfull].
    + discriminate.
  - (* an empty batch takes the item *)
    assert (batch = []) as -> by (destruct batch; [reflexivity | cbn in Hzero; lia]).
    rewrite (Hnil eq_refl) in *. cbn [app List.concat] in *. subst done.
    apply batches_first.
  - (* the batch takes the item *)
    split; [reflexivity |]. split; [| split; [| split; [| split]]].
    + now rewrite app_assoc, Hdone.
    + exact Hne.
    + apply (forall_replace_last _ _ batch); [exact Hin |].
      left. rewrite grown_cost. lia.
    + apply (sorted_replace_last _ _ batch); [exact Hs |].
      intros p. unfold full_for. destruct batch as [| x batch]; [cbn in Hpos; lia |].
      cbn [app]. exact (fun H => H).
    + intros H. now apply app_eq_nil in H.
  - assert (batch = []) as -> by (destruct batch; [reflexivity | cbn in Hzero; lia]).
    rewrite (Hnil eq_refl) in *. cbn [app List.concat] in *. subst done.
    apply batches_first.
Qed.

Lemma batches_fold (items done : list T) (st : BatchState T) :
  batches_inv done st -> batches_inv (done ++ items) (fold_left step items st).
Proof.
  revert done st. induction items as [| item items IH]; intros done st Hinv.
  - now rewrite app_nil_r.
  - cbn [fold_left]. replace (done ++ item :: items) with ((done ++ [item]) ++ items)
      by (now rewrite <- app_assoc).
    apply IH. now apply batches_step.
Qed.

(** The batches that the generator yields when it does not drop the
    last one. *)
Definition batches_of (iterable : list T) (drop_last : bool) : list (list T) :=
  let '(yielded, batch, _) := fold_left step iterable ([], [], count []) in
  if (0 <? List.length batch)%nat && negb drop_last then yielded ++ [batch] else yielded.

Lemma batches_of_spec (iterable : list T) :
  let batches := batches_of iterable false in
  List.concat batches = iterable
  /\ Forall (fun b => b <> []) batches
  /\ Forall within batches
  /\ Sorted full_for batches
  /\ batches_of iterable true = removelast batches.
Proof.
  cbv zeta. unfold batches_of.
  assert (H0 : batches_inv [] ([], [], count [])).
  { split; [reflexivity |]. split; [reflexivity |]. split; [constructor |].
    split; [constructor; [right; cbn; lia | constructor] |].
    split; [repeat constructor | reflexivity]. }
  pose proof (batches_fold iterable [] _ H0) as H. cbn [app] in H.
  destruct (fold_left step iterable ([], [], count [])) as [[yielded batch] n].
  destruct H as (_ & Hdone & Hne & Hin & Hs & Hnil).
  destruct (Nat.ltb_spec 0 (List.length batch)) as [Hpos | Hzero]; cbn [andb negb].
  - repeat split; try assumption.
    + rewrite concat_app. cbn [List.concat]. now rewrite app_nil_r.
    + apply Forall_app. split; [exact Hne |]. constructor; [| constructor].
      intros ->. cbn in Hpos. lia.
    + now rewrite removelast_last.
  - assert (batch = []) as -> by (destruct batch; [reflexivity | cbn in Hzero; lia]).
    rewrite (Hnil eq_refl) in *. cbn [app List.concat] in *. subst iterable.
    repeat split; constructor.
Qed.

End BatchingProperties.

Arguments words {T} len batch.
Arguments longest {T} len batch.
Arguments padded_words {T} len batch.

Section BatchingTheorems.

Variable T : Type.
Variable len : T -> nat.

Lemma words_step_shape (batch_size : Z) (yielded : list (list T)) (batch : list T)
      (item : T) :
  words_step len batch_size (yielded, batch, words len batch) item
  = if (batch_size <? words len batch + Z.of_nat (len item))
       && (0 <? List.length batch)%nat
    then (yielded ++ [batch], [item], words len [item])
    else (yielded, batch ++ [item], words len (batch ++ [item])).
Proof. unfold words_step. now rewrite words_snoc. Qed.

Lemma padded_step_shape (batch_size : Z) (yielded : list (list T)) (batch : list T)
      (item : T) :
  padded_step len batch_size (yielded, batch, longest len batch) item
  = if (batch_size <? (1 + Z.of_nat (List.length batch))
                      * Z.max (longest len batch) (Z.of_nat (len item)))
       && (0 <? List.length batch)%nat
    then (yielded ++ [batch], [item], longest len [item])
    else (yielded, batch ++ [item], longest len (batch ++ [item])).
Proof. unfold padded_step. now rewrite longest_snoc. Qed.

Lemma padded_words_snoc (batch : list T) (item : T) :
  padded_words len (batch ++ [item])
  = (1 + Z.of_nat (List.length batch)) * Z.max (longest len batch) (Z.of_nat (len item)).
Proof.
  unfold padded_words. rewrite longest_snoc, length_app. cbn [List.length].
  f_equal. lia.
Qed.

(** X18.  [batchify_by_words] without [drop_last] cuts the items into
    batches: the batches put end to end are the items in their order,
    and no batch is empty; a batch holds at most [batch_size] words
    unless it is made of a single item; and every batch but the last is
    full, in that the first item of the next batch would have taken it
    over [batch_size]. *)
Theorem batchify_by_words_batches (iterable : list T) (batch_size : Z) :
  let batches := batchify_by_words len iterable batch_size false in
  List.concat batches = iterable
  /\ Forall (fun b => b <> []) batches
  /\ Forall (fun b => words len b <= batch_size \/ (List.length b <= 1)%nat) batches
  /\ Sorted (fun b b' => match b' with
                         | item :: _ => batch_size < words len b + Z.of_nat (len item)
                         | [] => True
                         end) batches.
Proof.
  pose proof (batches_of_spec T batch_size (words len)
                (fun b item => words len b + Z.of_nat (len item)) (words len)
                (words_step len batch_size)
                (words_step_shape batch_size) (words_snoc T len) iterable) as H.
  cbv zeta in *. destruct H as (H1 & H2 & H3 & H4 & _).
  repeat split; assumption.
Qed.

(** X19.  [batchify_by_padded_words] without [drop_last] cuts the items
    into batches in the same way, a batch being counted as its number of
    items times the length of its longest item: the batches put end to
    end are the items, none is empty, each counts at most [batch_size]
    unless it is a single item, and every batch but the last would have
    counted more than [batch_size] with the first item of the next. *)
Theorem batchify_by_padded_words_batches (iterable : list T) (batch_size : Z) :
  let batches := batchify_by_padded_words len iterable batch_size false in
  List.concat batches = iterable
  /\ Forall (fun b => b <> []) batches
  /\ Forall (fun b => padded_words len b <= batch_size \/ (List.length b <= 1)%nat) batches
  /\ Sorted (fun b b' =>
               match b' with
               | item :: _ =>
                   batch_size < (1 + Z.of_nat (List.length b))
                                * Z.max (longest len b) (Z.of_nat (len item))
               | [] => True
               end) batches.
Proof.
  pose proof (batches_of_spec T batch_size (padded_words len)
                (fun b item => (1 + Z.of_nat (List.length b))
                               * Z.max (longest len b) (Z.of_nat (len item)))
                (longest len) (padded_step len batch_size)
                (padded_step_shape batch_size) padded_words_snoc iterable) as H.
  cbv zeta in *. destruct H as (H1 & H2 & H3 & H4 & _).
  repeat split; assumption.
Qed.

(** X20.  With [drop_last], both generators yield the batches that they
    yield without it, less the last one: the last batch is dropped
    whether or not it is full. *)
Theorem drop_last_drops_the_last_batch (iterable : list T) (batch_size : Z) :
  batchify_by_words len iterable batch_size true
  = removelast (batchify_by_words len iterable batch_size false)
  /\ batchify_by_padded_words len iterable batch_size true
     = removelast (batchify_by_padded_words len iterable batch_size false).
Proof.
  split.
  - exact (proj2 (proj2 (proj2 (proj2
      (batches_of_spec T batch_size (words len)
         (fun b item => words len b + Z.of_nat (len item)) (words len)
         (words_step len batch_size)
         (words_step_shape batch_size) (words_snoc T len) iterable))))).
  - exact (proj2 (proj2 (proj2 (proj2
      (batches_of_spec T batch_size (padded_words len)
         (fun b item => (1 + Z.of_nat (List.length b))
                        * Z.max (longest len b) (Z.of_nat (len item)))
         (longest len) (padded_step len batch_size)
         (padded_step_shape batch_size) padded_words_snoc iterable))))).
Qed.

End BatchingTheorems.

(** ** The name of a dimension is that of its last measure *)

Lemma sig_eqb_eq (a b : signature) : sig_eqb a b = true <-> a = b.
Proof.
  split; [| intros <-; apply sig_eqb_refl].
  revert b. induction a as [| [k d] a IH]; intros [| [k' d'] b]; cbn [sig_eqb];
    try discriminate; [reflexivity |].
  intros H. apply andb_prop in H. destruct H as [H Hab].
  apply andb_prop in H. destruct H as [Hk Hd].
  apply String.eqb_eq in Hk. apply Z.eqb_eq in Hd. subst.
  now rewrite (IH b Hab).
Qed.

Lemma measure_lookup_set (names : list (signature * string)) (d d' : signature)
      (n : string) :
  measure_lookup (names_set names d n) d'
  = if sig_eqb d d' then Some n else measure_lookup names d'.
Proof.
  induction names as [| [d0 n0] names IH]; cbn [names_set measure_lookup].
  - reflexivity.
  - destruct (sig_eqb d0 d) eqn:E0; cbn [measure_lookup].
    + apply sig_eqb_eq in E0. subst d0. now destruct (sig_eqb d d').
    + rewrite IH. destruct (sig_eqb d0 d') eqn:E1; [| reflexivity].
      apply sig_eqb_eq in E1. subst d0.
      destruct (sig_eqb d d') eqn:E2; [| reflexivity].
      apply sig_eqb_eq in E2. subst d'. now rewrite sig_eqb_refl in E0.
Qed.

(** The measure is configured for the dimension [dims]. *)
Definition measures (reg : UnitRegistry) (dims : signature) (m : MsrConfig) : bool :=
  match parse_unit reg (msr_unit m) with
  | Ok (d, _) => sig_eqb d dims
  | Raise _ => false
  end.

Lemma name_measure_raise (reg : UnitRegistry) (l : list MsrConfig) (e : exn) :
  fold_left (name_measure reg) l (Raise e) = Raise e.
Proof. induction l as [| m l IH]; [reflexivity | exact IH]. Qed.

Lemma find_snoc {A : Type} (f : A -> bool) (l : list A) (x : A) :
  find f (l ++ [x])
  = match find f l with
    | Some y => Some y
    | None => if f x then Some x else None
    end.
Proof.
  induction l as [| y l IH]; cbn [app find]; [reflexivity |].
  now destruct (f y).
Qed.

Lemma name_measures_lookup (reg : UnitRegistry) (l : list MsrConfig)
      (names0 names : list (signature * string)) (dims : signature) :
  fold_left (name_measure reg) l (Ok names0) = Ok names ->
  measure_lookup names dims
  = match find (measures reg dims) (rev l) with
    | Some m => msr_name m
    | None => measure_lookup names0 dims
    end.
Proof.
  revert names0. induction l as [| m l IH]; intros names0 H; cbn [fold_left] in H.
  - now injection H as <-.
  - unfold name_measure at 2 in H. cbn [bind] in H.
    destruct (msr_name m) as [name |] eqn:Hname; cbn [bind] in H;
      [| now rewrite name_measure_raise in H].
    destruct (parse_unit reg (msr_unit m)) as [[d sc] | e] eqn:Hparse; cbn [bind] in H;
      [| now rewrite name_measure_raise in H].
    rewrite (IH _ H). cbn [rev]. rewrite find_snoc.
    destruct (find (measures reg dims) (rev l)); [reflexivity |].
    unfold measures. rewrite Hparse, measure_lookup_set.
    destruct (sig_eqb d dims); [now rewrite Hname | reflexivity].
Qed.

Lemma name_measures_raise (reg : UnitRegistry) (l : list MsrConfig)
      (names0 : list (signature * string)) (e : exn) :
  fold_left (name_measure reg) l (Ok names0) = Raise e -> e = KeyError.
Proof.
  revert names0. induction l as [| m l IH]; intros names0 H; cbn [fold_left] in H;
    [discriminate |].
  unfold name_measure at 2 in H. cbn [bind] in H.
  destruct (msr_name m) as [name |]; cbn [bind] in H;
    [| rewrite name_measure_raise in H; now injection H as <-].
  destruct (parse_unit reg (msr_unit m)) as [[d sc] | e'] eqn:Hparse; cbn [bind] in H.
  - exact (IH _ H).
  - rewrite name_measure_raise in H. injection H as <-.
    exact (parse_unit_raises _ _ _ Hparse).
Qed.

(** X21.  The names of the measures, as the two loops of [__init__]
    record them: the name found for a dimension signature is the name
    of the last measure of the second list whose unit has that
    signature, and failing that of the last such measure of the first
    list; so that of two measures of one dimension the earlier is
    shadowed, and a signature of no measure has no name.  The loops fail
    only with [KeyError], for a measure without name or with a unit that
    the registry does not parse. *)
Theorem last_measure_names_the_dimension (reg : UnitRegistry)
        (quantities measure_configs : list MsrConfig) :
  match init_measure_names reg quantities measure_configs with
  | Ok names =>
      forall dims,
        measure_lookup names dims
        = match find (measures reg dims) (rev measure_configs) with
          | Some m => msr_name m
          | None =>
              match find (measures reg dims) (rev quantities) with
              | Some m => msr_name m
              | None => None
              end
          end
  | Raise e => e = KeyError
  end.
Proof.
  unfold init_measure_names.
  destruct (fold_left (name_measure reg) quantities (Ok [])) as [names1 | e] eqn:H1.
  - destruct (fold_left (name_measure reg) measure_configs (Ok names1))
      as [names | e] eqn:H2.
    + intros dims. rewrite (name_measures_lookup _ _ _ _ dims H2).
      destruct (find (measures reg dims) (rev measure_configs)); [reflexivity |].
      now rewrite (name_measures_lookup _ _ _ _ dims H1).
    + exact (name_measures_raise _ _ _ _ H2).
  - rewrite name_measure_raise. exact (name_measures_raise _ _ _ _ H1).
Qed.

(** ** Processing a document *)

Lemma run_steps_total (self : QuantitiesMatcher) (doc : Doc)
      (unit_label_hashes : list string) (table_matches : list Table)
      (pseudo : list ascii) (offsets : list nat) (indices : list nat) (st : LoopState) :
  eval_is_handled -> triggers_configured self ->
  exists st',
    run_steps self doc unit_label_hashes table_matches pseudo offsets indices st = Ok st'.
Proof.
  intros Heval Hcfg. revert st.
  induction indices as [| i indices IH]; intros st; cbn [run_steps]; [now eexists |].
  destruct (extract_step_ok self doc unit_label_hashes table_matches pseudo offsets st i
              Heval Hcfg) as [st1 ->].
  cbn [bind]. apply IH.
Qed.

Lemma extracted_shape_registered (self : QuantitiesMatcher) (q : QSpan) :
  extracted_shape self q -> registered (unit_registry self) q.
Proof.
  intros (value & u & dims & sc & Hv & _ & Hparse & _).
  unfold registered. rewrite Hv. cbn [q_registry q_unit].
  split; [reflexivity | now exists dims, sc].
Qed.

(** The values that the extraction loop sets are those that its spans
    have in the store, but for a span that shares its entry with a later
    one; if all satisfy [P], so does what the store holds for each. *)
Lemma stored_holds (P : QSpan -> Prop) (store : Store) (quantities : list QSpan) :
  Forall P quantities ->
  Forall (holds P (stored store quantities)) (map qs_span quantities).
Proof.
  unfold stored. induction quantities as [| q l IH] using rev_ind; intros Hall;
    [constructor |].
  apply Forall_app in Hall. destruct Hall as [Hl Hq]. inversion Hq as [| ? ? Hp _]; subst.
  rewrite fold_left_app, map_app. cbn [fold_left map]. apply Forall_app. split.
  - eapply Forall_impl; [| exact (IH Hl)]. intros s. now apply holds_set.
  - constructor; [| constructor].
    exists (qs_value q). split; [apply Span_value_set_same | now rewrite with_value_eta].
Qed.

(** X22.  [__call__] without a span getter (extraction over the whole
    document, then the adjacent pass, then the range pass) lets no
    [KeyError], [AttributeError] or [TypeError] escape, as soon as [eval]
    fails with [ValueError] or [SyntaxError] only and every unitless
    trigger has its pattern with its ranges.  The spans it hands to
    [set_spans] have values attached to the registry of the matcher,
    which parses their units, and they are at most as many as the
    candidates. *)
Theorem document_processing_failure_modes (self : QuantitiesMatcher) (doc : Doc)
        (tables : list Table) (matches : list (Span * bool))
        (unit_label_hashes : list string) (store : Store) :
  eval_is_handled -> triggers_configured self ->
  match call_without_getter self doc tables matches unit_label_hashes store with
  | Ok (store', out) =>
      Forall (holds (registered (unit_registry self)) store') out
      /\ (List.length out <= List.length matches)%nat
  | Raise e => escapes e
  end.
Proof.
  intros Heval Hcfg. unfold call_without_getter, extract_quantities.
  match goal with
  | |- context [run_steps self doc ?h ?t ?p ?o ?idx ?st0] =>
      destruct (run_steps_total self doc h t p o idx st0 Heval Hcfg) as [st Hrun]
  end.
  rewrite Hrun. cbn [bind].
  destruct (run_steps_shape _ _ _ _ _ _ _ _ _ Hrun) as [Hshape Hlen];
    [cbn [initial_state st_quantities]; constructor |].
  cbn [initial_state st_quantities List.length] in Hlen. rewrite length_seq in Hlen.
  assert (Hreg : Forall (holds (registered (unit_registry self))
                               (stored store (st_quantities st)))
                        (map qs_span (st_quantities st))).
  { apply stored_holds. rewrite Forall_forall in Hshape |- *. intros q Hq.
    apply extracted_shape_registered. now apply Hshape. }
  unfold merge_adjacent_quantities.
  rewrite (run_pass_ext _ _ _ (map qs_span (st_quantities st)) adjacent_step_decide).
  pose proof (run_pass_invariant adjacent_decide_in (registered (unit_registry self))
                escapes (adjacent_decide_in_registered (unit_registry self))
                _ _ Hreg) as H1.
  destruct (run_pass (step_of adjacent_decide_in) (stored store (st_quantities st))
              (map qs_span (st_quantities st))) as [[store1 merged] | e];
    cbn [bind]; [| exact H1].
  destruct H1 as (Hreg1 & Hlen1 & _). rewrite length_map in Hlen1.
  unfold merge_quantities_in_ranges.
  destruct (negb (extract_ranges self)
            || match range_patterns self with [] => true | _ => false end).
  { split; [exact Hreg1 | lia]. }
  rewrite (run_pass_ext _ _ store1 merged (range_step_decide self doc)).
  pose proof (run_pass_invariant (range_decide_in self doc)
                (registered (unit_registry self)) escapes
                (range_decide_in_registered self doc (unit_registry self))
                _ _ Hreg1) as H2.
  destruct (run_pass (step_of (range_decide_in self doc)) store1 merged)
    as [[store2 out] | e]; [| exact H2].
  destruct H2 as (Hreg2 & Hlen2 & _). split; [exact Hreg2 | lia].
Qed.

(** ** Parts without gaps make one unit *)

Lemma gap_free_middle (doc : Doc) (front rest : list Span) (l p : Span) :
  gap_free doc (front ++ l :: p :: rest) -> gap_blank doc (end_ l) (start p) = true.
Proof.
  induction front as [| x front IH]; cbn [app gap_free].
  - now intros [H _].
  - destruct front as [| y front]; cbn [app gap_free] in *; intros [_ H]; now apply IH.
Qed.

(** With composition enabled and no gap between the parts, the loop of
    [extract_units] never closes a run. *)
Lemma units_fold_no_break (hashes : list string) (doc : Doc) (doc_len : Z)
      (ps : list Span) (st : UnitsState) :
  match us_last st with
  | None => us_current st = []
  | Some l => exists front, us_current st = front ++ [l]
  end ->
  gap_free doc (us_current st ++ filter (fun p => str_mem (label p) hashes) ps) ->
  exists st',
    fold_left (units_step hashes true doc doc_len) ps (Some st) = Some st'
    /\ us_units st' = us_units st
    /\ us_current st' = us_current st ++ filter (fun p => str_mem (label p) hashes) ps.
Proof.
  revert st. induction ps as [| p ps IH]; intros st Hlast Hgap.
  - exists st. cbn [fold_left filter]. now rewrite app_nil_r.
  - cbn [fold_left filter] in *. unfold units_step at 2.
    destruct (str_mem (label p) hashes); cbn [negb]; [| now apply IH].
    assert (Hnext : forall st1,
               us_last st1 = Some p -> us_units st1 = us_units st ->
               us_current st1 = us_current st ++ [p] ->
               exists st',
                 fold_left (units_step hashes true doc doc_len) ps (Some st1) = Some st'
                 /\ us_units st' = us_units st
                 /\ us_current st' = us_current st ++ p :: filter (fun p => str_mem (label p) hashes) ps).
    { intros st1 Hl1 Hu1 Hc1.
      destruct (IH st1) as (st' & Hfold & Hu & Hc).
      - rewrite Hl1. now exists (us_current st).
      - rewrite Hc1, <- app_assoc. exact Hgap.
      - exists st'. split; [exact Hfold |]. split; [congruence |].
        now rewrite Hc, Hc1, <- app_assoc. }
    destruct (us_last st) as [l |].
    + destruct Hlast as [front Hcur].
      rewrite Hcur, <- app_assoc in Hgap. cbn [app] in Hgap.
      rewrite (gap_free_middle _ _ _ _ _ Hgap). cbn [negb andb orb].
      now apply Hnext.
    + now apply Hnext.
Qed.

(** X23.  With [compose_units] enabled, unit parts that follow one
    another with blank text only between them are composed into one
    unit: [extract_units] returns no unit when all the parts are
    divisors, and otherwise the single unit made of the parts up to the
    last one that is not a divisor. *)
Theorem gap_free_parts_make_one_unit (unit_part_label_hashes : list string)
        (doc : Doc) (doc_len : Z) (filtered units : list Span) :
  let parts := filter (fun p => str_mem (label p) unit_part_label_hashes) filtered in
  gap_free doc parts ->
  extract_units unit_part_label_hashes true doc doc_len filtered = Some units ->
  (forallb is_per parts = true /\ units = [])
  \/ exists run pers u,
       parts = run ++ pers /\ forallb is_per pers = true
       /\ units = [u] /\ is_unit_of doc run u.
Proof.
  cbv zeta. intros Hgap. unfold extract_units.
  destruct (units_fold_no_break unit_part_label_hashes doc doc_len filtered
              {| us_last := None; us_units := []; us_current := [] |} eq_refl Hgap)
    as (st & -> & Hunits & Hcur).
  cbn [us_units us_current app] in Hunits, Hcur. rewrite Hunits, Hcur.
  intros Hclose.
  destruct (close_run_spec _ _ _ _ Hclose)
    as [[Hpers ->] | (front & x & trailing & first & u & Hparts & Hx & Ht & Hhd & -> & Hs & He & Hl)].
  - now left.
  - right. exists (front ++ [x]), trailing, u.
    split; [now rewrite <- app_assoc |]. split; [exact Ht |]. split; [reflexivity |].
    exists front, x, first. repeat split; try assumption.
    + rewrite Hparts in Hhd. destruct front; exact Hhd.
    + apply (gap_free_prefix doc _ trailing). rewrite <- app_assoc. cbn [app].
      now rewrite <- Hparts.
Qed.

(** ** What the adjacent pass does with a pair *)

(** X24.  Let the adjacent pass, run over the spans before [ent], end
    with [last] as its last span, and let the values it then finds for
    [last] and for [ent] be scalars.  If [last] ends where [ent] starts,
    their units are spelled differently and the second scalar converts
    into the unit of the first, the pass run over the spans up to [ent]
    replaces the pair by one span, from the start of [last] to the end
    of [ent], labelled as [ent], for which it stores the sum of the
    first scalar and of the converted second one in the unit of the
    first.  If the two spans do not touch, or if their units are spelled
    the same, both are kept as they are, and so is the store. *)
Theorem adjacent_merge_replaces_pair (store store1 : Store)
        (before front : list Span) (last ent : Span)
        (first_scalar second_scalar : SimpleQuantity) :
  merge_adjacent_quantities store before = Ok (store1, front ++ [last]) ->
  Span_value store1 last = Some (QSimple first_scalar) ->
  Span_value store1 ent = Some (QSimple second_scalar) ->
  let merged :=
    {| start := start last; end_ := Z.max (start last) (end_ ent); label := label ent |} in
  (forall converted,
     end_ last = start ent ->
     sq_unit first_scalar <> sq_unit second_scalar ->
     SimpleQuantity_convert_to second_scalar (sq_unit first_scalar) = Ok converted ->
     merge_adjacent_quantities store (before ++ [ent])
     = Ok (Span_set store1 merged
             (QSimple {| sq_value := (sq_value first_scalar + converted)%float;
                         sq_unit := sq_unit first_scalar;
                         sq_registry := sq_registry first_scalar |}),
           front ++ [merged]))
  /\ (end_ last <> start ent
      \/ sq_unit first_scalar = sq_unit second_scalar ->
      merge_adjacent_quantities store (before ++ [ent])
      = Ok (store1, front ++ [last; ent])).
Proof.
  intros Hbefore Hlast Hent merged.
  unfold merge_adjacent_quantities in *. rewrite (run_pass_snoc _ _ _ _ _ _ _ Hbefore).
  unfold adjacent_step. cbn [fst snd]. rewrite Hlast, Hent. cbn [q_unit].
  split.
  - intros converted Hadj Hunits Hconv.
    rewrite Hadj, Z.eqb_refl.
    destruct (String.eqb_spec (sq_unit first_scalar) (sq_unit second_scalar)) as [Heq | _];
      [contradiction |].
    cbn [negb Quantity_add]. unfold SimpleQuantity_add. cbn [q_unit].
    destruct (String.eqb_spec (sq_unit second_scalar) (sq_unit first_scalar)) as [Heq | _];
      [now contradiction Hunits |].
    rewrite Hconv. cbn [bind]. unfold replace_last, merged_list. cbn [fst snd].
    reflexivity.
  - intros [Hapart | Hsame].
    + destruct (Z.eqb_spec (end_ last) (start ent)) as [| _]; [contradiction |].
      cbn [bind]. unfold keep_apart, merged_list. cbn [fst snd]. now rewrite <- app_assoc.
    + rewrite Hsame, String.eqb_refl. cbn [negb].
      destruct (end_ last =? start ent); cbn [bind]; unfold keep_apart, merged_list;
        cbn [fst snd]; now rewrite <- app_assoc.
Qed.

(** ** The unit linked after a number is the nearest one *)

Lemma indexed_cons {A : Type} (from : nat) (x : A) (l : list A) :
  indexed from (x :: l) = (from, x) :: indexed (S from) l.
Proof. reflexivity. Qed.

(** The forward search over the candidates [l], numbered from [from]:
    what it finds is the first hit, and nothing before it stopped the
    generator; when it finds nothing, every hit lies behind a candidate
    that stopped the generator. *)
Lemma forward_search (too_far : Span -> bool) (test : nat * Span -> bool)
      (l : list (Span * bool)) (from : nat) :
  match find test (yield_until too_far (indexed from l)) with
  | Some (j, ent) =>
      (from <= j)%nat
      /\ (exists f, nth_error l (j - from) = Some (ent, f))
      /\ test (j, ent) = true
      /\ (forall k m f, (from <= k < j)%nat -> nth_error l (k - from) = Some (m, f) ->
                        test (k, m) = false)
  | None =>
      forall k m f, (from <= k)%nat -> nth_error l (k - from) = Some (m, f) ->
                    test (k, m) = true ->
                    exists k' m', (from <= k' <= k)%nat
                                  /\ nth_error l (k' - from) = Some (m', false)
                                  /\ too_far m' = true
  end.
Proof.
  revert from. induction l as [| [x fx] l IH]; intros from.
  - cbn. intros k m f _ H. destruct (k - from)%nat; discriminate.
  - rewrite indexed_cons. cbn [yield_until].
    destruct (negb fx && too_far x) eqn:Hstop; cbn [find].
    + intros k m f Hk _ _. exists from, x.
      apply andb_prop in Hstop. destruct Hstop as [Hfx Hfar].
      apply negb_true_iff in Hfx. subst fx.
      split; [lia |]. split; [now rewrite Nat.sub_diag | exact Hfar].
    + destruct (test (from, x)) eqn:Htest.
      * split; [lia |]. split; [exists fx; now rewrite Nat.sub_diag |].
        split; [exact Htest |]. intros k m f Hk. lia.
      * specialize (IH (S from)).
        destruct (find test (yield_until too_far (indexed (S from) l))) as [[j ent] |].
        -- destruct IH as (Hle & [f Hnth] & Hhit & Hnear).
           split; [lia |]. split.
           { exists f. replace (j - from)%nat with (S (j - S from)) by lia. exact Hnth. }
           split; [exact Hhit |].
           intros k m f' Hk Hkm.
           destruct (Nat.eq_dec k from) as [-> | Hne].
           ++ rewrite Nat.sub_diag in Hkm. injection Hkm as <- _. exact Htest.
           ++ apply (Hnear k m f'); [lia |].
              replace (k - from)%nat with (S (k - S from)) in Hkm by lia. exact Hkm.
        -- intros k m f Hk Hkm Hhit.
           destruct (Nat.eq_dec k from) as [-> | Hne].
           ++ rewrite Nat.sub_diag in Hkm. injection Hkm as <- _. congruence.
           ++ destruct (IH k m f) as (k' & m' & Hk' & Hnth' & Hfar'); [lia | | exact Hhit |].
              ** replace (k - from)%nat with (S (k - S from)) in Hkm by lia. exact Hkm.
              ** exists k', m'. split; [lia |]. split; [| exact Hfar'].
                 replace (k' - from)%nat with (S (k' - S from)) by lia. exact Hnth'.
Qed.

(** X25.  The first strategy of the linker, for the number at index
    [i]: the unit it links is the nearest candidate after the number
    that carries a unit label, no unit candidate standing between them;
    and when it links none, every unit candidate after the number lies
    behind a candidate other than a sentence end that starts more than
    six tokens past the end of the number, at which the search
    stopped. *)
Theorem adjacent_unit_is_the_nearest (matches : list (Span * bool))
        (unit_label_hashes : list string) (i : nat) (number : Span) (f0 : bool) :
  nth_error matches i = Some (number, f0) ->
  match unit_idx (link_after matches unit_label_hashes i) with
  | Some j =>
      (i < j)%nat
      /\ (exists ent f,
             nth_error matches j = Some (ent, f)
             /\ unit_text (link_after matches unit_label_hashes i) = Some ent
             /\ unit_norm (link_after matches unit_label_hashes i) = Some (label ent)
             /\ str_mem (label ent) unit_label_hashes = true)
      /\ (forall k m f, (i < k < j)%nat -> nth_error matches k = Some (m, f) ->
                        str_mem (label m) unit_label_hashes = false)
  | None =>
      forall k m f, (i < k)%nat -> nth_error matches k = Some (m, f) ->
                    str_mem (label m) unit_label_hashes = true ->
                    exists k' m', (i < k' <= k)%nat
                                  /\ nth_error matches k' = Some (m', false)
                                  /\ end_ number + AFTER_SNIPPET_LIMIT < start m'
  end.
Proof.
  intros Hnumber. unfold link_after, get_matches_after. rewrite Hnumber.
  pose proof (forward_search
                (fun ent => end_ number + AFTER_SNIPPET_LIMIT <? start ent)
                (is_unit unit_label_hashes) (skipn (S i) matches) (S i)) as H.
  assert (Hskip : forall k, (S i <= k)%nat ->
                            nth_error (skipn (S i) matches) (k - S i) = nth_error matches k).
  { intros k Hk. rewrite nth_error_skipn. f_equal. lia. }
  destruct (find (is_unit unit_label_hashes) _) as [[j ent] |]; cbn [unit_idx unit_text unit_norm].
  - destruct H as (Hle & [f Hnth] & Hhit & Hnear).
    split; [lia |]. split.
    + exists ent, f. rewrite <- (Hskip j Hle). repeat split; assumption.
    + intros k m f' Hk Hkm. apply (Hnear k m f'); [lia |].
      rewrite (Hskip k); [exact Hkm | lia].
  - intros k m f Hk Hkm Hunit.
    destruct (H k m f) as (k' & m' & Hk' & Hnth' & Hfar); [lia | | exact Hunit |].
    + rewrite (Hskip k); [exact Hkm | lia].
    + exists k', m'. split; [lia |]. split.
      * rewrite <- (Hskip k'); [exact Hnth' | lia].
      * now apply Z.ltb_lt.
Qed.

End Embedding.

(* ================================================================= *)
(** * Part III: concrete runs                                         *)
(* ================================================================= *)

(** On ASCII strings NFKC normalisation changes nothing. *)
Definition nfkc_ascii (s : string) : string := s.

(** A registry of two lengths, the centimetre being the reference. *)
Definition length_units : dict UnitConfig :=
  [("cm", {| dim := "length"; degree := 1; scale := 1%float;
             terms := ["cm"]; followed_by := None |});
   ("m", {| dim := "length"; degree := 1; scale := 100%float;
            terms := ["m"]; followed_by := Some "cm" |})].

Definition length_registry : UnitRegistry :=
  [("cm", {| dim := "length"; degree := 1; scale := 1%float;
             terms := ["cm"]; followed_by := None |});
   ("m", {| dim := "length"; degree := 1; scale := 100%float;
            terms := ["m"]; followed_by := Some "cm" |});
   ("per_cm", {| dim := "length"; degree := -1; scale := 1%float;
                 terms := []; followed_by := None |});
   ("per_m", {| dim := "length"; degree := -1; scale := 0x1.47ae147ae147bp-7%float;
                terms := []; followed_by := None |})].

Lemma length_registry_built :
  UnitRegistry_init nfkc_ascii length_units = Ok length_registry.
Proof. vm_compute. reflexivity. Qed.

(** 7 cm and 0.07 m. *)
Definition seven_cm : SimpleQuantity :=
  {| sq_value := 7%float; sq_unit := "cm"; sq_registry := length_registry |}.

Definition seven_hundredths_m : SimpleQuantity :=
  {| sq_value := 0x1.1eb851eb851ecp-4%float; sq_unit := "m";
     sq_registry := length_registry |}.

(** C1 (as stated) fails: both units are registered and homogeneous and
    [7 cm == 0.07 m] is [True], yet converting the right operand into the
    unit of the left one gives 7.000000000000001, which is not the payload
    7 of the left operand. *)
Lemma eq_is_not_right_operand_conversion :
  (exists d s1 s2,
      parse_unit nfkc_ascii length_registry "cm" = Ok (d, s1)
      /\ parse_unit nfkc_ascii length_registry "m" = Ok (d, s2))
  /\ py_eq nfkc_ascii (QSimple seven_cm) (PySimple seven_hundredths_m) = Ok true
  /\ exists v,
      SimpleQuantity_convert_to nfkc_ascii seven_hundredths_m (sq_unit seven_cm) = Ok v
      /\ (v =? sq_value seven_cm)%float = false
      /\ v = 0x1.c000000000001p+2%float.
Proof.
  split; [| split].
  - eexists. eexists. eexists. split; vm_compute; reflexivity.
  - vm_compute. reflexivity.
  - eexists. split; [| split]; vm_compute; reflexivity.
Qed.

(** C10 at a scalar and an interval with the same bounds and unit. *)
Lemma eq_other_variant_is_false_witness :
  py_eq nfkc_ascii (QSimple seven_cm)
        (PyRange {| rq_value := (Num 7%float, Num 7%float); rq_unit := "cm";
                    rq_registry := length_registry |}) = Ok false.
Proof.
  apply (eq_other_variant_is_false nfkc_ascii (QSimple seven_cm)
           (PyRange {| rq_value := (Num 7%float, Num 7%float); rq_unit := "cm";
                       rq_registry := length_registry |})).
  reflexivity.
Defined.

(** ** Documents and literals of the runs *)

(** A document given by its tokens: non-blank words separated by single
    spaces, each its own normalised form. *)
Definition tokens_between (toks : list string) (a b : Z) : list string :=
  firstn (Z.to_nat (b - a)) (skipn (Z.to_nat a) toks).

Definition doc_of_tokens (toks : list string) : Doc :=
  {| gap_blank := fun a b =>
       match tokens_between toks a b with [] => true | _ :: _ => false end;
     span_text := fun a b => String.concat " " (tokens_between toks a b);
     tok_norm := fun i => nth (Z.to_nat i) toks "";
     norm_text := fun a b => String.concat " " (tokens_between toks a b);
     snippet_start := 0;
     snippet_end := Z.of_nat (List.length toks) |}.

Fixpoint float_of_positive (p : positive) : float :=
  match p with
  | xH => 1%float
  | xO q => (2 * float_of_positive q)%float
  | xI q => (2 * float_of_positive q + 1)%float
  end.

Fixpoint digits_value (s : string) (acc : N) : option N :=
  match s with
  | EmptyString => Some acc
  | String c rest =>
      let n := N_of_ascii c in
      if ((48 <=? n) && (n <=? 57))%N
      then digits_value rest (10 * acc + (n - 48))%N
      else None
  end.

(** [eval] on the unsigned integer literals the runs use; anything else
    is a syntax error. *)
Definition eval_integer (s : string) : result float :=
  match s with
  | EmptyString => Raise SyntaxError
  | _ =>
      match digits_value s 0%N with
      | Some N0 => Ok 0%float
      | Some (Npos p) => Ok (float_of_positive p)
      | None => Raise SyntaxError
      end
  end.

(** A registry of masses, the gram being the reference. *)
Definition mass_registry : UnitRegistry :=
  [("g", {| dim := "mass"; degree := 1; scale := 1%float;
            terms := ["g"]; followed_by := None |});
   ("kg", {| dim := "mass"; degree := 1; scale := 1000%float;
             terms := ["kg"]; followed_by := None |});
   ("per_g", {| dim := "mass"; degree := -1; scale := 1%float;
                terms := []; followed_by := None |});
   ("per_kg", {| dim := "mass"; degree := -1; scale := 0x1.0624dd2f1a9fcp-10%float;
                 terms := []; followed_by := None |})].

(** A matcher for weights with the trigger "poids" and the built-in
    window limits. *)
Definition weight_matcher : QuantitiesMatcher :=
  {| unit_registry := mass_registry;
     unitless_patterns :=
       [("unitless_0",
         {| up_terms := ["poids"];
            up_ranges := Some [{| range_min := Some 0%float;
                                  range_max := Some 9999%float;
                                  range_unit := "kg" |}];
            up_name := "weight" |})];
     unitless_label_hashes := ["unitless_0"];
     number_label_hashes := ["number"];
     unit_followers := [];
     measure_names := [([("mass", 1)], "weight")];
     all_quantities := false;
     use_tables := false;
     extract_ranges := false;
     range_patterns := [];
     before_snippet_limit := 10;
     after_snippet_limit := 6 |}.

Definition span (a b : Z) (l : string) : Span :=
  {| start := a; end_ := b; label := l |}.

(** ** Runs of the linker *)

(** "poids : 65": a trigger, the colon, a number. *)
Definition poids_doc : Doc := doc_of_tokens ["poids"; ":"; "65"].

Definition poids_matches : list (Span * bool) :=
  [(span 0 1 "unitless_0", false);
   (span 1 2 "unitless_stopword", false);
   (span 2 3 "number", false)].

(** The bare number after the trigger becomes the weight 65 kg. *)
Lemma poids_run :
  extract_quantities nfkc_ascii eval_integer weight_matcher poids_doc [] poids_matches []
  = Ok ([{| qs_span := span 2 3 "weight";
            qs_value := QSimple {| sq_value := 65%float; sq_unit := "kg";
                                   sq_registry := mass_registry |} |}],
        []).
Proof. vm_compute. reflexivity. Qed.

(** C7 at "poids : 65": the trigger's range [0, 9999) holds 65 and gives
    the kilogram. *)
Lemma unitless_dispatch_witness :
  link_number weight_matcher poids_matches [] []
              ["w"; ":"; "n"]%char [0; 1; 2]%nat [] 2 (span 2 3 "number") 65%float
  = Ok {| unit_idx := None; unit_text := None; unit_norm := Some "kg" |}.
Proof.
  refine (proj1 (proj2 (unitless_dispatch nfkc_ascii eval_integer weight_matcher poids_doc
                          [] [] ["w"; ":"; "n"]%char [0; 1; 2]%nat
                          (initial_state poids_matches) 2 (span 2 3 "number") false
                          65%float _ _ _ _))
                0%nat (span 0 1 "unitless_0")
                {| up_terms := ["poids"];
                   up_ranges := Some [{| range_min := Some 0%float;
                                         range_max := Some 9999%float;
                                         range_unit := "kg" |}];
                   up_name := "weight" |}
                [{| range_min := Some 0%float; range_max := Some 9999%float;
                    range_unit := "kg" |}]
                []
                {| range_min := Some 0%float; range_max := Some 9999%float;
                   range_unit := "kg" |}
                [] _ _ _ _ _ _ _); try reflexivity.
  - apply match_separators_spec. reflexivity.
  - constructor.
  - apply in_scope_spec. reflexivity.
Defined.

(** "5 xyz": a number followed by a unit span whose label the registry
    does not hold. *)
Definition xyz_doc : Doc := doc_of_tokens ["5"; "xyz"].

Definition xyz_matches : list (Span * bool) :=
  [(span 0 1 "number", false); (span 1 2 "xyz", false)].

Lemma xyz_run :
  extract_quantities nfkc_ascii eval_integer weight_matcher xyz_doc [] xyz_matches ["xyz"]
  = Ok ([], [span 0 1 "number"; span 1 2 "xyz"]).
Proof. vm_compute. reflexivity. Qed.

(** C9 at "5 xyz". *)
Lemma unknown_unit_is_dropped_witness :
  parse_unit nfkc_ascii (unit_registry weight_matcher) "xyz" = Raise KeyError
  /\ extract_step nfkc_ascii eval_integer weight_matcher xyz_doc ["xyz"] []
       ["n"; "u"]%char [0; 1]%nat (initial_state xyz_matches) 0
     = Ok (initial_state xyz_matches)
  /\ (forall quantities unmatched,
         extract_quantities nfkc_ascii eval_integer weight_matcher xyz_doc []
                            xyz_matches ["xyz"]
         = Ok (quantities, unmatched) ->
         In (span 0 1 "number") unmatched).
Proof.
  apply (unknown_unit_is_dropped nfkc_ascii eval_integer weight_matcher xyz_doc []
           xyz_matches ["xyz"] 0 (initial_state xyz_matches) (span 0 1 "number") false
           5%float
           {| unit_idx := Some 1%nat; unit_text := Some (span 1 2 "xyz");
              unit_norm := Some "xyz" |}
           "xyz" "xyz").
  - simpl. lia.
  - reflexivity.
  - reflexivity.
  - reflexivity.
  - reflexivity.
  - reflexivity.
  - reflexivity.
  - discriminate.
  - left. reflexivity.
  - reflexivity.
Defined.

(** ** Runs of the window generators *)

(** A number, then a sentence end twenty tokens further. *)
Definition far_matches : list (Span * bool) :=
  [(span 0 1 "number", false); (span 20 21 "", true)].

(** C2 (as stated) fails: with the limits at 6 and 10, the forward search
    from the number looks at a candidate that starts 19 tokens past the
    end of the number, because it is a sentence end. *)
Lemma forward_search_leaves_window :
  after_snippet_limit weight_matcher = 6
  /\ inspected (is_unit ["kg"]) (get_matches_after far_matches 0)
     = [(1%nat, span 20 21 "")]
  /\ end_ (span 0 1 "number") + after_snippet_limit weight_matcher
     < start (span 20 21 "").
Proof. repeat split. Qed.

(** The limits of the configuration are not read: with an
    [after_snippet_limit] of 2 the unit five tokens away is still
    linked. *)
Definition narrow_matcher : QuantitiesMatcher :=
  {| unit_registry := unit_registry weight_matcher;
     unitless_patterns := unitless_patterns weight_matcher;
     unitless_label_hashes := unitless_label_hashes weight_matcher;
     number_label_hashes := number_label_hashes weight_matcher;
     unit_followers := unit_followers weight_matcher;
     measure_names := measure_names weight_matcher;
     all_quantities := false;
     use_tables := false;
     extract_ranges := false;
     range_patterns := [];
     before_snippet_limit := 3;
     after_snippet_limit := 2 |}.

Definition near_doc : Doc := doc_of_tokens ["5"; "a"; "b"; "c"; "d"; "kg"].

Definition near_matches : list (Span * bool) :=
  [(span 0 1 "number", false); (span 5 6 "kg", false)].

Lemma configured_limit_is_not_read :
  end_ (span 0 1 "number") + after_snippet_limit narrow_matcher < start (span 5 6 "kg")
  /\ link_after near_matches ["kg"] 0
     = {| unit_idx := Some 1%nat; unit_text := Some (span 5 6 "kg");
          unit_norm := Some "kg" |}.
Proof. split; reflexivity. Qed.

(** C2 (amended) at the number of [near_matches]. *)
Lemma searches_stay_in_window_witness :
  (forall j ent,
      In (j, ent) (inspected (is_unit ["kg"]) (get_matches_after near_matches 0)) ->
      exists f, nth_error near_matches j = Some (ent, f)
                /\ (f = true
                    \/ start ent
                       <= end_ (span 0 1 "number") + after_snippet_limit weight_matcher))
  /\ (forall j ent,
         In (j, ent) (inspected (is_unit ["kg"]) (get_matches_before near_matches 0))
         \/ In (j, ent) (inspected (is_unitless weight_matcher)
                                   (get_matches_before near_matches 0)) ->
         exists f, nth_error near_matches j = Some (ent, f)
                   /\ (f = true
                       \/ start (span 0 1 "number") - before_snippet_limit weight_matcher
                          <= end_ ent)).
Proof.
  apply (searches_stay_in_window weight_matcher near_matches ["kg"] 0
           (span 0 1 "number") false); reflexivity.
Defined.

(** ** Run of the registry *)

(** C3 at the metre of [length_units]. *)
Lemma reciprocal_closure_witness :
  exists sg sc sc',
    parse_unit nfkc_ascii length_registry "m" = Ok (sg, sc)
    /\ parse_unit nfkc_ascii length_registry ("per_" ++ "m") = Ok (negate_signature sg, sc')
    /\ py_div 1 sc = Ok sc'
    /\ sg = [("length", 1)]
    /\ sc = 100%float.
Proof.
  apply (reciprocal_closure nfkc_ascii (fun s => eq_refl) (fun s => eq_refl)
           length_units length_registry "m"
           {| dim := "length"; degree := 1; scale := 100%float;
              terms := ["m"]; followed_by := Some "cm" |}).
  - exact length_registry_built.
  - reflexivity.
  - reflexivity.
  - discriminate.
  - reflexivity.
Defined.

(** ** Runs of the merge passes *)

Definition cm (v : float) : Quantity :=
  QSimple {| sq_value := v; sq_unit := "cm"; sq_registry := length_registry |}.

Definition metres (v : float) : Quantity :=
  QSimple {| sq_value := v; sq_unit := "m"; sq_registry := length_registry |}.

Definition cm_range (low high : payload) : Quantity :=
  QRange {| rq_value := (low, high); rq_unit := "cm"; rq_registry := length_registry |}.

(** A matcher for sizes that extracts ranges with the given patterns. *)
Definition range_matcher (patterns : list (option string * option string))
  : QuantitiesMatcher :=
  {| unit_registry := length_registry;
     unitless_patterns := [];
     unitless_label_hashes := [];
     number_label_hashes := ["number"];
     unit_followers := [("m", "cm")];
     measure_names := [([("length", 1)], "size")];
     all_quantities := false;
     use_tables := false;
     extract_ranges := true;
     range_patterns := patterns;
     before_snippet_limit := 10;
     after_snippet_limit := 6 |}.

(** The spans of a list of quantities, and the store that holds their
    values and nothing else. *)
Definition spans_of (quantities : list QSpan) : list Span := map qs_span quantities.

Definition store_of (quantities : list QSpan) : Store := stored [] quantities.

Definition one_metre_78 : list QSpan :=
  [{| qs_span := span 0 2 "size"; qs_value := metres 1 |};
   {| qs_span := span 2 3 "size"; qs_value := cm 78 |}].

(** "1 m 78": the two linked scalars add up to 1.78 m, stored for the
    span of the three tokens. *)
Lemma one_metre_78_run :
  merge_adjacent_quantities nfkc_ascii (store_of one_metre_78) (spans_of one_metre_78)
  = Ok (store_of (one_metre_78
                  ++ [{| qs_span := span 0 3 "size";
                         qs_value := metres 0x1.c7ae147ae147bp+0 |}]),
        [span 0 3 "size"]).
Proof. vm_compute. reflexivity. Qed.

(** Four sizes in start order, the second spanning the last two:
    5 cm at [0, 1), 7 cm at [1, 3), 1 m at [1, 2) and 78 cm at [2, 3). *)
Definition shared_quantities : list QSpan :=
  [{| qs_span := span 0 1 "size"; qs_value := cm 5 |};
   {| qs_span := span 1 3 "size"; qs_value := cm 7 |};
   {| qs_span := span 1 2 "size"; qs_value := metres 1 |};
   {| qs_span := span 2 3 "size"; qs_value := cm 78 |}].

(** What the store holds after a first adjacent pass: the sum 1.78 m has
    been stored for [1, 3), where 7 cm was. *)
Definition shared_first_store : Store :=
  store_of [{| qs_span := span 0 1 "size"; qs_value := cm 5 |};
            {| qs_span := span 1 3 "size"; qs_value := metres 0x1.c7ae147ae147bp+0 |};
            {| qs_span := span 1 2 "size"; qs_value := metres 1 |};
            {| qs_span := span 2 3 "size"; qs_value := cm 78 |}].

(** "1 cm - entre 2 cm et 3 cm". *)
Definition dash_doc : Doc :=
  doc_of_tokens ["1"; "cm"; "-"; "entre"; "2"; "cm"; "et"; "3"; "cm"].

Definition dash_patterns : list (option string * option string) :=
  [(Some "entre", Some "et"); (None, Some "-")].

Definition dash_quantities : list QSpan :=
  [{| qs_span := span 0 2 "size"; qs_value := cm 1 |};
   {| qs_span := span 4 6 "size"; qs_value := cm 2 |};
   {| qs_span := span 7 9 "size"; qs_value := cm 3 |}].

Definition dash_first_store : Store :=
  store_of (dash_quantities
            ++ [{| qs_span := span 3 9 "size"; qs_value := cm_range (Num 2) (Num 3) |}]).

Definition dash_second_store : Store :=
  store_of (dash_quantities
            ++ [{| qs_span := span 3 9 "size"; qs_value := cm_range (Num 2) (Num 3) |};
                {| qs_span := span 0 9 "size";
                   qs_value := cm_range (Num 1) (Pair (Num 2) (Num 3)) |}]).

(** C4 (as stated) fails for both passes.  For the adjacent pass: the
    four sizes come in start order; the first pass adds 1 m and 78 cm,
    and stores the sum for the boundaries [1, 3) that the span of 7 cm
    has, so that a second pass finds 5 cm followed by 1.78 m and merges
    them.  For the range pass: the spans follow one another without
    overlap; the first pass builds the range "entre 2 cm et 3 cm", whose
    span now starts at the from-marker; the text left between "1 cm" and
    that span is the to-marker "-", so a second pass merges again. *)
Lemma merge_passes_are_not_idempotent :
  (map start (spans_of shared_quantities) = [0; 1; 1; 2]
   /\ merge_adjacent_quantities nfkc_ascii (store_of shared_quantities)
        (spans_of shared_quantities)
      = Ok (shared_first_store, [span 0 1 "size"; span 1 3 "size"; span 1 3 "size"])
   /\ merge_adjacent_quantities nfkc_ascii shared_first_store
        [span 0 1 "size"; span 1 3 "size"; span 1 3 "size"]
      = Ok (Span_set shared_first_store (span 0 3 "size") (cm 183),
            [span 0 3 "size"; span 1 3 "size"]))
  /\ (map start (spans_of dash_quantities) = [0; 4; 7]
      /\ rising (spans_of dash_quantities)
      /\ merge_quantities_in_ranges nfkc_ascii (range_matcher dash_patterns) dash_doc
           (store_of dash_quantities) (spans_of dash_quantities)
         = Ok (dash_first_store, [span 0 2 "size"; span 3 9 "size"])
      /\ merge_quantities_in_ranges nfkc_ascii (range_matcher dash_patterns) dash_doc
           dash_first_store [span 0 2 "size"; span 3 9 "size"]
         = Ok (dash_second_store, [span 0 9 "size"])).
Proof.
  split; [split; [reflexivity | split; vm_compute; reflexivity] |].
  split; [reflexivity | split; [| split; vm_compute; reflexivity]].
  split; [repeat constructor; cbn; lia | cbn; repeat constructor; lia].
Qed.

(** "1 m 78 2 m": three sizes that follow one another. *)
Definition three_sizes : list QSpan :=
  one_metre_78 ++ [{| qs_span := span 3 5 "size"; qs_value := metres 2 |}].

Definition three_sizes_store : Store :=
  store_of (three_sizes
            ++ [{| qs_span := span 0 3 "size";
                   qs_value := metres 0x1.c7ae147ae147bp+0 |}]).

(** C4 (amended) at "1 m 78 2 m": the first pass adds 1 m and 78 cm and
    keeps 2 m apart, both being in metres; a second pass changes
    nothing. *)
Lemma merge_passes_idempotent_witness :
  merge_adjacent_quantities nfkc_ascii (store_of three_sizes) (spans_of three_sizes)
  = Ok (three_sizes_store, [span 0 3 "size"; span 3 5 "size"])
  /\ merge_adjacent_quantities nfkc_ascii three_sizes_store
       [span 0 3 "size"; span 3 5 "size"]
     = Ok (three_sizes_store, [span 0 3 "size"; span 3 5 "size"]).
Proof.
  assert (Hfirst : merge_adjacent_quantities nfkc_ascii (store_of three_sizes)
                     (spans_of three_sizes)
                   = Ok (three_sizes_store, [span 0 3 "size"; span 3 5 "size"]))
    by (vm_compute; reflexivity).
  split; [exact Hfirst |].
  refine (proj1 (merge_passes_idempotent nfkc_ascii) (store_of three_sizes)
            (spans_of three_sizes) three_sizes_store
            [span 0 3 "size"; span 3 5 "size"] _ Hfirst).
  split; [repeat constructor; cbn; lia | cbn; repeat constructor; lia].
Defined.










(** The order is broken at once when two spans start at the same token. *)
Lemma range_pass_breaks_order_on_equal_starts :
  match merge_quantities_in_ranges nfkc_ascii
          (range_matcher [(Some "entre", Some "et")])
          (doc_of_tokens ["a"; "b"; "c"; "d"; "entre"; "5"; "6"; "et"; "7"])
          (store_of [{| qs_span := span 5 6 "size"; qs_value := cm 5 |};
                     {| qs_span := span 5 7 "size"; qs_value := cm 6 |};
                     {| qs_span := span 8 9 "size"; qs_value := cm 7 |}])
          [span 5 6 "size"; span 5 7 "size"; span 8 9 "size"] with
  | Ok (_, out) => out = [span 5 6 "size"; span 4 9 "size"]
  | Raise _ => False
  end.
Proof. vm_compute. reflexivity. Qed.

(** "entre 50 cm et 1 m". *)
Definition entre_doc : Doc := doc_of_tokens ["entre"; "50"; "cm"; "et"; "1"; "m"].

Definition fifty_cm : QSpan := {| qs_span := span 1 3 "size"; qs_value := cm 50 |}.

Definition one_metre : QSpan := {| qs_span := span 4 6 "size"; qs_value := metres 1 |}.

(** C8 (amended) at "entre 50 cm et 1 m": one span from the from-marker
    to the end, for which the interval from 50 to 100 cm is stored. *)
Lemma range_merge_replaces_pair_witness :
  merge_quantities_in_ranges nfkc_ascii (range_matcher [(Some "entre", Some "et")])
    entre_doc (store_of [fifty_cm; one_metre]) (spans_of [fifty_cm; one_metre])
  = Ok (Span_set (store_of [fifty_cm; one_metre]) (span 0 6 "size")
          (cm_range (Num 50) (Num 100)),
        [span 0 6 "size"]).
Proof.
  refine (proj1 (range_merge_replaces_pair nfkc_ascii
                   (range_matcher [(Some "entre", Some "et")]) entre_doc
                   (store_of [fifty_cm; one_metre]) (store_of [fifty_cm; one_metre])
                   [span 1 3 "size"] [] (span 1 3 "size") (span 4 6 "size")
                   {| sq_value := 50%float; sq_unit := "cm";
                      sq_registry := length_registry |}
                   {| sq_value := 1%float; sq_unit := "m";
                      sq_registry := length_registry |}
                   (Some "entre") "et" [] [] _ _ _ _ _ _ _ _) 100%float _).
  - reflexivity.
  - reflexivity.
  - reflexivity.
  - reflexivity.
  - reflexivity.
  - constructor.
  - reflexivity.
  - right. reflexivity.
  - vm_compute. reflexivity.
Defined.

(** "entre 50 cm et 1 per_m". *)
Definition mixed_doc : Doc := doc_of_tokens ["entre"; "50"; "cm"; "et"; "1"; "per_m"].

Definition mixed_pair : list QSpan :=
  [fifty_cm;
   {| qs_span := span 4 6 "size";
      qs_value := QSimple {| sq_value := 1%float; sq_unit := "per_m";
                             sq_registry := length_registry |} |}].

(** C8 (as stated) fails: the text between the two spans is the
    to-marker and the token before the first is the from-marker of the
    pattern, and both values are scalars; but a number per metre does not
    convert into centimetres, and the pair is left as it is. *)
Lemma mixed_pair_stays_apart :
  range_to_text mixed_doc (span 1 3 "size") (span 4 6 "size") = "et"
  /\ range_from_text mixed_doc (span 1 3 "size") = Some "entre"
  /\ merge_quantities_in_ranges nfkc_ascii (range_matcher [(Some "entre", Some "et")])
       mixed_doc (store_of mixed_pair) (spans_of mixed_pair)
     = Ok (store_of mixed_pair, spans_of mixed_pair).
Proof. split; [reflexivity | split; [reflexivity | vm_compute; reflexivity]]. Qed.

(** ** Run of the whole matcher *)







(** ** Runs for the further properties *)

(** A configuration that gives the metre and, by hand, a reciprocal of
    the metre with a scale of its own. *)
Definition overridden_units : dict UnitConfig :=
  [("m", {| dim := "length"; degree := 1; scale := 100%float;
            terms := ["m"]; followed_by := None |});
   ("per_m", {| dim := "length"; degree := -2; scale := 5%float;
                terms := ["/m"]; followed_by := None |});
   ("per_s", {| dim := "time"; degree := -1; scale := 1%float;
                terms := ["/s"]; followed_by := None |})].

Definition overridden_registry : UnitRegistry :=
  [("m", {| dim := "length"; degree := 1; scale := 100%float;
            terms := ["m"]; followed_by := None |});
   ("per_m", {| dim := "length"; degree := -1; scale := 0x1.47ae147ae147bp-7%float;
                terms := []; followed_by := None |});
   ("per_s", {| dim := "time"; degree := -1; scale := 1%float;
                terms := ["/s"]; followed_by := None |})].

(** X2 at that configuration: the reciprocal of the metre given by hand
    is replaced by the generated one, the reciprocal of the second, which
    has no plain unit, is kept. *)
Lemma registry_contents_witness :
  UnitRegistry_init nfkc_ascii overridden_units = Ok overridden_registry
  /\ forall k, dict_get overridden_registry k
               = built_entry (normalize_keys nfkc_ascii overridden_units) k.
Proof.
  split; [vm_compute; reflexivity |].
  apply (registry_contents nfkc_ascii overridden_units overridden_registry).
  vm_compute. reflexivity.
Defined.

(** X3 at 7 cm. *)
Lemma convert_to_own_unit_witness :
  Quantity_convert_to nfkc_ascii (QSimple seven_cm) "cm" = Ok (Num 7%float).
Proof.
  refine (proj1 (convert_to_own_unit nfkc_ascii (QSimple seven_cm)
                   [("length", 1)] 1%float _) _);
    vm_compute; reflexivity.
Defined.

Definition nine_cm : SimpleQuantity :=
  {| sq_value := 9%float; sq_unit := "cm"; sq_registry := length_registry |}.

(** X4 at 7 cm and 9 cm. *)
Lemma same_unit_comparisons_witness :
  py_eq nfkc_ascii (QSimple seven_cm) (PySimple nine_cm) = Ok (7 =? 9)%float
  /\ py_lt nfkc_ascii (QSimple seven_cm) (QSimple nine_cm) = Ok (7 <? 9)%float
  /\ py_le nfkc_ascii (QSimple seven_cm) (QSimple nine_cm) = Ok (7 <=? 9)%float.
Proof.
  apply (same_unit_comparisons nfkc_ascii seven_cm nine_cm [("length", 1)] 1%float);
    vm_compute; reflexivity.
Defined.

(** X6 at the interval from 7 cm to 9 cm and the scalar 1 m. *)
Lemma lt_implies_le_witness :
  py_le nfkc_ascii
        (QRange {| rq_value := (Num 7%float, Num 9%float); rq_unit := "cm";
                   rq_registry := length_registry |})
        (QSimple {| sq_value := 1%float; sq_unit := "m"; sq_registry := length_registry |})
  = Ok true.
Proof.
  apply (lt_implies_le nfkc_ascii); vm_compute; reflexivity.
Defined.

(** X8 at the metre. *)
Lemma parse_unit_signature_canonical_witness : canonical [("length", 1)].
Proof.
  apply (parse_unit_signature_canonical nfkc_ascii length_registry "m"
           [("length", 1)] 100%float).
  vm_compute. reflexivity.
Defined.

(** X10 at "poids : 65". *)
Lemma extracted_quantities_shape_witness :
  Forall (extracted_shape nfkc_ascii weight_matcher)
         [{| qs_span := span 2 3 "weight";
             qs_value := QSimple {| sq_value := 65%float; sq_unit := "kg";
                                    sq_registry := mass_registry |} |}]
  /\ (1 <= 3)%nat.
Proof.
  refine (extracted_quantities_shape nfkc_ascii eval_integer weight_matcher poids_doc
            [] poids_matches []
            [{| qs_span := span 2 3 "weight";
                qs_value := QSimple {| sq_value := 65%float; sq_unit := "kg";
                                       sq_registry := mass_registry |} |}]
            [] _).
  vm_compute. reflexivity.
Defined.

Lemma eval_integer_is_handled : eval_is_handled eval_integer.
Proof.
  intros s e. unfold eval_integer.
  destruct s as [| c s]; [intros [= <-]; now right |].
  destruct (digits_value (String c s) 0%N) as [[| p] |]; try discriminate.
  intros [= <-]. now right.
Qed.

Lemma weight_triggers_configured : triggers_configured weight_matcher.
Proof.
  intros l [<- | []]. eexists. eexists. split; reflexivity.
Qed.

(** X11 at the weight matcher and "poids : 65". *)
Lemma extract_quantities_returns_witness :
  exists quantities unmatched,
    extract_quantities nfkc_ascii eval_integer weight_matcher poids_doc [] poids_matches []
    = Ok (quantities, unmatched).
Proof.
  apply (extract_quantities_returns nfkc_ascii eval_integer weight_matcher poids_doc
           [] poids_matches []).
  - exact eval_integer_is_handled.
  - exact weight_triggers_configured.
Defined.

(** The two linked scalars of "1 m 78". *)
Lemma one_metre_78_registered :
  Forall (holds (registered nfkc_ascii length_registry) (store_of one_metre_78))
         (spans_of one_metre_78).
Proof.
  apply Forall_cons; [| apply Forall_cons; [| apply Forall_nil]];
    (eexists; split; [reflexivity |]);
    (split; [reflexivity | eexists; eexists; vm_compute; reflexivity]).
Qed.

(** X12 at "1 m 78", with ranges extracted on the pattern (entre, et). *)
Lemma merge_passes_failure_modes_witness :
  (match merge_adjacent_quantities nfkc_ascii (store_of one_metre_78)
           (spans_of one_metre_78) with
   | Ok (store', out) =>
       Forall (holds (registered nfkc_ascii length_registry) store') out
       /\ (List.length out <= List.length (spans_of one_metre_78))%nat
       /\ (out = [] <-> spans_of one_metre_78 = [])
   | Raise e => escapes e
   end)
  /\ (match merge_quantities_in_ranges nfkc_ascii
              (range_matcher [(Some "entre", Some "et")])
              (doc_of_tokens ["1"; "m"; "78"]) (store_of one_metre_78)
              (spans_of one_metre_78) with
      | Ok (store', out) =>
          Forall (holds (registered nfkc_ascii length_registry) store') out
          /\ (List.length out <= List.length (spans_of one_metre_78))%nat
          /\ (out = [] <-> spans_of one_metre_78 = [])
      | Raise e => escapes e
      end).
Proof.
  apply (merge_passes_failure_modes nfkc_ascii
           (range_matcher [(Some "entre", Some "et")])
           (doc_of_tokens ["1"; "m"; "78"]) length_registry (store_of one_metre_78)
           (spans_of one_metre_78)).
  exact one_metre_78_registered.
Defined.

(** X13 at "1 m 78": three tokens before the pass, three after. *)
Lemma adjacent_pass_conserves_tokens_witness :
  covered [span 0 3 "size"] = covered (spans_of one_metre_78)
  /\ Forall well_formed [span 0 3 "size"].
Proof.
  apply (adjacent_pass_conserves_tokens nfkc_ascii (store_of one_metre_78)
           (store_of (one_metre_78
                      ++ [{| qs_span := span 0 3 "size";
                             qs_value := metres 0x1.c7ae147ae147bp+0 |}]))
           (spans_of one_metre_78) [span 0 3 "size"]).
  - repeat constructor; unfold well_formed; cbn; lia.
  - vm_compute. reflexivity.
Defined.

(** "2 g par jour et 3 mg par": the unit parts of a dose per day, and a
    divisor left hanging after the second unit. *)
Definition dose_doc : Doc :=
  doc_of_tokens ["2"; "g"; "par"; "jour"; "et"; "3"; "mg"; "par"].

Definition dose_parts : list Span :=
  [span 1 2 "g"; span 2 3 "per"; span 3 4 "day"; span 4 5 "et";
   span 6 7 "mg"; span 7 8 "per"].

Definition dose_labels : list string := ["g"; "per"; "day"; "mg"].

Lemma dose_units :
  extract_units dose_labels true dose_doc 8 dose_parts
  = Some [span 1 4 "g_per_day"; span 6 7 "mg"].
Proof. vm_compute. reflexivity. Qed.

(** X15 at that document. *)
Lemma extract_units_runs_witness :
  exists runs,
    Covers runs (filter (fun p => str_mem (label p) dose_labels) dose_parts)
    /\ Forall2 (is_unit_of dose_doc) runs [span 1 4 "g_per_day"; span 6 7 "mg"]
    /\ (true = false ->
        Forall (fun run => forallb is_per (removelast run) = true) runs).
Proof.
  apply (extract_units_runs dose_labels true dose_doc 8 dose_parts).
  exact dose_units.
Defined.

(** X16 at that document. *)
Lemma extract_units_returns_witness :
  exists units, extract_units dose_labels true dose_doc 8 dose_parts = Some units.
Proof.
  apply (extract_units_returns dose_labels true dose_doc 8 dose_parts).
  - repeat constructor; cbn; lia.
  - repeat constructor; unfold by_start; cbn; lia.
Defined.

(** X17 at the labels of the dose per day. *)
Lemma split_of_joined_labels_witness :
  regex_split_unit (join_labels ["g"; "per"; "day"]) = ["g"; "per_day"].
Proof.
  apply (split_of_joined_labels ["g"; "per"; "day"]).
  - discriminate.
  - repeat constructor; intros H; cbn in H; intuition discriminate.
Defined.

(** X5 at 7 cm. *)
Lemma lt_irreflexive_witness :
  py_lt nfkc_ascii (QSimple seven_cm) (QSimple seven_cm) = Ok false
  \/ exists e, py_lt nfkc_ascii (QSimple seven_cm) (QSimple seven_cm) = Raise e.
Proof.
  apply (lt_irreflexive nfkc_ascii (QSimple seven_cm)). reflexivity.
Defined.

(** X22 at "poids : 65". *)
Lemma document_processing_failure_modes_witness :
  match call_without_getter nfkc_ascii eval_integer weight_matcher poids_doc []
          poids_matches [] [] with
  | Ok (store', out) =>
      Forall (holds (registered nfkc_ascii (unit_registry weight_matcher)) store') out
      /\ (List.length out <= List.length poids_matches)%nat
  | Raise e => escapes e
  end.
Proof.
  apply (document_processing_failure_modes nfkc_ascii eval_integer weight_matcher
           poids_doc [] poids_matches [] []).
  - exact eval_integer_is_handled.
  - exact weight_triggers_configured.
Defined.

(** "2 g par jour": three unit parts with nothing between them. *)
Definition per_day_doc : Doc := doc_of_tokens ["2"; "g"; "par"; "jour"].

Definition per_day_parts : list Span :=
  [span 1 2 "g"; span 2 3 "per"; span 3 4 "day"].

(** X23 at that document. *)
Lemma gap_free_parts_make_one_unit_witness :
  (forallb is_per (filter (fun p => str_mem (label p) dose_labels) per_day_parts) = true
   /\ [span 1 4 "g_per_day"] = [])
  \/ exists run pers u,
       filter (fun p => str_mem (label p) dose_labels) per_day_parts = run ++ pers
       /\ forallb is_per pers = true
       /\ [span 1 4 "g_per_day"] = [u] /\ is_unit_of per_day_doc run u.
Proof.
  apply (gap_free_parts_make_one_unit dose_labels per_day_doc 4 per_day_parts
           [span 1 4 "g_per_day"]).
  - cbn. repeat split; reflexivity.
  - vm_compute. reflexivity.
Defined.

(** "1 m 78" inside a span of 5 cm that covers the three tokens. *)
Definition covered_metre_78 : list QSpan :=
  [{| qs_span := span 0 3 "size"; qs_value := cm 5 |};
   {| qs_span := span 0 2 "size"; qs_value := metres 1 |};
   {| qs_span := span 2 3 "size"; qs_value := cm 78 |}].

(** X24 at these spans: the pass over the first two keeps them, and the
    pass over the three replaces the last two by a span of the three
    tokens, storing 1.78 m where the 5 cm of the first span were. *)
Lemma adjacent_merge_replaces_pair_witness :
  merge_adjacent_quantities nfkc_ascii (store_of covered_metre_78)
    (spans_of covered_metre_78)
  = Ok (Span_set (store_of covered_metre_78) (span 0 3 "size")
          (metres 0x1.c7ae147ae147bp+0),
        [span 0 3 "size"; span 0 3 "size"]).
Proof.
  refine (proj1 (adjacent_merge_replaces_pair nfkc_ascii
                   (store_of covered_metre_78) (store_of covered_metre_78)
                   [span 0 3 "size"; span 0 2 "size"] [span 0 3 "size"]
                   (span 0 2 "size") (span 2 3 "size")
                   {| sq_value := 1; sq_unit := "m"; sq_registry := length_registry |}
                   {| sq_value := 78; sq_unit := "cm"; sq_registry := length_registry |}
                   _ _ _)
                0x1.8f5c28f5c28f6p-1%float _ _ _).
  - reflexivity.
  - reflexivity.
  - reflexivity.
  - reflexivity.
  - discriminate.
  - vm_compute. reflexivity.
Defined.

(** "5 kg puis mg": two unit candidates after the number. *)
Definition two_units_matches : list (Span * bool) :=
  [(span 0 1 "number", false); (span 1 2 "kg", false); (span 3 4 "mg", false)].

(** X25 at the number of that document. *)
Lemma adjacent_unit_is_the_nearest_witness :
  match unit_idx (link_after two_units_matches ["kg"; "mg"] 0) with
  | Some j =>
      (0 < j)%nat
      /\ (exists ent f,
             nth_error two_units_matches j = Some (ent, f)
             /\ unit_text (link_after two_units_matches ["kg"; "mg"] 0) = Some ent
             /\ unit_norm (link_after two_units_matches ["kg"; "mg"] 0) = Some (label ent)
             /\ str_mem (label ent) ["kg"; "mg"] = true)
      /\ (forall k m f, (0 < k < j)%nat -> nth_error two_units_matches k = Some (m, f) ->
                        str_mem (label m) ["kg"; "mg"] = false)
  | None =>
      forall k m f, (0 < k)%nat -> nth_error two_units_matches k = Some (m, f) ->
                    str_mem (label m) ["kg"; "mg"] = true ->
                    exists k' m', (0 < k' <= k)%nat
                                  /\ nth_error two_units_matches k' = Some (m', false)
                                  /\ end_ (span 0 1 "number") + AFTER_SNIPPET_LIMIT < start m'
  end.
Proof.
  apply (adjacent_unit_is_the_nearest two_units_matches ["kg"; "mg"] 0
           (span 0 1 "number") false).
  reflexivity.
Defined.
